(** * Semusi temperature dashboard: the analysis core of [src/App.jsx]

    The component [App] holds a series of temperature samples and derives
    from it an ambient estimate ([calculateAmbientTemp]), summary
    statistics ([calculateStats]), a trend ([getTrend]) and the alerts
    computed by its [useEffect] callback.

    JavaScript Numbers are IEEE 754 binary64 values.  They are modelled by
    [spec_float] at precision 53 and maximal exponent 1024, with the
    arithmetic of [SpecFloat] (round to nearest, ties to even), so that
    rounding, overflow, signed zeros, infinities and NaN are those of the
    running program. *)

From Stdlib Require Import ZArith QArith Qround Qabs Qpower List String Ascii Bool Lia Lqa Permutation.
From Stdlib Require Import Floats.SpecFloat.
Import ListNotations.

Local Open Scope string_scope.
Local Open Scope Z_scope.

(** ** Numbers *)

Module Number.

Definition number := spec_float.

Definition prec : Z := 53.
Definition emax : Z := 1024.

Definition NaN : number := S754_nan.
Definition pInfinity : number := S754_infinity false.
Definition nInfinity : number := S754_infinity true.
Definition pZero : number := S754_zero false.
Definition nZero : number := S754_zero true.

(** The Number of an integer literal or of an array length (exact below
    2^53, rounded to nearest above). *)
Definition of_Z (z : Z) : number := binary_normalize prec emax z 0 false.

(** The Number nearest to the quotient [p / q] of two integers, [q > 0]:
    the value of a decimal literal such as [0.375 = 375 / 1000]. *)
Definition of_ratio (p : Z) (q : positive) : number :=
  match p with
  | Z0 => pZero
  | Zpos a =>
      let '(mz, ez, lz) := SFdiv_core_binary prec emax (Zpos a) 0 (Zpos q) 0 in
      binary_round_aux prec emax false mz ez lz
  | Zneg a =>
      let '(mz, ez, lz) := SFdiv_core_binary prec emax (Zpos a) 0 (Zpos q) 0 in
      binary_round_aux prec emax true mz ez lz
  end.

Definition add : number -> number -> number := SFadd prec emax.
Definition sub : number -> number -> number := SFsub prec emax.
Definition mul : number -> number -> number := SFmul prec emax.
Definition div : number -> number -> number := SFdiv prec emax.
Definition abs : number -> number := SFabs.

(** [x < y] and [x > y]; both are false as soon as an operand is NaN. *)
Definition lt (x y : number) : bool := SFltb x y.
Definition gt (x y : number) : bool := SFltb y x.

(** [x <= y], false as soon as an operand is NaN. *)
Definition le (x y : number) : bool := SFleb x y.

(** [x == y] on Numbers: false on NaN, true on the two zeros. *)
Definition eqb (x y : number) : bool := SFeqb x y.

Definition is_nan (x : number) : bool :=
  match x with S754_nan => true | _ => false end.

Definition is_finite (x : number) : bool :=
  match x with S754_zero _ | S754_finite _ _ _ => true | _ => false end.

(** A [spec_float] is a Number when its mantissa is in canonical form. *)
Definition is_number (x : number) : Prop := valid_binary prec emax x = true.

(** The mathematical value of a finite Number, an exact rational. *)
Definition R (x : number) : Q :=
  match x with
  | S754_finite s m e =>
      (if s then - inject_Z (Zpos m) else inject_Z (Zpos m)) * (2 ^ e)
  | _ => 0
  end%Q.

End Number.
Import Number.

(** ** Strings of digits *)

Definition digit (d : Z) : ascii := ascii_of_nat (48 + Z.to_nat d)%nat.

Fixpoint digits_fuel (fuel : nat) (n : Z) : string :=
  match fuel with
  | O => ""
  | S fuel' =>
      if n <? 10 then String (digit n) ""
      else digits_fuel fuel' (n / 10) ++ String (digit (n mod 10)) ""
  end.

(** The decimal representation of a non-negative integer, ["0"] for 0. *)
Definition decimal (n : Z) : string := digits_fuel (S (Z.to_nat (Z.log2 n))) n.

Fixpoint zeros (k : nat) : string :=
  match k with
  | O => ""
  | S k' => String "0" (zeros k')
  end.

(** ** Number::toString, on the Numbers that [toFixed] hands to it

    [toFixed] calls it for NaN, for the infinities and for values of
    magnitude at least 10^21, which are printed in exponent notation with
    the fewest digits that read back as the same Number. *)

Module ToString.

(** [try_digits x v d k]: the [k]-digit candidates for the integer value
    [v] of [x], where [v] has [d] decimal digits.  The result is
    [Some (s, n)] when [s * 10^(n - k)] reads back as [x]; of two such
    candidates the closer to [v], and the even one on a tie. *)
Definition try_digits (x : number) (v d : Z) (k : Z) : option (Z * Z) :=
  let p := 10 ^ (d - k) in
  let lo := v / p in
  let hi := lo + 1 in
  let ok_lo := SFeqb (of_Z (lo * p)) x in
  let ok_hi := SFeqb (of_Z (hi * p)) x in
  let norm s := if s =? 10 ^ k then (1, d + 1) else (s, d) in
  match ok_lo, ok_hi with
  | true, false => Some (norm lo)
  | false, true => Some (norm hi)
  | true, true =>
      match (v - lo * p) ?= (hi * p - v) with
      | Lt => Some (norm lo)
      | Gt => Some (norm hi)
      | Eq => Some (norm (if Z.even lo then lo else hi))
      end
  | false, false => None
  end.

Fixpoint shortest (x : number) (v d : Z) (k : Z) (fuel : nat) : Z * Z :=
  match fuel with
  | O => (v, d)
  | S fuel' =>
      match try_digits x v d k with
      | Some sn => sn
      | None => shortest x v d (k + 1) fuel'
      end
  end.

(** Exponent notation of a positive Number of magnitude at least 10^21. *)
Definition exponential (x : number) : string :=
  let v := Qfloor (R x) in
  let d := Z.of_nat (String.length (decimal v)) in
  let '(s, n) := shortest x v d 1 17 in
  let ds := decimal s in
  match ds with
  | String c "" => String c "" ++ "e+" ++ decimal (n - 1)
  | String c rest => String c "" ++ "." ++ rest ++ "e+" ++ decimal (n - 1)
  | "" => ""
  end.

Definition Number_toString (x : number) : string :=
  match x with
  | S754_nan => "NaN"
  | S754_infinity false => "Infinity"
  | S754_infinity true => "-Infinity"
  | S754_zero _ => "0"
  | S754_finite true _ _ => "-" ++ exponential (abs x)
  | S754_finite false _ _ => exponential x
  end.

End ToString.
Import ToString.

(** ** Number.prototype.toFixed

    [x.toFixed(f)] for [0 <= f <= 100]: the decimal numeral with [f]
    fractional digits of the integer [n] for which [n / 10^f] is nearest to
    the value of [x], the larger [n] when two are equally near.  Values of
    magnitude 10^21 and more, the infinities and NaN are printed by
    [Number_toString]. *)

Definition nearest_scaled (r : Q) (f : nat) : Z :=
  Qfloor (r * inject_Z (10 ^ Z.of_nat f) + (1 # 2)).

Definition toFixed (x : number) (f : nat) : string :=
  if negb (is_finite x) then Number_toString x
  else
    let r := R x in
    let s := if Qle_bool 0 r then "" else "-" in
    let r := Qabs r in
    let m :=
      if Qle_bool (inject_Z (10 ^ 21)) r then Number_toString (abs x)
      else
        let n := nearest_scaled r f in
        let m := decimal n in
        match f with
        | O => m
        | _ =>
            let k := String.length m in
            let m := if (k <=? f)%nat then zeros (f + 1 - k) ++ m else m in
            let k := String.length m in
            substring 0 (k - f) m ++ "." ++ substring (k - f) f m
        end
    in
    s ++ m.

(** ** ToNumber on strings

    A string compared with a Number is first converted by StringToNumber.
    The conversion is modelled on decimal literals, the only strings the
    component ever produces: an optional sign, then [Infinity] or digits
    with an optional fraction and an optional exponent.  The empty string
    is [+0]; anything else is NaN.  (White space and the hexadecimal,
    octal and binary forms are left out.) *)

Module StringToNumber.

Definition digit_value (c : ascii) : option Z :=
  let n := Z.of_nat (nat_of_ascii c) in
  if (48 <=? n) && (n <=? 57) then Some (n - 48) else None.

(** Reads the longest run of digits at the front of [s], continuing the
    number [acc]: the number read, how many digits, and the rest. *)
Fixpoint take_digits (s : string) (acc : Z) (count : Z) : Z * Z * string :=
  match s with
  | String c rest =>
      match digit_value c with
      | Some d => take_digits rest (10 * acc + d) (count + 1)
      | None => (acc, count, s)
      end
  | EmptyString => (acc, count, s)
  end.

Definition take_sign (s : string) : bool * string :=
  match s with
  | String "-" rest => (true, rest)
  | String "+" rest => (false, rest)
  | _ => (false, s)
  end.

(** The exponent part, if any: its value and the rest; [None] when an
    exponent marker is not followed by digits. *)
Definition take_exponent (s : string) : option (Z * string) :=
  match s with
  | String c rest =>
      if (Ascii.eqb c "e" || Ascii.eqb c "E")%bool then
        let '(neg, rest) := take_sign rest in
        let '(e, count, rest) := take_digits rest 0 0 in
        if count =? 0 then None else Some (if neg then - e else e, rest)
      else Some (0, s)
  | EmptyString => Some (0, s)
  end.

(** The Number nearest to [d * 10^e], with the sign [neg]. *)
Definition scaled (neg : bool) (d e : Z) : number :=
  match d with
  | Zpos p =>
      let z := if neg then Zneg p else Zpos p in
      if 0 <=? e then of_Z (z * 10 ^ e) else of_ratio z (Z.to_pos (10 ^ (- e)))
  | _ => S754_zero neg
  end.

Definition ToNumber (s : string) : number :=
  match s with
  | EmptyString => pZero
  | _ =>
      let '(neg, s1) := take_sign s in
      if String.eqb s1 "Infinity" then S754_infinity neg
      else
        let '(ip, ni, s2) := take_digits s1 0 0 in
        let '(d, nf, s3) :=
          match s2 with
          | String "." rest => take_digits rest ip 0
          | _ => (ip, 0, s2)
          end in
        if ni + nf =? 0 then NaN
        else
          match take_exponent s3 with
          | Some (e, EmptyString) => scaled neg d (e - nf)
          | _ => NaN
          end
  end.

End StringToNumber.
Import StringToNumber.

(** ** Math.min, Math.max, Math.abs

    [Math.min(...values)] starts from [+Infinity], returns NaN as soon as
    an argument is NaN, prefers [-0] to [+0], and otherwise keeps the
    smallest argument seen so far; [Math.max] is its mirror image. *)

Definition is_nzero (x : number) : bool :=
  match x with S754_zero true => true | _ => false end.

Definition is_pzero (x : number) : bool :=
  match x with S754_zero false => true | _ => false end.

Fixpoint min_loop (lowest : number) (values : list number) : number :=
  match values with
  | [] => lowest
  | x :: rest =>
      if is_nan x then NaN
      else
        let lowest := if is_nzero x && is_pzero lowest then nZero else lowest in
        let lowest := if lt x lowest then x else lowest in
        min_loop lowest rest
  end.

Fixpoint max_loop (highest : number) (values : list number) : number :=
  match values with
  | [] => highest
  | x :: rest =>
      if is_nan x then NaN
      else
        let highest := if is_pzero x && is_nzero highest then pZero else highest in
        let highest := if gt x highest then x else highest in
        max_loop highest rest
  end.

Definition Math_min (values : list number) : number := min_loop pInfinity values.
Definition Math_max (values : list number) : number := max_loop nInfinity values.
Definition Math_abs (x : number) : number := abs x.

(** ** Samples, exceptions and array access *)

Record Sample := mkSample {
  time : string;
  localTemp : number;
  batteryTemp : number
}.

(** The property names with which the component reads a sample. *)
Inductive Key := LocalTemp | BatteryTemp.

Inductive error := TypeError.

Inductive completion (A : Type) : Type :=
| Normal (a : A)
| Throw (e : error).
Arguments Normal {A} a.
Arguments Throw {A} e.

(** [data[i]]: the element at index [i], [None] (undefined) outside the
    array, in particular at the index [-1] of the empty array. *)
Definition index {A : Type} (data : list A) (i : Z) : option A :=
  if i <? 0 then None else nth_error data (Z.to_nat i).

(** [item[key]] on a sample. *)
Definition get (item : Sample) (key : Key) : number :=
  match key with
  | LocalTemp => localTemp item
  | BatteryTemp => batteryTemp item
  end.

(** [o[key]] where [o] may be undefined: reading a property of undefined
    throws a TypeError. *)
Definition get_prop (o : option Sample) (key : Key) : completion number :=
  match o with
  | Some item => Normal (get item key)
  | None => Throw TypeError
  end.

Definition length_Z {A : Type} (data : list A) : Z := Z.of_nat (List.length data).

(** ** The pure helpers of [App] *)

(** [((localTemp * 2 + batteryTemp) / 3).toFixed(1)] *)
Definition calculateAmbientTemp (localTemp batteryTemp : number) : string :=
  toFixed (div (add (mul localTemp (of_Z 2)) batteryTemp) (of_Z 3)) 1.

Record Stats := mkStats {
  min : number;
  max : number;
  avg : string
}.

Definition sum (values : list number) : number :=
  fold_left (fun a b => add a b) values (of_Z 0).

Definition calculateStats (data : list Sample) (key : Key) : Stats :=
  let values := map (fun item => get item key) data in
  {| min := Math_min values;
     max := Math_max values;
     avg := toFixed (div (sum values) (of_Z (length_Z values))) 1 |}.

Record Trend := mkTrend {
  direction : string;
  change : string
}.

Definition bind_completion {A B : Type} (c : completion A) (k : A -> completion B)
  : completion B :=
  match c with
  | Normal a => k a
  | Throw e => Throw e
  end.

Definition getTrend (data : list Sample) (key : Key) : completion Trend :=
  bind_completion (get_prop (index data (length_Z data - 1)) key) (fun last =>
  bind_completion (get_prop (index data (length_Z data - 2)) key) (fun prev =>
  Normal {| direction := if gt last prev then "up" else "down";
            change := toFixed (Math_abs (sub last prev)) 1 |})).

(** ** The alert effect

    The callback of [useEffect] reads the clock through [Date.now()], once
    for each alert it pushes.  A world is the sequence of readings the
    clock will give and the number of readings taken so far; an effectful
    computation maps a world to a completion and the world it leaves. *)

Record World := mkWorld {
  readings : nat -> Z;
  taken : nat
}.

Definition Eff (A : Type) : Type := World -> completion (A * World).

Definition ret {A : Type} (a : A) : Eff A := fun w => Normal (a, w).

Definition bind {A B : Type} (c : Eff A) (k : A -> Eff B) : Eff B :=
  fun w =>
    match c w with
    | Normal (a, w') => k a w'
    | Throw e => Throw e
    end.

Definition lift {A : Type} (c : completion A) : Eff A :=
  fun w =>
    match c with
    | Normal a => Normal (a, w)
    | Throw e => Throw e
    end.

Notation "x <- c ;; k" := (bind c (fun x => k))
  (at level 61, c at next level, right associativity).

(** [Date.now()]: the next reading of the clock, as a Number. *)
Definition Date_now : Eff number :=
  fun w => Normal (of_Z (readings w (taken w)),
                   {| readings := readings w; taken := S (taken w) |}).

Record Alert := mkAlert {
  id : number;
  message : string
}.

Definition battery_message : string := "Battery temperature exceeding normal range".
Definition differential_message : string := "Large temperature differential detected".

(** The callback passed to [useEffect]; its result is the array it hands
    to [setAlerts]. *)
Definition useEffect_alerts (temperatureData : list Sample) : Eff (list Alert) :=
  let latestData := index temperatureData (length_Z temperatureData - 1) in
  let newAlerts : list Alert := [] in
  b <- lift (get_prop latestData BatteryTemp) ;;
  newAlerts <-
    (if gt b (of_Z 30) then
       now <- Date_now ;;
       ret (newAlerts ++ [ {| id := now; message := battery_message |} ])%list
     else ret newAlerts) ;;
  b <- lift (get_prop latestData BatteryTemp) ;;
  l <- lift (get_prop latestData LocalTemp) ;;
  newAlerts <-
    (if gt (Math_abs (sub b l)) (of_Z 10) then
       now <- Date_now ;;
       ret (newAlerts ++ [ {| id := add now (of_Z 1);
                              message := differential_message |} ])%list
     else ret newAlerts) ;;
  ret newAlerts.

(** The two conditions the callback tests on the latest sample. *)
Definition battery_high (x : Sample) : bool := gt (batteryTemp x) (of_Z 30).

Definition differential_large (x : Sample) : bool :=
  gt (Math_abs (sub (batteryTemp x) (localTemp x))) (of_Z 10).

(** The data the component starts from. *)
Definition sample (t : string) (l b : Z) : Sample :=
  {| time := t; localTemp := of_Z l; batteryTemp := of_Z b |}.

Definition initialData : list Sample :=
  [ sample "00:00" 22 25; sample "03:00" 21 24; sample "06:00" 20 23;
    sample "09:00" 23 28; sample "12:00" 26 32; sample "15:00" 28 35;
    sample "18:00" 25 30; sample "21:00" 23 27 ].

(** ** Notions used to state the properties *)

(** The rank of a Number that is not NaN: [lt] compares ranks
    lexicographically, and the two zeros share a rank. *)
Definition rank (x : number) : Z * Z * Z :=
  match x with
  | S754_infinity true => (-2, 0, 0)
  | S754_finite true m e => (-1, - e, - Zpos m)
  | S754_zero _ => (0, 0, 0)
  | S754_finite false m e => (1, e, Zpos m)
  | S754_infinity false => (2, 0, 0)
  | S754_nan => (3, 0, 0)
  end.

Definition rank_lt (a b : Z * Z * Z) : Prop :=
  let '(a1, a2, a3) := a in
  let '(b1, b2, b3) := b in
  a1 < b1 \/ (a1 = b1 /\ (a2 < b2 \/ (a2 = b2 /\ a3 < b3))).

Definition is_zero (x : number) : bool :=
  match x with S754_zero _ => true | _ => false end.

(** One round of the loop of [Math.min]. *)
Definition min_step (lowest x : number) : number :=
  let lowest := if is_nzero x && is_pzero lowest then nZero else lowest in
  if lt x lowest then x else lowest.

Definition no_nan (values : list number) : Prop :=
  Forall (fun v => is_nan v = false) values.

(** [r] is the least of [values], and is [-0] rather than [+0] when
    [-0] occurs among them. *)
Definition least (r : number) (values : list number) : Prop :=
  In r values /\
  (forall v, In v values -> lt v r = false) /\
  (is_pzero r = true -> forall v, In v values -> is_nzero v = false).

Definition opp (x : number) : number := SFopp x.

(** The numeral with one fractional digit of the integer [n] of tenths. *)
Definition tenths (n : Z) : string :=
  decimal (n / 10) ++ "." ++ String (digit (n mod 10)) "".

(** The sign that [toFixed] prints. *)
Definition sign_of (x : number) : string := if Qle_bool 0 (R x) then "" else "-".

Definition exact_record (m : Z) : shr_record :=
  {| shr_m := m; shr_r := false; shr_s := false |}.

(** A record of [shr] is inexact when a non-zero bit has been shifted out. *)
Definition inexact (mrs : shr_record) : bool := shr_r mrs || shr_s mrs.

(** The Number of a non-zero integer of magnitude below 2^53: its 53-bit
    mantissa and its exponent. *)
Definition int_float (s : bool) (n : positive) : number :=
  S754_finite s (Pos.shiftl n (Z.to_N (53 - Zpos (digits2_pos n))))
                (Zpos (digits2_pos n) - 53).

Definition of_int (z : Z) : number :=
  match z with
  | Z0 => pZero
  | Zpos n => int_float false n
  | Zneg n => int_float true n
  end.

Definition signed (s : bool) (n : positive) : Z := cond_Zopp s (Zpos n).

Definition total_magnitude (zs : list Z) : Z :=
  fold_right (fun z acc => Z.abs z + acc) 0 zs.



(** The values of a series under a key, and a decimal literal with one
    fractional digit, such as [32.8]. *)
Definition values_of (data : list Sample) (key : Key) : list number :=
  map (fun item => get item key) data.

Definition tenth_literal (n : Z) : number := of_ratio n 10.

(** The mean that [calculateStats] prints: the sum divided by the number
    of values. *)
Definition mean (values : list number) : number :=
  div (sum values) (of_Z (length_Z values)).

(** ** What the component renders

    The JSX that [StatCard], the tooltip callback and [App] return is
    modelled by the values of the expressions it holds in braces, in the
    order of the source; fixed markup and fixed text are left out, and so
    is the date in the header, which comes from a library. *)

Notation "x <~ c ;; k" := (bind_completion c (fun x => k))
  (at level 61, c at next level, right associativity).

Inductive Icon := Thermometer | Battery | Wind | ArrowUp | ArrowDown.

Module StatCard.

(** The props; [trend] is undefined when the caller does not pass it. *)
Record Props := mkProps {
  title : string;
  value : string;
  icon : Icon;
  trend : option Trend;
  color : string
}.

Record TrendView := mkTrendView {
  trendClass : string;
  arrow : Icon;
  trendChange : string
}.

Record View := mkView {
  heading : string;
  valueClass : string;
  valueText : string;
  trendView : option TrendView;
  iconShown : Icon;
  iconClass : string
}.

Definition render (p : Props) : View :=
  {| heading := title p;
     valueClass := "text-2xl font-bold " ++ color p;
     valueText := value p;
     trendView :=
       match trend p with
       | Some t =>
           Some {| trendClass :=
                     "flex items-center text-sm " ++
                     (if String.eqb (direction t) "up"
                      then "text-red-500" else "text-green-500");
                   arrow :=
                     if String.eqb (direction t) "up" then ArrowUp else ArrowDown;
                   trendChange := change t |}
       | None => None
       end;
     iconShown := icon p;
     iconClass := color p ++ " opacity-80" |}.

End StatCard.

Module Tooltip.

(** An entry of the payload the chart passes: one per line drawn. *)
Record Entry := mkEntry {
  value : number
}.

(** The props; [payload] is [None] when it is undefined or null. *)
Record Props := mkProps {
  active : bool;
  payload : option (list Entry);
  label : string
}.

Record View := mkView {
  labelShown : string;
  localShown : number;
  batteryShown : number;
  ambientShown : string
}.

(** [o.value] where [o] may be undefined. *)
Definition get_value (o : option Entry) : completion number :=
  match o with
  | Some e => Normal (value e)
  | None => Throw TypeError
  end.

(** The callback passed as [content]; [None] is the [null] it returns
    when there is nothing to show. *)
Definition content (p : Props) : completion (option View) :=
  match active p, payload p with
  | true, Some entries =>
      if negb (length_Z entries =? 0) then
        localTemp <~ get_value (index entries 0) ;;
        batteryTemp <~ get_value (index entries 1) ;;
        let ambientTemp := calculateAmbientTemp localTemp batteryTemp in
        Normal (Some {| labelShown := label p;
                        localShown := localTemp;
                        batteryShown := batteryTemp;
                        ambientShown := ambientTemp |})
      else Normal None
  | _, _ => Normal None
  end.

End Tooltip.

(** The state of [App]. *)
Record AppState := mkAppState {
  temperatureData : list Sample;
  timeRange : string;
  alerts : list Alert
}.

Definition initialState : AppState :=
  {| temperatureData := initialData; timeRange := "24h"; alerts := [] |}.



(** The effect as a step of the state: it hands its array to [setAlerts]. *)
Definition runEffect (st : AppState) : Eff AppState :=
  newAlerts <- useEffect_alerts (temperatureData st) ;;
  ret {| temperatureData := temperatureData st;
         timeRange := timeRange st;
         alerts := newAlerts |}.

(** [temperatureData[temperatureData.length - 1][key]] *)
Definition latest (data : list Sample) (key : Key) : completion number :=
  get_prop (index data (length_Z data - 1)) key.

Record StatusView := mkStatusView {
  batteryStatusClass : string;
  batteryStatusText : string;
  differentialClass : string;
  differentialText : string
}.

(** The System Status card. *)
Definition systemStatus (data : list Sample) : completion StatusView :=
  b1 <~ latest data BatteryTemp ;;
  b2 <~ latest data BatteryTemp ;;
  b3 <~ latest data BatteryTemp ;;
  l3 <~ latest data LocalTemp ;;
  b4 <~ latest data BatteryTemp ;;
  l4 <~ latest data LocalTemp ;;
  Normal {| batteryStatusClass :=
              "px-2 py-1 rounded-full text-xs " ++
              (if gt b1 (of_Z 30)
               then "bg-red-100 text-red-800" else "bg-green-100 text-green-800");
            batteryStatusText := if gt b2 (of_Z 30) then "Warning" else "Normal";
            differentialClass :=
              "px-2 py-1 rounded-full text-xs " ++
              (if gt (Math_abs (sub b3 l3)) (of_Z 10)
               then "bg-yellow-100 text-yellow-800" else "bg-green-100 text-green-800");
            differentialText := toFixed (Math_abs (sub b4 l4)) 1 |}.

Record AlertView := mkAlertView {
  key : number;
  text : string
}.

Record AppView := mkAppView {
  button24hClass : string;
  button7dClass : string;
  alertsShown : option (list AlertView);
  chartData : list Sample;
  localCard : StatCard.View;
  batteryCard : StatCard.View;
  ambientCard : StatCard.View;
  localStats : Stats;
  batteryStats : Stats;
  status : StatusView
}.

(** What [App] returns; [alertsShown] is [None] when [alerts.length > 0]
    is false and nothing is rendered in that place. *)
Definition App (st : AppState) : completion AppView :=
  let temperatureData := temperatureData st in
  let button24h :=
    "px-3 py-1 rounded-md " ++
    (if String.eqb (timeRange st) "24h" then "bg-blue-500 text-white" else "bg-gray-100") in
  let button7d :=
    "px-3 py-1 rounded-md " ++
    (if String.eqb (timeRange st) "7d" then "bg-blue-500 text-white" else "bg-gray-100") in
  let shown :=
    if length_Z (alerts st) >? 0
    then Some (map (fun alert => {| key := id alert; text := message alert |}) (alerts st))
    else None in
  let localValue := avg (calculateStats temperatureData LocalTemp) in
  localTrend <~ getTrend temperatureData LocalTemp ;;
  let batteryValue := avg (calculateStats temperatureData BatteryTemp) in
  batteryTrend <~ getTrend temperatureData BatteryTemp ;;
  l <~ latest temperatureData LocalTemp ;;
  b <~ latest temperatureData BatteryTemp ;;
  let ambientValue := calculateAmbientTemp l b in
  let localStats :=
    {| min := min (calculateStats temperatureData LocalTemp);
       max := max (calculateStats temperatureData LocalTemp);
       avg := avg (calculateStats temperatureData LocalTemp) |} in
  let batteryStats :=
    {| min := min (calculateStats temperatureData BatteryTemp);
       max := max (calculateStats temperatureData BatteryTemp);
       avg := avg (calculateStats temperatureData BatteryTemp) |} in
  status <~ systemStatus temperatureData ;;
  Normal {| button24hClass := button24h;
            button7dClass := button7d;
            alertsShown := shown;
            chartData := temperatureData;
            localCard :=
              StatCard.render
                {| StatCard.title := "Local Temperature";
                   StatCard.value := localValue;
                   StatCard.icon := Thermometer;
                   StatCard.trend := Some localTrend;
                   StatCard.color := "text-blue-500" |};
            batteryCard :=
              StatCard.render
                {| StatCard.title := "Battery Temperature";
                   StatCard.value := batteryValue;
                   StatCard.icon := Battery;
                   StatCard.trend := Some batteryTrend;
                   StatCard.color := "text-red-500" |};
            ambientCard :=
              StatCard.render
                {| StatCard.title := "Ambient Temperature";
                   StatCard.value := ambientValue;
                   StatCard.icon := Wind;
                   StatCard.trend := None;
                   StatCard.color := "text-emerald-500" |};
            localStats := localStats;
            batteryStats := batteryStats;
            status := status |}.
(** * Properties *)

(** ** Array access at the end of a series *)

Lemma length_Z_app {A : Type} (s t : list A) :
  length_Z (s ++ t) = length_Z s + length_Z t.
Proof. unfold length_Z. rewrite length_app. lia. Qed.

Lemma length_Z_nonneg {A : Type} (s : list A) : 0 <= length_Z s.
Proof. unfold length_Z. lia. Qed.

Lemma index_app_right {A : Type} (s t : list A) (i : Z) :
  0 <= i -> index (s ++ t) (length_Z s + i) = index t i.
Proof.
  intros Hi. unfold index, length_Z.
  destruct (Z.ltb_spec (Z.of_nat (List.length s) + i) 0); [lia|].
  destruct (Z.ltb_spec i 0); [lia|].
  replace (Z.to_nat (Z.of_nat (List.length s) + i))
    with (List.length s + Z.to_nat i)%nat by lia.
  rewrite nth_error_app2 by lia.
  f_equal. lia.
Qed.

Lemma index_last {A : Type} (s : list A) (x : A) :
  index (s ++ [x]) (length_Z (s ++ [x]) - 1) = Some x.
Proof.
  rewrite length_Z_app.
  replace (length_Z s + length_Z [x] - 1) with (length_Z s + 0)
    by (unfold length_Z; simpl; lia).
  now rewrite index_app_right.
Qed.

Lemma index_last2 {A : Type} (s : list A) (p q : A) :
  index (s ++ [p; q]) (length_Z (s ++ [p; q]) - 1) = Some q /\
  index (s ++ [p; q]) (length_Z (s ++ [p; q]) - 2) = Some p.
Proof.
  rewrite length_Z_app.
  replace (length_Z s + length_Z [p; q] - 1) with (length_Z s + 1)
    by (unfold length_Z; simpl; lia).
  replace (length_Z s + length_Z [p; q] - 2) with (length_Z s + 0)
    by (unfold length_Z; simpl; lia).
  now rewrite !index_app_right.
Qed.

Lemma index_out_of_range {A : Type} (data : list A) (i : Z) :
  i < 0 \/ length_Z data <= i -> index data i = None.
Proof.
  unfold index, length_Z. intros [H | H].
  - destruct (Z.ltb_spec i 0); [reflexivity | lia].
  - destruct (Z.ltb_spec i 0); [reflexivity |].
    apply nth_error_None. lia.
Qed.

(** ** The alert effect *)

(** What the callback computes on a non-empty series, alert by alert. *)
Lemma useEffect_alerts_last (s : list Sample) (x : Sample) (w : World) :
  useEffect_alerts (s ++ [x]) w =
    let t0 := of_Z (readings w (taken w)) in
    let t1 := of_Z (readings w (S (taken w))) in
    match battery_high x, differential_large x with
    | true, true =>
        Normal ([ {| id := t0; message := battery_message |};
                  {| id := add t1 (of_Z 1); message := differential_message |} ],
                {| readings := readings w; taken := S (S (taken w)) |})
    | true, false =>
        Normal ([ {| id := t0; message := battery_message |} ],
                {| readings := readings w; taken := S (taken w) |})
    | false, true =>
        Normal ([ {| id := add t0 (of_Z 1); message := differential_message |} ],
                {| readings := readings w; taken := S (taken w) |})
    | false, false => Normal ([], w)
    end.
Proof.
  unfold useEffect_alerts, battery_high, differential_large.
  rewrite index_last. unfold bind, lift, ret, Date_now, get_prop, get.
  destruct (gt (batteryTemp x) (of_Z 30));
    destruct (gt (Math_abs (sub (batteryTemp x) (localTemp x))) (of_Z 10));
    reflexivity.
Qed.

Lemma battery_differential_differ : battery_message <> differential_message.
Proof. discriminate. Qed.

(** Splits the memberships of a message in a list of messages and closes
    the cases that confuse the two messages. *)
Ltac message_cases :=
  repeat match goal with
  | H : _ \/ _ |- _ => destruct H
  | H : False |- _ => destruct H
  | H : battery_message = differential_message |- _ =>
      exfalso; exact (battery_differential_differ H)
  | H : differential_message = battery_message |- _ =>
      exfalso; exact (battery_differential_differ (eq_sym H))
  end.

(** ** The order of Numbers *)

Lemma lt_rank (x y : number) :
  is_nan x = false -> is_nan y = false ->
  (lt x y = true <-> rank_lt (rank x) (rank y)).
Proof.
  intros Hx Hy. unfold lt, SFltb.
  destruct x as [sx | sx | | sx mx ex]; try discriminate;
  destruct y as [sy | sy | | sy my ey]; try discriminate;
  try (destruct sx); try (destruct sy); simpl;
  try (split; [discriminate | lia]);
  try (split; [lia | reflexivity]);
  try (split; [reflexivity | lia]).
  - destruct (Z.compare_spec ex ey); [subst | |];
      [ | split; [discriminate | lia] | split; [lia | reflexivity] ].
    change (Pos.compare_cont Eq mx my) with (Pos.compare mx my).
    destruct (Pos.compare_spec mx my); simpl;
      [ subst; split; [discriminate | lia]
      | split; [discriminate | lia]
      | split; [lia | reflexivity] ].
  - destruct (Z.compare_spec ex ey); [subst | |];
      [ | split; [lia | reflexivity] | split; [discriminate | lia] ].
    change (Pos.compare_cont Eq mx my) with (Pos.compare mx my).
    destruct (Pos.compare_spec mx my); simpl;
      [ subst; split; [discriminate | lia]
      | split; [lia | reflexivity]
      | split; [discriminate | lia] ].
Qed.

Lemma lt_false_rank (x y : number) :
  is_nan x = false -> is_nan y = false ->
  (lt x y = false <-> ~ rank_lt (rank x) (rank y)).
Proof.
  intros Hx Hy. rewrite <- (lt_rank x y Hx Hy).
  destruct (lt x y); split; intros; congruence.
Qed.

Lemma rank_zero (x : number) :
  is_nan x = false -> (rank x = (0, 0, 0) <-> is_zero x = true).
Proof.
  destruct x as [s | s | | s m e]; try discriminate; intros _; simpl.
  - tauto.
  - destruct s; split; discriminate.
  - destruct s; split; discriminate.
Qed.

Lemma rank_inj (x y : number) :
  is_nan x = false -> is_nan y = false -> rank x = rank y ->
  x = y \/ (is_zero x = true /\ is_zero y = true).
Proof.
  destruct x as [sx | sx | | sx mx ex]; try discriminate;
  destruct y as [sy | sy | | sy my ey]; try discriminate;
  intros _ _; try (destruct sx); try (destruct sy); simpl; intros H;
  try discriminate; try (left; reflexivity); try (right; split; reflexivity).
  - injection H as He Hm. left. f_equal; lia.
  - injection H as He Hm. left. f_equal; lia.
Qed.

Lemma min_loop_cons (lowest x : number) (rest : list number) :
  min_loop lowest (x :: rest) =
    if is_nan x then NaN else min_loop (min_step lowest x) rest.
Proof. reflexivity. Qed.

Lemma rank_lt_irrefl (a : Z * Z * Z) : ~ rank_lt a a.
Proof. destruct a as [[a1 a2] a3]. unfold rank_lt. lia. Qed.

Lemma rank_lt_trans (a b c : Z * Z * Z) : rank_lt a b -> rank_lt b c -> rank_lt a c.
Proof.
  destruct a as [[a1 a2] a3], b as [[b1 b2] b3], c as [[c1 c2] c3].
  unfold rank_lt. lia.
Qed.

Lemma rank_lt_asym (a b : Z * Z * Z) : rank_lt a b -> ~ rank_lt b a.
Proof.
  destruct a as [[a1 a2] a3], b as [[b1 b2] b3]. unfold rank_lt. lia.
Qed.

Lemma rank_ge_trans (a b c : Z * Z * Z) :
  ~ rank_lt a b -> ~ rank_lt b c -> ~ rank_lt a c.
Proof.
  destruct a as [[a1 a2] a3], b as [[b1 b2] b3], c as [[c1 c2] c3].
  unfold rank_lt. lia.
Qed.

Lemma rank_total (a b : Z * Z * Z) : ~ rank_lt a b -> ~ rank_lt b a -> a = b.
Proof.
  destruct a as [[a1 a2] a3], b as [[b1 b2] b3]. unfold rank_lt.
  intros. f_equal; [f_equal|]; lia.
Qed.

Lemma min_step_cases (lowest x : number) :
  min_step lowest x = lowest \/ min_step lowest x = x.
Proof.
  unfold min_step.
  destruct (is_nzero x && is_pzero lowest) eqn:E.
  - apply andb_prop in E as [Ex El].
    destruct x as [[|] | | |]; try discriminate.
    destruct (lt _ _); auto.
  - destruct (lt x lowest); auto.
Qed.

Lemma min_step_not_nan (lowest x : number) :
  is_nan lowest = false -> is_nan x = false -> is_nan (min_step lowest x) = false.
Proof.
  intros. destruct (min_step_cases lowest x) as [-> | ->]; assumption.
Qed.

Lemma min_step_rank (lowest x : number) :
  is_nan lowest = false -> is_nan x = false ->
  rank (min_step lowest x) = if lt x lowest then rank x else rank lowest.
Proof.
  intros Hl Hx. unfold min_step.
  destruct (is_nzero x && is_pzero lowest) eqn:E.
  - apply andb_prop in E as [Ex El].
    destruct x as [[|] | | |]; try discriminate.
    destruct lowest as [[|] | | |]; try discriminate. reflexivity.
  - destruct (lt x lowest); reflexivity.
Qed.

Lemma min_step_lower (lowest x : number) :
  is_nan lowest = false -> is_nan x = false ->
  lt lowest (min_step lowest x) = false /\ lt x (min_step lowest x) = false.
Proof.
  intros Hl Hx.
  pose proof (min_step_not_nan lowest x Hl Hx) as Hn.
  pose proof (min_step_rank lowest x Hl Hx) as Hr.
  rewrite !lt_false_rank by assumption. rewrite Hr.
  destruct (lt x lowest) eqn:E.
  - apply lt_rank in E; try assumption.
    split; [now apply rank_lt_asym | apply rank_lt_irrefl].
  - apply lt_false_rank in E; try assumption.
    split; [apply rank_lt_irrefl | assumption].
Qed.

Lemma min_step_nzero (lowest x : number) :
  is_nan lowest = false -> is_nan x = false ->
  is_nzero (min_step lowest x) = false ->
  ~ rank_lt (rank (min_step lowest x)) (0, 0, 0) ->
  is_nzero lowest = false /\ is_nzero x = false.
Proof.
  intros Hl Hx.
  destruct lowest as [[|] | [|] | | [|] ml el]; try discriminate;
  destruct x as [[|] | [|] | | [|] mx ex]; try discriminate;
  unfold min_step; simpl; intros H1 H2;
  try (split; reflexivity); try discriminate;
  try (exfalso; apply H2; unfold rank_lt; lia).
Qed.

Lemma is_pzero_rank (r : number) :
  is_pzero r = true -> is_nan r = false /\ is_nzero r = false /\ rank r = (0, 0, 0).
Proof. destruct r as [[|] | | |]; try discriminate. auto. Qed.

Lemma min_loop_least (values : list number) :
  forall lowest, is_nan lowest = false -> no_nan values ->
  least (min_loop lowest values) (lowest :: values) /\
  is_nan (min_loop lowest values) = false.
Proof.
  induction values as [| x rest IH]; intros lowest Hl Hv.
  - simpl. split; [|assumption]. repeat split.
    + now left.
    + intros v [<- | []]. apply lt_false_rank; auto. apply rank_lt_irrefl.
    + intros Hp v [<- | []]. now apply is_pzero_rank in Hp.
  - inversion Hv as [| ? ? Hx Hrest]; subst.
    rewrite min_loop_cons, Hx.
    pose proof (min_step_not_nan lowest x Hl Hx) as Hs.
    destruct (IH (min_step lowest x) Hs Hrest) as [(Hin & Hlow & Hz) Hn].
    set (r := min_loop (min_step lowest x) rest) in *.
    destruct (min_step_lower lowest x Hl Hx) as [Hl1 Hl2].
    assert (Hsr : lt (min_step lowest x) r = false) by (apply Hlow; now left).
    split; [|assumption]. repeat split.
    + destruct Hin as [Hin | Hin].
      * rewrite <- Hin. destruct (min_step_cases lowest x) as [-> | ->];
          [now left | right; now left].
      * right; now right.
    + intros v [<- | [<- | Hv']].
      * apply lt_false_rank; auto.
        apply lt_false_rank in Hl1, Hsr; auto.
        eapply rank_ge_trans; eassumption.
      * apply lt_false_rank; auto.
        apply lt_false_rank in Hl2, Hsr; auto.
        eapply rank_ge_trans; eassumption.
      * apply Hlow. now right.
    + intros Hp.
      assert (Hsz : is_nzero (min_step lowest x) = false) by (apply Hz; [assumption | now left]).
      destruct (is_pzero_rank r Hp) as (_ & _ & Hr0).
      apply lt_false_rank in Hsr; auto. rewrite Hr0 in Hsr.
      destruct (min_step_nzero lowest x Hl Hx Hsz Hsr) as [Hz1 Hz2].
      intros v [<- | [<- | Hv']]; auto.
      apply Hz; [assumption | now right].
Qed.

Lemma least_unique (r r' : number) (values values' : list number) :
  no_nan values -> Permutation values values' ->
  least r values -> least r' values' -> r = r'.
Proof.
  intros Hv Hp (Hin & Hlow & Hz) (Hin' & Hlow' & Hz').
  assert (Hin2 : In r' values) by (eapply Permutation_in; [symmetry|]; eassumption).
  assert (Hin3 : In r values') by (eapply Permutation_in; eassumption).
  pose proof (proj1 (Forall_forall _ _) Hv) as Hnan.
  assert (Hr : is_nan r = false) by auto.
  assert (Hr' : is_nan r' = false) by auto.
  pose proof (Hlow r' Hin2) as H1. pose proof (Hlow' r Hin3) as H2.
  apply lt_false_rank in H1, H2; auto.
  destruct (rank_inj r r' Hr Hr' (rank_total _ _ H2 H1)) as [E | [Z1 Z2]]; [assumption|].
  destruct r as [[|] | | |]; try discriminate;
  destruct r' as [[|] | | |]; try discriminate; try reflexivity.
  - specialize (Hz' eq_refl _ Hin3). discriminate.
  - specialize (Hz eq_refl _ Hin2). discriminate.
Qed.

Lemma min_loop_nan (values : list number) :
  forall lowest, Exists (fun v => is_nan v = true) values ->
  min_loop lowest values = NaN.
Proof.
  induction values as [| x rest IH]; intros lowest H.
  - inversion H.
  - rewrite min_loop_cons. destruct (is_nan x) eqn:E; [reflexivity|].
    apply IH. inversion H; subst; [congruence | assumption].
Qed.

Lemma no_nan_dec (values : list number) :
  no_nan values \/ Exists (fun v => is_nan v = true) values.
Proof.
  induction values as [| x rest [IH | IH]].
  - left; constructor.
  - destruct (is_nan x) eqn:E.
    + right. now constructor.
    + left. now constructor.
  - right. now constructor 2.
Qed.

Lemma min_loop_Permutation (lowest : number) (values values' : list number) :
  is_nan lowest = false -> Permutation values values' ->
  min_loop lowest values = min_loop lowest values'.
Proof.
  intros Hl Hp. destruct (no_nan_dec values) as [Hv | Hv].
  - assert (Hv' : no_nan values')
      by (eapply Permutation_Forall; eassumption).
    eapply (least_unique _ _ (lowest :: values) (lowest :: values')).
    + now constructor.
    + now constructor.
    + now apply min_loop_least.
    + now apply min_loop_least.
  - rewrite (min_loop_nan values) by assumption.
    rewrite (min_loop_nan values'); [reflexivity|].
    apply Exists_exists in Hv as (v & Hin & Hv). apply Exists_exists.
    exists v. split; [eapply Permutation_in; eassumption | assumption].
Qed.

Lemma opp_involutive (x : number) : opp (opp x) = x.
Proof. destruct x as [[|] | [|] | | [|] m e]; reflexivity. Qed.

Lemma lt_opp (x y : number) : lt (opp x) (opp y) = lt y x.
Proof.
  unfold lt, SFltb.
  destruct x as [[|] | [|] | | [|] mx ex];
  destruct y as [[|] | [|] | | [|] my ey]; simpl; try reflexivity.
  - rewrite (Z.compare_antisym ex ey).
    change (Pos.compare_cont Eq mx my) with (Pos.compare mx my).
    change (Pos.compare_cont Eq my mx) with (Pos.compare my mx).
    rewrite (Pos.compare_antisym mx my).
    destruct (ex ?= ey); simpl; try reflexivity;
      destruct (mx ?= my)%positive; reflexivity.
  - rewrite (Z.compare_antisym ex ey).
    change (Pos.compare_cont Eq mx my) with (Pos.compare mx my).
    change (Pos.compare_cont Eq my mx) with (Pos.compare my mx).
    rewrite (Pos.compare_antisym mx my).
    destruct (ex ?= ey); simpl; try reflexivity;
      destruct (mx ?= my)%positive; reflexivity.
Qed.

Lemma is_nan_opp (x : number) : is_nan (opp x) = is_nan x.
Proof. destruct x as [[|] | [|] | | [|] m e]; reflexivity. Qed.

Lemma is_nzero_opp (x : number) : is_nzero (opp x) = is_pzero x.
Proof. destruct x as [[|] | [|] | | [|] m e]; reflexivity. Qed.

Lemma is_pzero_opp (x : number) : is_pzero (opp x) = is_nzero x.
Proof. destruct x as [[|] | [|] | | [|] m e]; reflexivity. Qed.

Lemma max_loop_min_loop (values : list number) :
  forall highest,
  max_loop highest values = opp (min_loop (opp highest) (map opp values)).
Proof.
  induction values as [| x rest IH]; intros highest.
  - simpl. now rewrite opp_involutive.
  - cbn [max_loop map]. rewrite min_loop_cons, is_nan_opp.
    destruct (is_nan x); [reflexivity|].
    rewrite IH. f_equal. f_equal. unfold min_step.
    rewrite is_nzero_opp, is_pzero_opp.
    destruct (is_pzero x && is_nzero highest).
    + change nZero with (opp pZero). rewrite lt_opp. unfold gt, lt.
      destruct (SFltb pZero x); reflexivity.
    + rewrite lt_opp. unfold gt, lt. destruct (SFltb highest x); reflexivity.
Qed.

(** ** Exact operations on binary64 *)

Lemma fexp_eq (z : Z) : fexp prec emax z = Z.max (z - 53) (-1074).
Proof. reflexivity. Qed.

Lemma digits2_pos_size (p : positive) : digits2_pos p = Pos.size p.
Proof. induction p; simpl; congruence. Qed.

Lemma digits2_pos_shiftl (p : positive) (k : N) :
  Zpos (digits2_pos (Pos.shiftl p k)) = Zpos (digits2_pos p) + Z.of_N k.
Proof.
  destruct k as [| k]; [simpl; lia|].
  unfold Pos.shiftl. induction k using Pos.peano_ind.
  - simpl. lia.
  - rewrite (Pos.iter_succ k _ xO). cbn [digits2_pos].
    rewrite !Pos2Z.inj_succ, IHk. lia.
Qed.

Lemma iter_pos_iter {A : Type} (f : A -> A) (p : positive) :
  forall x, iter_pos f p x = Pos.iter f x p.
Proof.
  induction p as [p IH | p IH |]; intros x; simpl.
  - rewrite !IH. now rewrite <- !Pos.iter_swap.
  - now rewrite !IH.
  - reflexivity.
Qed.

Lemma shr_1_double (p : positive) :
  shr_1 (exact_record (Zpos p~0)) = exact_record (Zpos p).
Proof. reflexivity. Qed.

Lemma shr_shiftl (k : positive) :
  forall p, Pos.iter shr_1 (exact_record (Zpos (Pos.iter xO p k))) k
            = exact_record (Zpos p).
Proof.
  induction k using Pos.peano_ind; intros p.
  - reflexivity.
  - rewrite (Pos.iter_succ k _ shr_1), <- Pos.iter_swap.
    rewrite (Pos.iter_succ k _ xO), shr_1_double. apply IHk.
Qed.

Lemma shr_fexp_canonical (m : positive) (e : Z) (k : N) :
  canonical_mantissa prec emax m e = true ->
  shr_fexp prec emax (Zpos (Pos.shiftl m k)) (e - Z.of_N k) loc_Exact
  = (exact_record (Zpos m), e).
Proof.
  unfold canonical_mantissa. intros H. apply Z.eqb_eq in H.
  unfold shr_fexp. cbn [Zdigits2 shr_record_of_loc].
  rewrite digits2_pos_shiftl.
  replace (Z.pos (digits2_pos m) + Z.of_N k + (e - Z.of_N k))
    with (Z.pos (digits2_pos m) + e) by lia.
  rewrite H.
  replace (e - (e - Z.of_N k)) with (Z.of_N k) by lia.
  destruct k as [| k]; cbn [shr Z.of_N Pos.shiftl].
  - f_equal. lia.
  - rewrite iter_pos_iter. fold (exact_record (Zpos (Pos.iter xO m k))).
    rewrite shr_shiftl. f_equal. lia.
Qed.

(** A mantissa that is a canonical one shifted left rounds to it exactly. *)
Lemma binary_round_aux_exact (s : bool) (m : positive) (e : Z) (k : N) :
  bounded prec emax m e = true ->
  binary_round_aux prec emax s (Zpos (Pos.shiftl m k)) (e - Z.of_N k) loc_Exact
  = S754_finite s m e.
Proof.
  unfold bounded. intros H. apply andb_prop in H as [Hc Hb].
  unfold binary_round_aux.
  rewrite (shr_fexp_canonical m e k Hc).
  cbn [exact_record shr_m loc_of_shr_record round_nearest_even].
  pose proof (shr_fexp_canonical m e 0 Hc) as H0.
  cbn [Pos.shiftl Z.of_N] in H0. rewrite Z.sub_0_r in H0. rewrite H0.
  cbn [exact_record shr_m]. now rewrite Hb.
Qed.

Lemma Zpos_shiftl (p : positive) (k : N) :
  Zpos (Pos.shiftl p k) = Zpos p * 2 ^ Z.of_N k.
Proof.
  destruct k as [| k]; [simpl; lia|].
  unfold Pos.shiftl. cbn [Z.of_N].
  induction k using Pos.peano_ind.
  - simpl. lia.
  - rewrite (Pos.iter_succ k _ xO), Pos2Z.inj_succ, Z.pow_succ_r by lia.
    rewrite Pos2Z.inj_xO, IHk. lia.
Qed.

Lemma shiftl_shiftl (p : positive) (a b : N) :
  Pos.shiftl (Pos.shiftl p a) b = Pos.shiftl p (a + b).
Proof.
  apply Pos2Z.inj. rewrite !Zpos_shiftl, N2Z.inj_add, Z.pow_add_r; lia.
Qed.


Lemma digits2_pos_bound (n : positive) (d : Z) :
  0 <= d -> Zpos n < 2 ^ d -> Zpos (digits2_pos n) <= d.
Proof.
  intros Hd Hn. rewrite digits2_pos_size.
  pose proof (Pos.size_le n) as H.
  apply Pos2Z.pos_le_pos in H. rewrite Pos2Z.inj_pow, Pos2Z.inj_xO in H.
  destruct (Z_le_gt_dec (Zpos (Pos.size n)) d) as [Hle | Hgt]; [assumption|].
  exfalso.
  assert (2 ^ (d + 1) <= 2 ^ Zpos (Pos.size n)) by (apply Z.pow_le_mono_r; lia).
  rewrite Z.pow_add_r in H0 by lia. change (2 ^ 1) with 2 in H0.
  change ((2 * 1) ^ Z.pos (Pos.size n)) with (2 ^ Z.pos (Pos.size n)) in H.
  lia.
Qed.

Lemma int_float_bounded (n : positive) :
  Zpos n < 2 ^ 53 ->
  bounded prec emax (Pos.shiftl n (Z.to_N (53 - Zpos (digits2_pos n))))
                    (Zpos (digits2_pos n) - 53) = true.
Proof.
  intros Hn. pose proof (digits2_pos_bound n 53 ltac:(lia) Hn) as Hd.
  unfold bounded, canonical_mantissa.
  rewrite digits2_pos_shiftl, fexp_eq, Z2N.id by lia.
  apply andb_true_intro. split.
  - apply Z.eqb_eq. lia.
  - apply Z.leb_le. unfold emax, prec. lia.
Qed.

Lemma binary_round_int (s : bool) (n : positive) (k : N) :
  Zpos n < 2 ^ 53 ->
  binary_round prec emax s (Pos.shiftl n k) (- Z.of_N k) = int_float s n.
Proof.
  intros Hn. pose proof (digits2_pos_bound n 53 ltac:(lia) Hn) as Hd.
  pose proof (int_float_bounded n Hn) as Hb.
  unfold binary_round, int_float.
  set (d := Zpos (digits2_pos n)) in *.
  set (m0 := Pos.shiftl n (Z.to_N (53 - d))) in *.
  assert (Hfe : fexp prec emax (Zpos (digits2_pos (Pos.shiftl n k)) + - Z.of_N k) = d - 53).
  { rewrite digits2_pos_shiftl, fexp_eq. fold d. lia. }
  rewrite Hfe. unfold shl_align.
  destruct (d - 53 - - Z.of_N k) as [| j | j] eqn:E.
  - replace (Pos.shiftl n k) with (Pos.shiftl m0 0).
    2:{ unfold m0. cbn [Pos.shiftl]. f_equal. lia. }
    replace (- Z.of_N k) with (d - 53 - Z.of_N 0) by lia.
    now apply binary_round_aux_exact.
  - replace (Pos.shiftl n k) with (Pos.shiftl m0 (N.pos j)).
    2:{ unfold m0. rewrite shiftl_shiftl. f_equal. lia. }
    replace (- Z.of_N k) with (d - 53 - Z.of_N (N.pos j)) by lia.
    now apply binary_round_aux_exact.
  - replace (Pos.iter xO (Pos.shiftl n k) j) with (Pos.shiftl m0 0).
    2:{ unfold m0. cbn [Pos.shiftl].
        change (Pos.iter xO (Pos.shiftl n k) j) with (Pos.shiftl (Pos.shiftl n k) (N.pos j)).
        rewrite shiftl_shiftl. f_equal. lia. }
    replace (d - 53) with (d - 53 - Z.of_N 0) at 1 by lia.
    now apply binary_round_aux_exact.
Qed.

Lemma of_Z_int (z : Z) : Z.abs z < 2 ^ 53 -> of_Z z = of_int z.
Proof.
  intros Hz. unfold of_Z, binary_normalize.
  destruct z as [| n | n]; [reflexivity | |];
    apply (binary_round_int _ n 0); lia.
Qed.



Lemma shl_align_fst (m : positive) (e e' : Z) :
  e' <= e -> fst (shl_align m e e') = Pos.shiftl m (Z.to_N (e - e')).
Proof.
  intros H. unfold shl_align.
  destruct (e' - e) as [| j | j] eqn:E; cbn [fst].
  - replace (e - e') with 0 by lia. reflexivity.
  - lia.
  - replace (e - e') with (Zpos j) by lia. reflexivity.
Qed.

Lemma of_int_signed (s : bool) (n : positive) : of_int (signed s n) = int_float s n.
Proof. destruct s; reflexivity. Qed.

Lemma binary_normalize_int (z : Z) (k : N) :
  Z.abs z < 2 ^ 53 ->
  binary_normalize prec emax (z * 2 ^ Z.of_N k) (- Z.of_N k) false = of_int z.
Proof.
  intros Hz. destruct z as [| n | n].
  - reflexivity.
  - rewrite <- Zpos_shiftl. cbn [binary_normalize of_int].
    apply binary_round_int. lia.
  - change (Zneg n) with (- Zpos n). rewrite Z.mul_opp_l, <- Zpos_shiftl.
    cbn [Z.opp binary_normalize of_int]. apply binary_round_int. lia.
Qed.

Lemma add_int_float (sa sb : bool) (na nb : positive) :
  Zpos na < 2 ^ 53 -> Zpos nb < 2 ^ 53 ->
  Z.abs (signed sa na + signed sb nb) < 2 ^ 53 ->
  add (int_float sa na) (int_float sb nb) = of_int (signed sa na + signed sb nb).
Proof.
  intros Ha Hb Hab.
  pose proof (digits2_pos_bound na 53 ltac:(lia) Ha) as Hda.
  pose proof (digits2_pos_bound nb 53 ltac:(lia) Hb) as Hdb.
  unfold add, int_float, SFadd.
  set (da := Zpos (digits2_pos na)) in *. set (db := Zpos (digits2_pos nb)) in *.
  set (ez := Z.min (da - 53) (db - 53)).
  rewrite !shl_align_fst by lia. rewrite !shiftl_shiftl.
  set (K := Z.to_N (- ez)).
  replace (Z.to_N (53 - da) + Z.to_N (da - 53 - ez))%N with K by lia.
  replace (Z.to_N (53 - db) + Z.to_N (db - 53 - ez))%N with K by lia.
  replace ez with (- Z.of_N K) by lia.
  assert (E : cond_Zopp sa (Zpos (Pos.shiftl na K)) + cond_Zopp sb (Zpos (Pos.shiftl nb K))
              = (signed sa na + signed sb nb) * 2 ^ Z.of_N K).
  { rewrite !Zpos_shiftl. unfold signed. destruct sa, sb; cbn [cond_Zopp]; lia. }
  rewrite E. now apply binary_normalize_int.
Qed.

(** Adding integer Numbers is exact as long as the sum stays below 2^53. *)
Lemma add_of_Z (a b : Z) :
  Z.abs a < 2 ^ 53 -> Z.abs b < 2 ^ 53 -> Z.abs (a + b) < 2 ^ 53 ->
  add (of_Z a) (of_Z b) = of_Z (a + b).
Proof.
  intros Ha Hb Hab. rewrite !of_Z_int by assumption.
  destruct a as [| na | na].
  - destruct b; reflexivity.
  - destruct b as [| nb | nb].
    + rewrite Z.add_0_r. reflexivity.
    + apply (add_int_float false false); assumption || lia.
    + apply (add_int_float false true); assumption || lia.
  - destruct b as [| nb | nb].
    + rewrite Z.add_0_r. reflexivity.
    + apply (add_int_float true false); assumption || lia.
    + apply (add_int_float true true); assumption || lia.
Qed.

Lemma div_eucl_pair (a b : Z) : Z.div_eucl a b = (a / b, a mod b).
Proof. unfold Z.div, Z.modulo. now destruct (Z.div_eucl a b). Qed.

Lemma of_Z_1 : of_Z 1 = S754_finite false 4503599627370496 (-52).
Proof. reflexivity. Qed.

(** Dividing a Number by 1 leaves it unchanged. *)
Lemma div_one (x : number) :
  is_number x -> is_finite x = true -> div x (of_Z 1) = x.
Proof.
  intros Hv Hf. rewrite of_Z_1.
  destruct x as [s | s | | s m e]; try discriminate.
  - destruct s; reflexivity.
  - unfold is_number, valid_binary in Hv.
    pose proof Hv as Hb. unfold bounded, canonical_mantissa in Hb.
    apply andb_prop in Hb as [Hc He]. apply Z.eqb_eq in Hc. rewrite fexp_eq in Hc.
    unfold div, SFdiv, SFdiv_core_binary.
    cbn [Zdigits2]. change (digits2_pos 4503599627370496) with 53%positive.
    rewrite fexp_eq.
    set (d := Zpos (digits2_pos m)) in *.
    assert (Hcase : (Z.min (Z.max (d + e - (53 + -52) - 53) (-1074)) (e - -52) = e /\
                     e - -52 - e = 52) \/
                    (Z.min (Z.max (d + e - (53 + -52) - 53) (-1074)) (e - -52) = e - 1 /\
                     e - -52 - (e - 1) = 53)) by lia.
    destruct Hcase as [[-> ->] | [-> ->]].
    + rewrite Z.shiftl_mul_pow2 by lia.
      rewrite div_eucl_pair.
      change (Z.pos 4503599627370496) with (2 ^ 52).
      rewrite Z.div_mul, Z.mod_mul by lia.
      change (new_location (2 ^ 52) 0) with loc_Exact.
      replace (xorb s false) with s by (destruct s; reflexivity).
      apply (binary_round_aux_exact s m e 0) in Hv.
      cbn [Pos.shiftl Z.of_N] in Hv. now rewrite Z.sub_0_r in Hv.
    + rewrite Z.shiftl_mul_pow2 by lia.
      rewrite div_eucl_pair.
      change (Z.pos 4503599627370496) with (2 ^ 52).
      replace (Z.pos m * 2 ^ 53) with (Z.pos m * 2 * 2 ^ 52) by lia.
      rewrite Z.div_mul, Z.mod_mul by lia.
      change (new_location (2 ^ 52) 0) with loc_Exact.
      replace (xorb s false) with s by (destruct s; reflexivity).
      apply (binary_round_aux_exact s m e 1) in Hv.
      cbn [Pos.shiftl Z.of_N Pos.iter] in Hv.
      rewrite <- Hv. f_equal. lia.
Qed.

Lemma total_magnitude_nonneg (zs : list Z) : 0 <= total_magnitude zs.
Proof. induction zs; simpl; lia. Qed.

Lemma fold_add_of_Z (zs : list Z) :
  forall a : Z, Z.abs a + total_magnitude zs < 2 ^ 53 ->
  fold_left (fun a b => add a b) (map of_Z zs) (of_Z a)
  = of_Z (a + fold_right Z.add 0 zs) /\
  Z.abs (a + fold_right Z.add 0 zs) <= Z.abs a + total_magnitude zs.
Proof.
  induction zs as [| z zs IH]; intros a Ha.
  - simpl in *. rewrite Z.add_0_r. split; [reflexivity | lia].
  - change (total_magnitude (z :: zs)) with (Z.abs z + total_magnitude zs) in *.
    cbn [map fold_left fold_right].
    pose proof (total_magnitude_nonneg zs).
    rewrite add_of_Z by lia.
    destruct (IH (a + z) ltac:(lia)) as [E B].
    rewrite E. split; [f_equal; lia | lia].
Qed.

Lemma sum_of_Z (zs : list Z) :
  total_magnitude zs < 2 ^ 53 ->
  sum (map of_Z zs) = of_Z (fold_right Z.add 0 zs).
Proof.
  intros H. unfold sum. destruct (fold_add_of_Z zs 0) as [E _]; [simpl; lia|].
  now rewrite E.
Qed.

Lemma total_magnitude_Permutation (zs zs' : list Z) :
  Permutation zs zs' -> total_magnitude zs = total_magnitude zs'.
Proof. induction 1; simpl; lia. Qed.

Lemma fold_add_Permutation (zs zs' : list Z) :
  Permutation zs zs' -> fold_right Z.add 0 zs = fold_right Z.add 0 zs'.
Proof. induction 1; simpl; lia. Qed.

(** ** Numerals *)

Lemma digits_fuel_indep (f : nat) :
  forall (f' : nat) (n : Z),
  (1 <= f)%nat -> (1 <= f')%nat -> 0 <= n < 2 ^ Z.of_nat f -> n < 2 ^ Z.of_nat f' ->
  digits_fuel f n = digits_fuel f' n.
Proof.
  induction f as [| f IH]; intros f' n Hf Hf' Hn Hn'; [lia|].
  destruct f' as [| f']; [lia|].
  simpl. destruct (Z.ltb_spec n 10) as [Hlt | Hge]; [reflexivity|].
  assert (Hpow : forall g : nat, n < 2 ^ Z.of_nat (S g) ->
                 (1 <= g)%nat /\ n / 10 < 2 ^ Z.of_nat g).
  { intros g Hg. rewrite Nat2Z.inj_succ, Z.pow_succ_r in Hg by lia.
    split.
    - destruct g; [simpl in Hg; lia | lia].
    - apply Z.div_lt_upper_bound; lia. }
  destruct (Hpow f (proj2 Hn)) as [H1 H2].
  destruct (Hpow f' Hn') as [H3 H4].
  f_equal. apply IH; try assumption.
  split; [apply Z.div_pos; lia | assumption].
Qed.

Lemma log2_fuel (n : Z) : 0 <= n -> n < 2 ^ Z.of_nat (S (Z.to_nat (Z.log2 n))).
Proof.
  intros Hn. rewrite Nat2Z.inj_succ, Z2Nat.id by apply Z.log2_nonneg.
  destruct (Z.eq_dec n 0) as [-> | Hnz]; [reflexivity|].
  apply Z.log2_spec. lia.
Qed.

Lemma decimal_small (n : Z) : 0 <= n < 10 -> decimal n = String (digit n) "".
Proof.
  intros Hn. unfold decimal. simpl.
  destruct (Z.ltb_spec n 10); [reflexivity | lia].
Qed.

Lemma decimal_step (n : Z) :
  10 <= n -> decimal n = decimal (n / 10) ++ String (digit (n mod 10)) "".
Proof.
  intros Hn. unfold decimal at 1. simpl.
  destruct (Z.ltb_spec n 10); [lia|].
  f_equal. unfold decimal.
  assert (H0 : 0 <= n / 10) by (apply Z.div_pos; lia).
  pose proof (log2_fuel n ltac:(lia)) as Hf.
  rewrite Nat2Z.inj_succ, Z.pow_succ_r in Hf by lia.
  assert (H1 : n / 10 < 2 ^ Z.of_nat (Z.to_nat (Z.log2 n)))
    by (apply Z.div_lt_upper_bound; lia).
  apply digits_fuel_indep.
  - assert (1 <= Z.log2 n) by (apply Z.log2_le_pow2; simpl; lia). lia.
  - lia.
  - lia.
  - apply log2_fuel. assumption.
Qed.

Lemma substring_prefix (a b : string) :
  substring 0 (String.length a) (a ++ b) = a.
Proof.
  induction a as [| c a IH]; simpl.
  - destruct b; reflexivity.
  - now rewrite IH.
Qed.

Lemma substring_all (b : string) : substring 0 (String.length b) b = b.
Proof.
  induction b as [| c b IH]; simpl; [reflexivity | now rewrite IH].
Qed.

Lemma substring_suffix (a b : string) :
  substring (String.length a) (String.length b) (a ++ b) = b.
Proof.
  induction a as [| c a IH]; simpl.
  - apply substring_all.
  - apply IH.
Qed.

Lemma length_append (a b : string) :
  String.length (a ++ b) = (String.length a + String.length b)%nat.
Proof. induction a as [| c a IH]; simpl; [reflexivity | now rewrite IH]. Qed.

Lemma fixed1_layout (n : Z) :
  0 <= n ->
  let m := decimal n in
  let k := String.length m in
  let m := if (k <=? 1)%nat then zeros (1 + 1 - k) ++ m else m in
  let k := String.length m in
  substring 0 (k - 1) m ++ "." ++ substring (k - 1) 1 m = tenths n.
Proof.
  intros Hn. unfold tenths.
  destruct (Z.lt_ge_cases n 10) as [Hlt | Hge].
  - rewrite (decimal_small n) by lia. simpl.
    rewrite Z.div_small, Z.mod_small by lia. reflexivity.
  - rewrite (decimal_step n Hge). cbv zeta.
    set (a := decimal (n / 10)). set (b := String (digit (n mod 10)) "").
    assert (Ha : (1 <= String.length a)%nat).
    { unfold a, decimal. simpl. destruct (n / 10 <? 10); [simpl; lia|].
      rewrite length_append. simpl. lia. }
    rewrite length_append. change (String.length b) with 1%nat.
    destruct (Nat.leb_spec (String.length a + 1) 1); [lia|].
    rewrite length_append. change (String.length b) with 1%nat.
    replace (String.length a + 1 - 1)%nat with (String.length a) by lia.
    rewrite substring_prefix.
    change 1%nat with (String.length b) at 1. rewrite substring_suffix.
    reflexivity.
Qed.

Lemma toFixed1_tenths (x : number) :
  is_finite x = true ->
  (Qabs (R x) < inject_Z (10 ^ 21))%Q ->
  toFixed x 1 = sign_of x ++ tenths (nearest_scaled (Qabs (R x)) 1).
Proof.
  intros Hf Hlt. unfold toFixed, sign_of. rewrite Hf. cbn [negb].
  destruct (Qle_bool (inject_Z (10 ^ 21)) (Qabs (R x))) eqn:E.
  - apply Qle_bool_iff in E. exfalso. apply (Qlt_not_le _ _ Hlt E).
  - f_equal. apply fixed1_layout.
    unfold nearest_scaled.
    change 0 with (Qfloor 0). apply Qfloor_resp_le.
    pose proof (Qabs_nonneg (R x)). 
    assert (0 <= Qabs (R x) * inject_Z (10 ^ Z.of_nat 1))%Q.
    { apply Qmult_le_0_compat; [assumption | discriminate]. }
    lra.
Qed.

(** [n] is the integer nearest to [10 r], the larger one on a tie. *)
Lemma nearest_scaled_1 (r : Q) :
  (inject_Z (nearest_scaled r 1) - (1 # 2) <= r * 10 /\
   r * 10 < inject_Z (nearest_scaled r 1) + (1 # 2))%Q.
Proof.
  unfold nearest_scaled. change (inject_Z (10 ^ Z.of_nat 1)) with (10 : Q)%Q.
  pose proof (Qfloor_le (r * 10 + (1 # 2))) as H1.
  pose proof (Qlt_floor (r * 10 + (1 # 2))) as H2.
  rewrite inject_Z_plus in H2. change (inject_Z 1) with 1%Q in H2.
  split; lra.
Qed.

Lemma nearest_scaled_closest (r : Q) (k : Z) :
  (Qabs (inject_Z (nearest_scaled r 1) - r * 10) <= Qabs (inject_Z k - r * 10))%Q /\
  ((Qabs (inject_Z (nearest_scaled r 1) - r * 10) == Qabs (inject_Z k - r * 10))%Q ->
   k <= nearest_scaled r 1).
Proof.
  destruct (nearest_scaled_1 r) as [H1 H2].
  set (n := nearest_scaled r 1) in *.
  assert (Hn : (Qabs (inject_Z n - r * 10) <= 1 # 2)%Q).
  { apply Qabs_Qle_condition. split; lra. }
  destruct (Z_lt_le_dec n k) as [Hk | Hk].
  - assert (Hq : (inject_Z n + 1 <= inject_Z k)%Q).
    { change 1%Q with (inject_Z 1). rewrite <- inject_Z_plus.
      rewrite <- Zle_Qle. lia. }
    assert (Hgt : (1 # 2 < Qabs (inject_Z k - r * 10))%Q).
    { eapply Qlt_le_trans; [| apply Qle_Qabs]. lra. }
    split.
    + lra.
    + intros He. rewrite He in Hn. lra.
  - split; [| intros _; assumption].
    destruct (Z.eq_dec k n) as [-> | Hne]; [apply Qle_refl|].
    assert (Hq : (inject_Z k + 1 <= inject_Z n)%Q).
    { change 1%Q with (inject_Z 1). rewrite <- inject_Z_plus.
      rewrite <- Zle_Qle. lia. }
    assert (Hge : (1 # 2 <= Qabs (inject_Z k - r * 10))%Q).
    { rewrite <- Qabs_opp. eapply Qle_trans; [| apply Qle_Qabs]. lra. }
    lra.
Qed.

(** ** Math.min and Math.max *)

Lemma le_rank (x y : number) :
  is_nan x = false -> is_nan y = false ->
  (le x y = true <-> ~ rank_lt (rank y) (rank x)).
Proof.
  intros Hx Hy. unfold le, SFleb.
  destruct x as [sx | sx | | sx mx ex]; try discriminate;
  destruct y as [sy | sy | | sy my ey]; try discriminate;
  try (destruct sx); try (destruct sy); simpl;
  try (split; [intros _; lia | reflexivity]);
  try (split; [discriminate | intros H; exfalso; apply H; lia]).
  - destruct (Z.compare_spec ex ey); [subst | |];
      [ | split; [discriminate | intros H'; exfalso; apply H'; lia]
        | split; [intros _; lia | reflexivity] ].
    change (Pos.compare_cont Eq mx my) with (Pos.compare mx my).
    destruct (Pos.compare_spec mx my); simpl;
      [ subst; split; [intros _; lia | reflexivity]
      | split; [discriminate | intros H'; exfalso; apply H'; lia]
      | split; [intros _; lia | reflexivity] ].
  - destruct (Z.compare_spec ex ey); [subst | |];
      [ | split; [intros _; lia | reflexivity]
        | split; [discriminate | intros H'; exfalso; apply H'; lia] ].
    change (Pos.compare_cont Eq mx my) with (Pos.compare mx my).
    destruct (Pos.compare_spec mx my); simpl;
      [ subst; split; [intros _; lia | reflexivity]
      | split; [intros _; lia | reflexivity]
      | split; [discriminate | intros H'; exfalso; apply H'; lia] ].
Qed.

Lemma le_not_lt (x y : number) :
  is_nan x = false -> is_nan y = false -> lt y x = false -> le x y = true.
Proof.
  intros Hx Hy H. apply le_rank; auto. now apply lt_false_rank.
Qed.

Lemma not_below_infinity (v : number) :
  is_nan v = false -> lt v pInfinity = false -> v = pInfinity.
Proof. destruct v as [[|] | [|] | | [|] m e]; simpl; try discriminate; reflexivity. Qed.

Lemma no_nan_In (values : list number) (v : number) :
  no_nan values -> In v values -> is_nan v = false.
Proof. intros H Hin. exact (proj1 (Forall_forall _ _) H v Hin). Qed.

(** On numbers other than NaN, [Math.min] returns one of its arguments,
    below or equal to all of them. *)
Lemma Math_min_spec (values : list number) :
  values <> [] -> no_nan values ->
  In (Math_min values) values /\
  forall v, In v values -> le (Math_min values) v = true.
Proof.
  intros Hne Hv. unfold Math_min.
  destruct (min_loop_least values pInfinity eq_refl Hv) as [(Hin & Hlow & _) Hn].
  set (r := min_loop pInfinity values) in *.
  split.
  - destruct Hin as [Hin | Hin]; [| assumption].
    destruct values as [| v rest]; [congruence|].
    assert (Hv0 : is_nan v = false) by (eapply no_nan_In; [eassumption | now left]).
    specialize (Hlow v (or_intror (or_introl eq_refl))).
    rewrite <- Hin in Hlow. rewrite <- Hin.
    left. now apply not_below_infinity.
  - intros v Hvin. apply le_not_lt; auto.
    + eapply no_nan_In; eassumption.
    + apply Hlow. now right.
Qed.

Lemma Math_max_Math_min (values : list number) :
  Math_max values = opp (Math_min (map opp values)).
Proof. unfold Math_max, Math_min. now rewrite max_loop_min_loop. Qed.

Lemma no_nan_opp (values : list number) : no_nan values -> no_nan (map opp values).
Proof.
  unfold no_nan. rewrite !Forall_forall. intros H v Hv.
  apply in_map_iff in Hv as (u & <- & Hu). rewrite is_nan_opp. auto.
Qed.

Lemma le_opp (x y : number) : le (opp x) (opp y) = le y x.
Proof.
  unfold le, SFleb.
  destruct x as [[|] | [|] | | [|] mx ex];
  destruct y as [[|] | [|] | | [|] my ey]; simpl; try reflexivity.
  - rewrite (Z.compare_antisym ex ey).
    change (Pos.compare_cont Eq mx my) with (Pos.compare mx my).
    change (Pos.compare_cont Eq my mx) with (Pos.compare my mx).
    rewrite (Pos.compare_antisym mx my).
    destruct (ex ?= ey); simpl; try reflexivity;
      destruct (mx ?= my)%positive; reflexivity.
  - rewrite (Z.compare_antisym ex ey).
    change (Pos.compare_cont Eq mx my) with (Pos.compare mx my).
    change (Pos.compare_cont Eq my mx) with (Pos.compare my mx).
    rewrite (Pos.compare_antisym mx my).
    destruct (ex ?= ey); simpl; try reflexivity;
      destruct (mx ?= my)%positive; reflexivity.
Qed.

Lemma Math_max_spec (values : list number) :
  values <> [] -> no_nan values ->
  In (Math_max values) values /\
  forall v, In v values -> le v (Math_max values) = true.
Proof.
  intros Hne Hv. rewrite Math_max_Math_min.
  destruct (Math_min_spec (map opp values)) as [Hin Hlow].
  - destruct values; [congruence | discriminate].
  - now apply no_nan_opp.
  - split.
    + apply in_map_iff in Hin as (u & Hu & Hin). rewrite <- Hu, opp_involutive.
      assumption.
    + intros v Hvin. rewrite <- (opp_involutive v), le_opp.
      apply Hlow. now apply in_map.
Qed.

Lemma Math_min_Permutation (values values' : list number) :
  Permutation values values' -> Math_min values = Math_min values'.
Proof. intros H. now apply min_loop_Permutation. Qed.

Lemma Math_max_Permutation (values values' : list number) :
  Permutation values values' -> Math_max values = Math_max values'.
Proof.
  intros H. rewrite !Math_max_Math_min. f_equal.
  apply Math_min_Permutation. now apply Permutation_map.
Qed.

Lemma Math_min_singleton (v : number) : Math_min [v] = v.
Proof. destruct v as [[|] | [|] | | [|] m e]; reflexivity. Qed.

Lemma Math_max_singleton (v : number) : Math_max [v] = v.
Proof. destruct v as [[|] | [|] | | [|] m e]; reflexivity. Qed.

Lemma le_not_nan (x y : number) :
  le x y = true -> is_nan x = false /\ is_nan y = false.
Proof.
  destruct x as [? | ? | | ? ? ?], y as [? | ? | | ? ? ?];
    try discriminate; auto.
Qed.

Lemma eqb_refl (x : number) : is_nan x = false -> Number.eqb x x = true.
Proof.
  unfold Number.eqb, SFeqb.
  destruct x as [s | [|] | | [|] m e]; try discriminate; intros _; simpl;
    try reflexivity;
    rewrite Z.compare_refl;
    change (Pos.compare_cont Eq m m) with (Pos.compare m m);
    now rewrite Pos.compare_refl.
Qed.

(** Two Numbers each below or equal to the other are equal for [==]. *)
Lemma le_antisym (x y : number) :
  le x y = true -> le y x = true -> Number.eqb x y = true.
Proof.
  intros Hxy Hyx. destruct (le_not_nan x y Hxy) as [Nx Ny].
  apply le_rank in Hxy, Hyx; try assumption.
  destruct (rank_inj x y Nx Ny (rank_total _ _ Hyx Hxy)) as [-> | [Zx Zy]].
  - now apply eqb_refl.
  - destruct x as [? | ? | | ? ? ?]; try discriminate.
    destruct y as [? | ? | | ? ? ?]; try discriminate. reflexivity.
Qed.


(** ** Rounding a quotient between two integers *)

Lemma digits2_pos_spec (p : positive) :
  2 ^ (Zpos (digits2_pos p) - 1) <= Zpos p < 2 ^ Zpos (digits2_pos p).
Proof.
  rewrite digits2_pos_size. split.
  - pose proof (Pos.size_le p) as H.
    apply Pos2Z.pos_le_pos in H. rewrite Pos2Z.inj_pow, Pos2Z.inj_xO in H.
    change ((2 * 1) ^ Z.pos (Pos.size p)) with (2 ^ Z.pos (Pos.size p)) in H.
    replace (Z.pos (Pos.size p)) with (Z.pos (Pos.size p) - 1 + 1) in H by lia.
    rewrite Z.pow_add_r in H by lia. lia.
  - pose proof (Pos.size_gt p) as H.
    apply Pos2Z.pos_lt_pos in H. now rewrite Pos2Z.inj_pow in H.
Qed.

Lemma digits2_pos_unique (p : positive) (d : Z) :
  2 ^ (d - 1) <= Zpos p < 2 ^ d -> Zpos (digits2_pos p) = d.
Proof.
  intros [Hlo Hhi]. pose proof (digits2_pos_spec p) as [Slo Shi].
  set (s := Zpos (digits2_pos p)) in *.
  assert (Hs : 0 < s) by (unfold s; lia).
  assert (Hd : 0 < d).
  { destruct (Z_lt_le_dec 0 d); [assumption|].
    destruct (Z.eq_dec d 0) as [-> | Hne].
    - simpl in Hhi. lia.
    - rewrite Z.pow_neg_r in Hhi by lia. lia. }
  destruct (Z.lt_trichotomy s d) as [Hlt | [Heq | Hgt]]; [| assumption |].
  - assert (2 ^ s <= 2 ^ (d - 1)) by (apply Z.pow_le_mono_r; lia). lia.
  - assert (2 ^ d <= 2 ^ (s - 1)) by (apply Z.pow_le_mono_r; lia). lia.
Qed.

Lemma shr_1_spec (mrs : shr_record) :
  0 <= shr_m mrs ->
  shr_m (shr_1 mrs) = shr_m mrs / 2 /\
  inexact (shr_1 mrs) = Z.odd (shr_m mrs) || inexact mrs.
Proof.
  destruct mrs as [m r s]. unfold inexact. cbn [shr_m shr_r shr_s]. intros Hm.
  destruct m as [| p | p]; [| | lia].
  - split; [reflexivity|]. simpl. reflexivity.
  - destruct p as [p | p |]; cbn [shr_1 shr_m shr_r shr_s].
    + split.
      * rewrite Pos2Z.inj_xI. apply Z.div_unique with 1; lia.
      * reflexivity.
    + split.
      * rewrite Pos2Z.inj_xO. apply Z.div_unique with 0; lia.
      * reflexivity.
    + split; reflexivity.
Qed.

Lemma odd_false_mod2 (m : Z) : Z.odd m = false <-> m mod 2 = 0.
Proof. rewrite Zmod_odd. destruct (Z.odd m); split; intros; congruence || lia. Qed.

Lemma shr_iter_spec (k : positive) :
  forall mrs, 0 <= shr_m mrs ->
  shr_m (Pos.iter shr_1 mrs k) = shr_m mrs / 2 ^ Zpos k /\
  (inexact (Pos.iter shr_1 mrs k) = false <->
   inexact mrs = false /\ shr_m mrs mod 2 ^ Zpos k = 0).
Proof.
  induction k using Pos.peano_ind; intros mrs Hm.
  - cbn [Pos.iter]. destruct (shr_1_spec mrs Hm) as [E1 E2].
    rewrite E1, E2. change (2 ^ 1) with 2. split; [reflexivity|].
    rewrite orb_false_iff, odd_false_mod2. tauto.
  - rewrite Pos.iter_succ.
    destruct (IHk mrs Hm) as [E1 E2].
    assert (H0 : 0 <= shr_m (Pos.iter shr_1 mrs k)).
    { rewrite E1. apply Z.div_pos; [assumption | apply Z.pow_pos_nonneg; lia]. }
    destruct (shr_1_spec _ H0) as [F1 F2].
    rewrite F1, F2, E1, Pos2Z.inj_succ, Z.pow_succ_r by lia.
    set (q := 2 ^ Zpos k). assert (Hq : 0 < q) by (apply Z.pow_pos_nonneg; lia).
    split.
    + rewrite Z.div_div by lia. f_equal. lia.
    + rewrite orb_false_iff, E2, odd_false_mod2.
      rewrite !Z.mod_divide by lia.
      split.
      * intros ([c Hc] & Hi & [j Hj]). split; [assumption|].
        exists c. rewrite Hj, Z.div_mul in Hc by lia. lia.
      * intros (Hi & [c Hc]). split; [| split; [assumption|]].
        -- exists c. rewrite Hc. replace (c * (2 * q)) with (c * 2 * q) by lia.
           rewrite Z.div_mul by lia. lia.
        -- exists (c * 2). lia.
Qed.

Lemma inexact_of_loc (m : Z) (loc : location) :
  inexact (shr_record_of_loc m loc) = false <-> loc = loc_Exact.
Proof.
  destruct loc as [| [| |]]; unfold inexact; simpl; split; intros;
    congruence.
Qed.

Lemma loc_of_exact (mrs : shr_record) :
  inexact mrs = false -> loc_of_shr_record mrs = loc_Exact.
Proof. destruct mrs as [m [|] [|]]; unfold inexact; simpl; congruence. Qed.

Lemma round_nearest_even_cases (mrs : shr_record) :
  round_nearest_even (shr_m mrs) (loc_of_shr_record mrs) = shr_m mrs \/
  (round_nearest_even (shr_m mrs) (loc_of_shr_record mrs) = shr_m mrs + 1 /\
   inexact mrs = true).
Proof.
  destruct mrs as [m [|] [|]]; unfold inexact; simpl; auto.
  destruct (Z.even m); auto.
Qed.

(** The first shift of [binary_round_aux] on a mantissa of at least 53
    digits in the normal range: the mantissa loses its [d - 53] low bits. *)
Lemma shr_fexp_normal (m : positive) (e : Z) (loc : location) :
  53 <= Zpos (digits2_pos m) -> -1074 <= Zpos (digits2_pos m) + e - 53 ->
  exists mrs,
    shr_fexp prec emax (Zpos m) e loc = (mrs, e + (Zpos (digits2_pos m) - 53)) /\
    shr_m mrs = Zpos m / 2 ^ (Zpos (digits2_pos m) - 53) /\
    (inexact mrs = false <->
     loc = loc_Exact /\ Zpos m mod 2 ^ (Zpos (digits2_pos m) - 53) = 0).
Proof.
  intros Hd Hn. unfold shr_fexp. cbn [Zdigits2]. rewrite fexp_eq.
  set (d := Zpos (digits2_pos m)) in *.
  replace (Z.max (d + e - 53) (-1074) - e) with (d - 53) by lia.
  destruct (d - 53) as [| k | k] eqn:Ek; [| | lia].
  - exists (shr_record_of_loc (Zpos m) loc). cbn [shr].
    split; [f_equal; lia|]. split.
    + destruct loc as [| [| |]]; cbn [shr_record_of_loc shr_m];
        now rewrite Z.div_1_r.
    + rewrite inexact_of_loc, Z.mod_1_r. tauto.
  - exists (Pos.iter shr_1 (shr_record_of_loc (Zpos m) loc) k). cbn [shr].
    rewrite iter_pos_iter. split; [reflexivity|].
    assert (H0 : 0 <= shr_m (shr_record_of_loc (Zpos m) loc))
      by (destruct loc as [| [| |]]; cbn; lia).
    destruct (shr_iter_spec k _ H0) as [E1 E2].
    assert (Hm : shr_m (shr_record_of_loc (Zpos m) loc) = Zpos m)
      by (destruct loc as [| [| |]]; reflexivity).
    rewrite Hm in E1, E2. split; [assumption|].
    now rewrite E2, inexact_of_loc.
Qed.

Lemma canonical_53 (M : positive) (E : Z) :
  Zpos (digits2_pos M) = 53 -> -1074 <= E <= 971 ->
  bounded prec emax M E = true.
Proof.
  intros Hd HE. unfold bounded, canonical_mantissa. rewrite fexp_eq, Hd.
  apply andb_true_intro. split; [apply Z.eqb_eq | apply Z.leb_le; unfold emax, prec]; lia.
Qed.

(** [binary_round_aux] in the normal range: the result is a Number whose
    mantissa is the truncated one, or the next one when bits were lost. *)
Lemma binary_round_aux_normal (s : bool) (m : positive) (e : Z) (loc : location) :
  53 <= Zpos (digits2_pos m) ->
  -1074 <= Zpos (digits2_pos m) + e - 53 ->
  Zpos (digits2_pos m) + e - 53 < 971 ->
  exists (M : positive) (E : Z),
    binary_round_aux prec emax s (Zpos m) e loc = S754_finite s M E /\
    bounded prec emax M E = true /\
    0 <= E - (e + (Zpos (digits2_pos m) - 53)) /\
    (Zpos M * 2 ^ (E - (e + (Zpos (digits2_pos m) - 53)))
       = Zpos m / 2 ^ (Zpos (digits2_pos m) - 53) \/
     (Zpos M * 2 ^ (E - (e + (Zpos (digits2_pos m) - 53)))
        = Zpos m / 2 ^ (Zpos (digits2_pos m) - 53) + 1 /\
      (loc <> loc_Exact \/ Zpos m mod 2 ^ (Zpos (digits2_pos m) - 53) <> 0))).
Proof.
  intros Hd Hn Ho.
  destruct (shr_fexp_normal m e loc Hd Hn) as (mrs & Hs & Hm & Hi).
  pose proof (digits2_pos_spec m) as [Dlo Dhi].
  set (d := Zpos (digits2_pos m)) in *. set (k := d - 53) in *.
  set (E0 := e + k) in *. set (m1 := Zpos m / 2 ^ k) in *.
  assert (Hk : 0 < 2 ^ k) by (apply Z.pow_pos_nonneg; lia).
  assert (Hm1 : 2 ^ 52 <= m1 < 2 ^ 53).
  { unfold m1. split.
    - apply Z.div_le_lower_bound; [lia|].
      rewrite Z.mul_comm, <- Z.pow_add_r by lia.
      replace (52 + k) with (d - 1) by lia. assumption.
    - apply Z.div_lt_upper_bound; [lia|].
      rewrite <- Z.pow_add_r by lia.
      replace (k + 53) with d by lia. assumption. }
  unfold binary_round_aux. rewrite Hs.
  set (M0 := round_nearest_even (shr_m mrs) (loc_of_shr_record mrs)).
  assert (HM0 : M0 = m1 \/ (M0 = m1 + 1 /\ (loc <> loc_Exact \/ Zpos m mod 2 ^ k <> 0))).
  { unfold M0. destruct (round_nearest_even_cases mrs) as [H | [H Hin]];
      rewrite H, Hm; [now left | right]. split; [reflexivity|].
    destruct loc as [| c]; [| left; discriminate].
    right. intros Hz. pose proof (proj2 Hi (conj eq_refl Hz)) as Hf. congruence. }
  destruct (Z_lt_le_dec M0 (2 ^ 53)) as [Hlt | Hge].
  - (* no carry *)
    destruct M0 as [| M | M] eqn:EM; [lia | | lia].
    assert (HdM : Zpos (digits2_pos M) = 53).
    { apply digits2_pos_unique. change (53 - 1) with 52. lia. }
    assert (Hb : bounded prec emax M E0 = true) by (apply canonical_53; lia).
    pose proof Hb as Hc. unfold bounded in Hc. apply andb_prop in Hc as [Hc Hle].
    pose proof (shr_fexp_canonical M E0 0 Hc) as Hs2.
    cbn [Pos.shiftl Z.of_N] in Hs2. rewrite Z.sub_0_r in Hs2. rewrite Hs2.
    cbn [exact_record shr_m]. rewrite Hle.
    exists M, E0. split; [reflexivity|]. split; [assumption|].
    replace (E0 - E0) with 0 by lia. rewrite Z.mul_1_r.
    split; [lia | assumption].
  - (* the rounded mantissa is 2^53 *)
    assert (EM : M0 = 2 ^ 53) by lia.
    assert (Hb : bounded prec emax (2 ^ 52)%positive (E0 + 1) = true).
    { apply canonical_53; [reflexivity | lia]. }
    pose proof Hb as Hc. unfold bounded in Hc. apply andb_prop in Hc as [Hc Hle].
    pose proof (shr_fexp_canonical (2 ^ 52)%positive (E0 + 1) 1 Hc) as Hs2.
    replace (E0 + 1 - Z.of_N 1) with E0 in Hs2 by lia.
    change (Z.pos (Pos.shiftl (2 ^ 52) 1)) with (2 ^ 53) in Hs2.
    rewrite EM, Hs2. cbn [exact_record shr_m]. rewrite Hle.
    exists (2 ^ 52)%positive, (E0 + 1). split; [reflexivity|]. split; [assumption|].
    replace (E0 + 1 - E0) with 1 by lia.
    change (Z.pos (2 ^ 52) * 2 ^ 1) with (2 ^ 53). rewrite <- EM.
    split; [lia | assumption].
Qed.

Lemma new_location_exact (n r : Z) : new_location n r = loc_Exact <-> r = 0.
Proof.
  unfold new_location, new_location_even, new_location_odd.
  destruct (Z.even n); destruct (Z.eqb_spec r 0); split; intros; congruence.
Qed.

Lemma div_ge_pow (T p : Z) (x y : Z) :
  0 <= y <= x -> 0 < p < 2 ^ y -> 2 ^ x <= T -> 2 ^ (x - y) <= T / p.
Proof.
  intros Hxy Hp HT. apply Z.div_le_lower_bound; [lia|].
  assert (H : p * 2 ^ (x - y) <= 2 ^ y * 2 ^ (x - y))
    by (apply Z.mul_le_mono_nonneg_r; [apply Z.pow_nonneg|]; lia).
  rewrite <- Z.pow_add_r in H by lia.
  replace (y + (x - y)) with x in H by lia. lia.
Qed.

Lemma div_lt_pow (T p : Z) (x y : Z) :
  0 <= y -> 0 <= x -> 2 ^ y <= p -> T < 2 ^ (x + y) -> T / p < 2 ^ x.
Proof.
  intros Hy Hx Hp HT. assert (0 < 2 ^ y) by (apply Z.pow_pos_nonneg; lia).
  apply Z.div_lt_upper_bound; [lia|].
  assert (H1 : 2 ^ y * 2 ^ x <= p * 2 ^ x)
    by (apply Z.mul_le_mono_nonneg_r; [apply Z.pow_nonneg|]; lia).
  rewrite <- Z.pow_add_r in H1 by lia.
  replace (y + x) with (x + y) in H1 by lia. lia.
Qed.

(** Division followed by rounding, in the normal range: the result is a
    Number [M * 2^E]; with [T / U] the quotient of the mantissas brought to
    53 digits, [M * 2^E] is [T / U] truncated, or the next integer when
    the division leaves a remainder, times [2^E0]. *)
Lemma div_round_normal (s : bool) (p1 p2 : positive) (e1 e2 : Z) :
  -1021 <= Zpos (digits2_pos p1) - Zpos (digits2_pos p2) + (e1 - e2) <= 969 ->
  exists (M : positive) (E sh k : Z),
    (let '(mz, ez, lz) := SFdiv_core_binary prec emax (Zpos p1) e1 (Zpos p2) e2 in
     binary_round_aux prec emax s mz ez lz) = S754_finite s M E /\
    bounded prec emax M E = true /\
    0 <= sh /\ 0 <= k /\
    0 <= E - (e1 - e2 - sh + k) /\
    2 ^ 52 <= (Zpos p1 * 2 ^ sh) / (Zpos p2 * 2 ^ k) /\
    (Zpos M * 2 ^ (E - (e1 - e2 - sh + k)) = (Zpos p1 * 2 ^ sh) / (Zpos p2 * 2 ^ k) \/
     (Zpos M * 2 ^ (E - (e1 - e2 - sh + k)) = (Zpos p1 * 2 ^ sh) / (Zpos p2 * 2 ^ k) + 1 /\
      (Zpos p1 * 2 ^ sh) mod (Zpos p2 * 2 ^ k) <> 0)).
Proof.
  intros Hr.
  pose proof (digits2_pos_spec p1) as [L1 U1].
  pose proof (digits2_pos_spec p2) as [L2 U2].
  set (d1 := Zpos (digits2_pos p1)) in *. set (d2 := Zpos (digits2_pos p2)) in *.
  assert (Hd1 : 1 <= d1) by (unfold d1; lia).
  assert (Hd2 : 1 <= d2) by (unfold d2; lia).
  unfold SFdiv_core_binary. cbn [Zdigits2]. fold d1 d2. rewrite fexp_eq.
  set (e' := Z.min (Z.max (d1 + e1 - (d2 + e2) - 53) (-1074)) (e1 - e2)).
  set (sh := e1 - e2 - e').
  assert (Hsh : sh = Z.max (53 - d1 + d2) 0) by lia.
  assert (Hsh0 : 0 <= sh) by lia.
  set (T := Zpos p1 * 2 ^ sh).
  assert (ET : match sh with
               | 0 => Zpos p1
               | Zpos _ => Z.shiftl (Zpos p1) sh
               | Zneg _ => 0
               end = T).
  { unfold T. destruct sh as [| j | j] eqn:Es; [rewrite Z.mul_1_r; reflexivity | | lia].
    now rewrite Z.shiftl_mul_pow2 by lia. }
  rewrite ET, div_eucl_pair.
  assert (Hps : 0 < 2 ^ sh) by (apply Z.pow_pos_nonneg; lia).
  assert (HT : 2 ^ (d1 - 1 + sh) <= T < 2 ^ (d1 + sh)).
  { unfold T. rewrite !Z.pow_add_r by lia. split.
    - apply Z.mul_le_mono_nonneg_r; lia.
    - apply Z.mul_lt_mono_pos_r; lia. }
  set (qz := T / Zpos p2).
  assert (Hq : 2 ^ (d1 - 1 + sh - d2) <= qz < 2 ^ (d1 + sh - d2 + 1)).
  { unfold qz. split.
    - apply (div_ge_pow T (Zpos p2) (d1 - 1 + sh) d2); [lia | lia | apply HT].
    - apply (div_lt_pow T (Zpos p2) (d1 + sh - d2 + 1) (d2 - 1)); [lia | lia | exact L2 |].
      replace (d1 + sh - d2 + 1 + (d2 - 1)) with (d1 + sh) by lia. apply HT. }
  assert (Hq52 : 2 ^ 52 <= qz).
  { eapply Z.le_trans; [| apply Hq]. apply Z.pow_le_mono_r; lia. }
  destruct qz as [| qp | qp] eqn:Eq; [lia | | lia].
  pose proof (digits2_pos_spec qp) as [Lq Uq].
  set (dq := Zpos (digits2_pos qp)) in *.
  assert (Hdq : d1 + sh - d2 <= dq <= d1 + sh - d2 + 1).
  { split.
    - destruct (Z_lt_le_dec dq (d1 + sh - d2)); [| assumption].
      assert (2 ^ dq <= 2 ^ (d1 - 1 + sh - d2)) by (apply Z.pow_le_mono_r; lia). lia.
    - destruct (Z_lt_le_dec (d1 + sh - d2 + 1) dq); [| assumption].
      assert (2 ^ (d1 + sh - d2 + 1) <= 2 ^ (dq - 1)) by (apply Z.pow_le_mono_r; lia). lia. }
  destruct (binary_round_aux_normal s qp e' (new_location (Z.pos p2) (T mod Z.pos p2)))
    as (M & E & HM & Hb & HE & HV); fold dq; try lia.
  fold dq in HM, HE, HV.
  set (k := dq - 53) in *.
  assert (Hk : 0 <= k) by lia.
  assert (Hpk : 0 < 2 ^ k) by (apply Z.pow_pos_nonneg; lia).
  assert (EU : Zpos qp / 2 ^ k = T / (Zpos p2 * 2 ^ k)).
  { rewrite <- Eq. unfold qz. rewrite Z.div_div by lia. reflexivity. }
  exists M, E, sh, k. fold T.
  replace (e1 - e2 - sh + k) with (e' + k) by lia.
  split; [exact HM|]. split; [exact Hb|]. split; [lia|]. split; [lia|].
  split; [exact HE|]. rewrite <- EU. split.
  - apply Z.div_le_lower_bound; [lia|].
    rewrite Z.mul_comm, <- Z.pow_add_r by lia.
    replace (52 + k) with (dq - 1) by lia. exact Lq.
  - destruct HV as [HV | [HV Hin]]; [now left | right].
    split; [exact HV|]. intros Hz.
    apply Z.mod_divide in Hz; [| lia]. destruct Hz as [c Hc].
    destruct Hin as [Hin | Hin].
    + apply Hin. apply new_location_exact. apply Z.mod_divide; [lia|].
      exists (c * 2 ^ k). lia.
    + apply Hin. apply Z.mod_divide; [lia|]. exists c.
      rewrite <- Eq. unfold qz. rewrite Hc.
      replace (c * (Z.pos p2 * 2 ^ k)) with (c * 2 ^ k * Z.pos p2) by lia.
      now rewrite Z.div_mul by lia.
Qed.

(** *** Powers of two and quotients of integers as rationals *)

Lemma Qpow2_pos (x : Z) : (0 < 2 ^ x)%Q.
Proof. apply Qpower_0_lt. reflexivity. Qed.

Lemma Qpow2_add (x y : Z) : (2 ^ (x + y) == 2 ^ x * 2 ^ y)%Q.
Proof. apply Qpower_plus. discriminate. Qed.

Lemma Qpow2_opp (x : Z) : (2 ^ (- x) == / 2 ^ x)%Q.
Proof. apply Qpower_opp. Qed.

Lemma Qpow2_Z (n : Z) : 0 <= n -> (2 ^ n == inject_Z (2 ^ n))%Q.
Proof. intros Hn. now rewrite Zpower_Qpower. Qed.

Lemma Qle_Z_div (x t w : Z) :
  0 < w -> ((inject_Z x <= inject_Z t / inject_Z w)%Q <-> x * w <= t).
Proof.
  intros Hw. destruct w as [| wp | wp]; try lia.
  unfold Qle, Qdiv, Qmult, Qinv, inject_Z. simpl. lia.
Qed.

Lemma Qdiv_Z_le (x t w : Z) :
  0 < w -> ((inject_Z t / inject_Z w <= inject_Z x)%Q <-> t <= x * w).
Proof.
  intros Hw. destruct w as [| wp | wp]; try lia.
  unfold Qle, Qdiv, Qmult, Qinv, inject_Z. simpl. lia.
Qed.

(** The value [M * 2^E] of a result, and the quotient of the operands,
    as quotients of integers when the exponent [E0] is not positive. *)
Lemma value_as_quotient (M V E E0 : Z) :
  E0 <= 0 -> 0 <= E - E0 -> M * 2 ^ (E - E0) = V ->
  (inject_Z M * 2 ^ E == inject_Z V / inject_Z (2 ^ (- E0)))%Q.
Proof.
  intros H0 HE HV. subst V.
  assert (H2 : (2 ^ E == inject_Z (2 ^ (E - E0)) * / inject_Z (2 ^ (- E0)))%Q).
  { rewrite <- !Qpow2_Z, <- Qpow2_opp, <- Qpow2_add by lia.
    replace (E - E0 + - - E0) with E by lia. reflexivity. }
  rewrite H2, inject_Z_mult. unfold Qdiv. ring.
Qed.

Lemma quotient_scaled (p1 p2 e1 e2 u v : Z) :
  0 < p1 -> 0 < p2 -> 0 <= u -> 0 <= v -> e1 - e2 = u - v ->
  (inject_Z p1 * 2 ^ e1 / (inject_Z p2 * 2 ^ e2)
   == inject_Z (p1 * 2 ^ u) / inject_Z (p2 * 2 ^ v))%Q.
Proof.
  intros H1 H2 Hu Hv HE.
  rewrite !inject_Z_mult, <- !Qpow2_Z by lia.
  assert (H3 : (2 ^ e1 == 2 ^ u * (2 ^ e2 * / 2 ^ v))%Q).
  { rewrite <- !Qpow2_opp, <- !Qpow2_add.
    replace (u + (e2 + - v)) with e1 by lia. reflexivity. }
  rewrite H3.
  pose proof (Qpow2_pos e2). pose proof (Qpow2_pos v).
  assert (Hp2 : (0 < inject_Z p2)%Q) by (rewrite <- (Zlt_Qlt 0); lia).
  field. repeat split; intros Hz; rewrite Hz in *;
    match goal with H : (0 < 0)%Q |- _ => exact (Qlt_irrefl 0 H) end.
Qed.

(** Division followed by rounding keeps the result between any two
    integers below 2^53 that enclose the exact quotient. *)
Lemma div_round_between (s : bool) (p1 p2 : positive) (e1 e2 : Z) (a b : Z) :
  -1021 <= Zpos (digits2_pos p1) - Zpos (digits2_pos p2) + (e1 - e2) <= 969 ->
  0 <= a -> b < 2 ^ 53 ->
  (inject_Z a <= inject_Z (Zpos p1) * 2 ^ e1 / (inject_Z (Zpos p2) * 2 ^ e2))%Q ->
  (inject_Z (Zpos p1) * 2 ^ e1 / (inject_Z (Zpos p2) * 2 ^ e2) <= inject_Z b)%Q ->
  exists (M : positive) (E : Z),
    (let '(mz, ez, lz) := SFdiv_core_binary prec emax (Zpos p1) e1 (Zpos p2) e2 in
     binary_round_aux prec emax s mz ez lz) = S754_finite s M E /\
    bounded prec emax M E = true /\
    (inject_Z a <= inject_Z (Zpos M) * 2 ^ E /\
     inject_Z (Zpos M) * 2 ^ E <= inject_Z b)%Q.
Proof.
  intros Hr Ha Hb Hlo Hhi.
  destruct (div_round_normal s p1 p2 e1 e2 Hr)
    as (M & E & sh & k & HM & Hbd & Hsh & Hk & HE & H52 & HV).
  exists M, E. split; [exact HM|]. split; [exact Hbd|].
  set (E0 := e1 - e2 - sh + k) in *.
  set (T := Zpos p1 * 2 ^ sh) in *. set (U := Zpos p2 * 2 ^ k) in *.
  assert (HU : 0 < U) by (unfold U; apply Z.mul_pos_pos; [lia | apply Z.pow_pos_nonneg; lia]).
  set (V := Zpos M * 2 ^ (E - E0)) in *.
  destruct (Z_le_gt_dec E0 0) as [H0 | H0].
  - set (W := 2 ^ (- E0)).
    assert (HW : 0 < W) by (apply Z.pow_pos_nonneg; lia).
    assert (EUW : Zpos p2 * 2 ^ (k - E0) = U * W).
    { unfold U, W. replace (k - E0) with (k + - E0) by lia.
      rewrite Z.pow_add_r by lia. lia. }
    rewrite (quotient_scaled (Zpos p1) (Zpos p2) e1 e2 sh (k - E0)) in Hlo, Hhi by lia.
    fold T in Hlo, Hhi. rewrite EUW in Hlo, Hhi.
    apply (proj1 (Qle_Z_div a T (U * W) ltac:(lia))) in Hlo.
    apply (proj1 (Qdiv_Z_le b T (U * W) ltac:(lia))) in Hhi.
    rewrite (value_as_quotient (Zpos M) V E E0) by (assumption || reflexivity).
    fold W.
    assert (HUW : 0 < U * W) by lia.
    assert (Hlow : a * W <= T / U) by (apply Z.div_le_lower_bound; lia).
    split.
    + apply (proj2 (Qle_Z_div a V W HW)). destruct HV as [-> | [-> _]]; lia.
    + apply (proj2 (Qdiv_Z_le b V W HW)). destruct HV as [-> | [-> Hrem]].
      * apply Z.div_le_upper_bound; lia.
      * assert (Hne : T <> b * W * U).
        { intros Heq. apply Hrem. rewrite Heq. apply Z.mod_mul. lia. }
        assert (T / U < b * W) by (apply Z.div_lt_upper_bound; lia).
        lia.
  - exfalso.
    rewrite (quotient_scaled (Zpos p1) (Zpos p2) e1 e2 (sh + E0) k) in Hhi by lia.
    fold U in Hhi.
    apply (proj1 (Qdiv_Z_le b (Zpos p1 * 2 ^ (sh + E0)) U HU)) in Hhi.
    rewrite Z.pow_add_r, Z.mul_assoc in Hhi by lia. fold T in Hhi.
    assert (H2 : 2 <= 2 ^ E0).
    { change 2 with (2 ^ 1) at 1. apply Z.pow_le_mono_r; lia. }
    assert (HTU : 2 ^ 52 * U <= T).
    { pose proof (Z.mul_div_le T U HU). nia. }
    change (2 ^ 53) with (2 ^ 52 * 2) in Hb. nia.
Qed.

(** *** Integers as Numbers: value and order *)

Lemma int_float_value (n : positive) :
  Zpos n < 2 ^ 53 ->
  (inject_Z (Zpos (Pos.shiftl n (Z.to_N (53 - Zpos (digits2_pos n)))))
   * 2 ^ (Zpos (digits2_pos n) - 53) == inject_Z (Zpos n))%Q.
Proof.
  intros Hn. pose proof (digits2_pos_bound n 53 ltac:(lia) Hn) as Hd.
  rewrite Zpos_shiftl, Z2N.id by lia.
  set (d := Zpos (digits2_pos n)) in *.
  rewrite inject_Z_mult, <- Qpow2_Z by lia.
  rewrite <- Qmult_assoc, <- Qpow2_add.
  replace (53 - d + (d - 53)) with 0 by lia. simpl. ring.
Qed.

Lemma R_of_int (z : Z) : Z.abs z < 2 ^ 53 -> (R (of_int z) == inject_Z z)%Q.
Proof.
  intros Hz. destruct z as [| n | n]; [reflexivity | |];
    unfold of_int, int_float, R.
  - apply int_float_value. simpl in Hz. lia.
  - setoid_replace (- inject_Z (Z.pos (Pos.shiftl n (Z.to_N (53 - Z.pos (digits2_pos n)))))
                    * 2 ^ (Z.pos (digits2_pos n) - 53))%Q
      with (- (inject_Z (Z.pos (Pos.shiftl n (Z.to_N (53 - Z.pos (digits2_pos n)))))
               * 2 ^ (Z.pos (digits2_pos n) - 53)))%Q by ring.
    rewrite int_float_value by (simpl in Hz; lia). reflexivity.
Qed.

Lemma R_of_Z (z : Z) : Z.abs z < 2 ^ 53 -> (R (of_Z z) == inject_Z z)%Q.
Proof. intros Hz. rewrite of_Z_int by assumption. now apply R_of_int. Qed.

Lemma digits2_pos_int_float (n : positive) :
  Zpos n < 2 ^ 53 ->
  Zpos (digits2_pos (Pos.shiftl n (Z.to_N (53 - Zpos (digits2_pos n))))) = 53.
Proof.
  intros Hn. pose proof (digits2_pos_bound n 53 ltac:(lia) Hn) as Hd.
  rewrite digits2_pos_shiftl, Z2N.id by lia. lia.
Qed.

(** The mean of integers whose sum [S] lies between [z0 * n] and
    [z1 * n] is a finite Number between [z0] and [z1]. *)
Lemma div_of_Z_between (S n z0 z1 : Z) :
  0 < n < 2 ^ 53 -> Z.abs S < 2 ^ 53 ->
  Z.abs z0 < 2 ^ 53 -> Z.abs z1 < 2 ^ 53 ->
  z0 * n <= S <= z1 * n ->
  is_finite (div (of_Z S) (of_Z n)) = true /\
  (inject_Z z0 <= R (div (of_Z S) (of_Z n)) /\
   R (div (of_Z S) (of_Z n)) <= inject_Z z1)%Q.
Proof.
  intros Hn HS H0 H1 Hb.
  rewrite !of_Z_int by lia.
  destruct n as [| pn | pn]; try lia.
  assert (Hpos : forall (sg : bool) (pS : positive) (a b : Z),
            Zpos pS < 2 ^ 53 -> 0 <= a -> b < 2 ^ 53 ->
            a * Zpos pn <= Zpos pS <= b * Zpos pn ->
            exists M E,
              div (int_float sg pS) (int_float false pn) = S754_finite sg M E /\
              (inject_Z a <= inject_Z (Zpos M) * 2 ^ E /\
               inject_Z (Zpos M) * 2 ^ E <= inject_Z b)%Q).
  { intros sg pS a b HpS Ha Hb' Hab.
    pose proof (digits2_pos_bound pS 53 ltac:(lia) HpS) as HdS.
    pose proof (digits2_pos_bound pn 53 ltac:(lia) (proj2 Hn)) as Hdn.
    assert (HdS1 : 1 <= Zpos (digits2_pos pS)) by lia.
    assert (Hdn1 : 1 <= Zpos (digits2_pos pn)) by lia.
    unfold div, int_float, SFdiv.
    set (mS := Pos.shiftl pS (Z.to_N (53 - Zpos (digits2_pos pS)))).
    set (mn := Pos.shiftl pn (Z.to_N (53 - Zpos (digits2_pos pn)))).
    set (eS := Zpos (digits2_pos pS) - 53). set (en := Zpos (digits2_pos pn) - 53).
    assert (Eq : (inject_Z (Zpos mS) * 2 ^ eS / (inject_Z (Zpos mn) * 2 ^ en)
                  == inject_Z (Zpos pS) / inject_Z (Zpos pn))%Q).
    { unfold mS, mn, eS, en. rewrite !int_float_value by lia. reflexivity. }
    destruct (div_round_between (xorb sg false) mS mn eS en a b) as (M & E & HM & _ & HV).
    - unfold mS, mn, eS, en. rewrite !digits2_pos_int_float by lia. lia.
    - assumption.
    - assumption.
    - rewrite Eq. apply (proj2 (Qle_Z_div a (Zpos pS) (Zpos pn) ltac:(lia))). lia.
    - rewrite Eq. apply (proj2 (Qdiv_Z_le b (Zpos pS) (Zpos pn) ltac:(lia))). lia.
    - exists M, E. split; [| exact HV].
      rewrite HM. now destruct sg. }
  destruct S as [| pS | pS]; cbn [of_int].
  - cbn. split; [reflexivity|]. split; rewrite <- (Zle_Qle _ 0) || rewrite <- (Zle_Qle 0); nia.
  - destruct (Hpos false pS (Z.max z0 0) z1) as (M & E & -> & Hlo & Hhi); try lia; try nia.
    cbn [is_finite R]. split; [reflexivity|]. split; [| exact Hhi].
    eapply Qle_trans; [| exact Hlo]. rewrite <- Zle_Qle. lia.
  - destruct (Hpos true pS (Z.max (- z1) 0) (- z0)) as (M & E & -> & Hlo & Hhi); try lia; try nia.
    cbn [is_finite R]. split; [reflexivity|].
    rewrite inject_Z_opp in Hhi.
    assert (Hlo' : (inject_Z (- z1) <= inject_Z (Zpos M) * 2 ^ E)%Q).
    { eapply Qle_trans; [| exact Hlo]. rewrite <- Zle_Qle. lia. }
    rewrite inject_Z_opp in Hlo'.
    split; lra.
Qed.

Lemma Qfloor_between (y : Q) (lo hi : Z) :
  (inject_Z lo <= y)%Q -> (y < inject_Z (hi + 1))%Q -> lo <= Qfloor y <= hi.
Proof.
  intros Hlo Hhi. split.
  - rewrite <- (Qfloor_Z lo). now apply Qfloor_resp_le.
  - pose proof (Qfloor_le y) as H.
    assert (Hlt : (inject_Z (Qfloor y) < inject_Z (hi + 1))%Q)
      by (eapply Qle_lt_trans; eassumption).
    rewrite <- Zlt_Qlt in Hlt. lia.
Qed.

(** The numeral printed for a finite Number between two integers denotes
    a number of tenths between them. *)
Lemma toFixed1_between (x : number) (z0 z1 : Z) :
  is_finite x = true -> Z.abs z0 < 2 ^ 53 -> Z.abs z1 < 2 ^ 53 ->
  (inject_Z z0 <= R x)%Q -> (R x <= inject_Z z1)%Q ->
  exists (neg : bool) (t : Z),
    toFixed x 1 = (if neg then "-" else "") ++ tenths t /\
    0 <= t /\ 10 * z0 <= (if neg then - t else t) <= 10 * z1.
Proof.
  intros Hf H0 H1 Hlo Hhi.
  assert (Hbig : (Qabs (R x) < inject_Z (10 ^ 21))%Q).
  { apply Qabs_Qlt_condition.
    assert (A0 : (inject_Z (- 10 ^ 21) < inject_Z z0)%Q)
      by (rewrite <- Zlt_Qlt; change (2 ^ 53) with 9007199254740992 in H0; lia).
    assert (A1 : (inject_Z z1 < inject_Z (10 ^ 21))%Q)
      by (rewrite <- Zlt_Qlt; change (2 ^ 53) with 9007199254740992 in H1; lia).
    rewrite inject_Z_opp in A0. split; lra. }
  rewrite (toFixed1_tenths x Hf Hbig). unfold sign_of, nearest_scaled.
  change (inject_Z (10 ^ Z.of_nat 1)) with (inject_Z 10).
  destruct (Qle_bool 0 (R x)) eqn:Es.
  - apply Qle_bool_iff in Es. exists false. eexists. split; [reflexivity|].
    rewrite (Qabs_pos _ Es).
    assert (B : Z.max (10 * z0) 0 <= Qfloor (R x * inject_Z 10 + (1 # 2)) <= 10 * z1).
    { apply Qfloor_between.
      - destruct (Z.max_spec (10 * z0) 0) as [[_ ->] | [_ ->]].
        + change (inject_Z 0) with 0%Q. change (inject_Z 10) with 10%Q. lra.
        + rewrite inject_Z_mult. change (inject_Z 10) with 10%Q. lra.
      - rewrite inject_Z_plus, inject_Z_mult.
        change (inject_Z 10) with 10%Q. change (inject_Z 1) with 1%Q. lra. }
    lia.
  - assert (Hneg : (R x < 0)%Q).
    { apply Qnot_le_lt. intros H. apply Qle_bool_iff in H. congruence. }
    exists true. eexists. split; [reflexivity|].
    rewrite (Qabs_neg _ (Qlt_le_weak _ _ Hneg)).
    assert (B : Z.max (10 * - z1) 0 <= Qfloor (- R x * inject_Z 10 + (1 # 2)) <= 10 * - z0).
    { apply Qfloor_between.
      - destruct (Z.max_spec (10 * - z1) 0) as [[_ ->] | [_ ->]].
        + change (inject_Z 0) with 0%Q. change (inject_Z 10) with 10%Q. lra.
        + rewrite inject_Z_mult, inject_Z_opp. change (inject_Z 10) with 10%Q. lra.
      - rewrite inject_Z_plus, inject_Z_mult, inject_Z_opp.
        change (inject_Z 10) with 10%Q. change (inject_Z 1) with 1%Q. lra. }
    lia.
Qed.

(** [of_int] is strictly increasing for the order of ranks. *)
Lemma digits2_pos_mono (a b : positive) :
  (a <= b)%positive -> Zpos (digits2_pos a) <= Zpos (digits2_pos b).
Proof.
  intros Hab. pose proof (digits2_pos_spec a) as [La Ua].
  pose proof (digits2_pos_spec b) as [Lb Ub].
  destruct (Z_le_gt_dec (Zpos (digits2_pos a)) (Zpos (digits2_pos b))); [assumption|].
  assert (2 ^ Zpos (digits2_pos b) <= 2 ^ (Zpos (digits2_pos a) - 1))
    by (apply Z.pow_le_mono_r; lia).
  lia.
Qed.

Lemma int_float_lt (a b : positive) :
  Zpos a < Zpos b < 2 ^ 53 ->
  let da := Zpos (digits2_pos a) in
  let db := Zpos (digits2_pos b) in
  da - 53 < db - 53 \/
  (da - 53 = db - 53 /\
   Zpos (Pos.shiftl a (Z.to_N (53 - da))) < Zpos (Pos.shiftl b (Z.to_N (53 - db)))).
Proof.
  intros [Hab Hb]. cbv zeta.
  pose proof (digits2_pos_mono a b ltac:(lia)) as Hd.
  destruct (Z.eq_dec (Zpos (digits2_pos a)) (Zpos (digits2_pos b))) as [E | N];
    [right | left; lia].
  split; [lia|]. rewrite E, !Zpos_shiftl.
  apply Z.mul_lt_mono_pos_r; [apply Z.pow_pos_nonneg; lia | assumption].
Qed.

Lemma of_int_rank_lt (a b : Z) :
  Z.abs a < 2 ^ 53 -> Z.abs b < 2 ^ 53 -> a < b ->
  rank_lt (rank (of_int a)) (rank (of_int b)).
Proof.
  intros Ha Hb Hab.
  destruct a as [| pa | pa]; destruct b as [| pb | pb]; try lia;
    unfold of_int, pZero; cbn [int_float rank rank_lt]; try lia.
  - pose proof (int_float_lt pa pb ltac:(lia)) as H. cbv zeta in H. lia.
  - pose proof (int_float_lt pb pa ltac:(lia)) as H. cbv zeta in H. lia.
Qed.

Lemma of_int_not_nan (z : Z) : is_nan (of_int z) = false.
Proof. destruct z; reflexivity. Qed.

Lemma of_Z_le_reflect (a b : Z) :
  Z.abs a < 2 ^ 53 -> Z.abs b < 2 ^ 53 -> le (of_Z a) (of_Z b) = true -> a <= b.
Proof.
  intros Ha Hb H. rewrite !of_Z_int in H by assumption.
  apply le_rank in H; try apply of_int_not_nan.
  destruct (Z_le_gt_dec a b); [assumption|].
  exfalso. apply H. apply of_int_rank_lt; lia.
Qed.

(** *** Statistics of integer values *)

Lemma In_total_magnitude (zs : list Z) (z : Z) :
  In z zs -> Z.abs z <= total_magnitude zs.
Proof.
  induction zs as [| y zs IH]; intros Hin; [destruct Hin|].
  change (total_magnitude (y :: zs)) with (Z.abs y + total_magnitude zs).
  pose proof (total_magnitude_nonneg zs).
  destruct Hin as [-> | Hin]; [lia | specialize (IH Hin); lia].
Qed.

Lemma no_nan_of_Z (zs : list Z) :
  total_magnitude zs < 2 ^ 53 -> no_nan (map of_Z zs).
Proof.
  intros H. apply Forall_forall. intros v Hv.
  apply in_map_iff in Hv as (z & <- & Hz).
  pose proof (In_total_magnitude zs z Hz).
  rewrite of_Z_int by lia. apply of_int_not_nan.
Qed.

Lemma sum_between (zs : list Z) (z0 z1 : Z) :
  (forall z, In z zs -> z0 <= z <= z1) ->
  z0 * Z.of_nat (List.length zs) <= fold_right Z.add 0 zs
                                 <= z1 * Z.of_nat (List.length zs).
Proof.
  induction zs as [| y zs IH]; intros H; [simpl; lia|].
  cbn [List.length fold_right]. rewrite Nat2Z.inj_succ.
  pose proof (H y (or_introl eq_refl)).
  assert (IH' : forall z, In z zs -> z0 <= z <= z1) by (intros; apply H; now right).
  specialize (IH IH'). lia.
Qed.

Lemma sum_magnitude (zs : list Z) : Z.abs (fold_right Z.add 0 zs) <= total_magnitude zs.
Proof. induction zs as [| y zs IH]; simpl; unfold total_magnitude in *; simpl; lia. Qed.

(** The extrema of integer values are the Numbers of the least and the
    greatest integer. *)
Lemma integer_extrema (zs : list Z) :
  zs <> [] -> total_magnitude zs < 2 ^ 53 ->
  exists z0 z1,
    In z0 zs /\ In z1 zs /\
    Math_min (map of_Z zs) = of_Z z0 /\ Math_max (map of_Z zs) = of_Z z1 /\
    forall z, In z zs -> z0 <= z <= z1.
Proof.
  intros Hne Hmag.
  assert (Hne' : map of_Z zs <> []) by (destruct zs; [congruence | discriminate]).
  pose proof (no_nan_of_Z zs Hmag) as Hnan.
  destruct (Math_min_spec _ Hne' Hnan) as [Hmin Hlow].
  destruct (Math_max_spec _ Hne' Hnan) as [Hmax Hhigh].
  apply in_map_iff in Hmin as (z0 & E0 & H0).
  apply in_map_iff in Hmax as (z1 & E1 & H1).
  exists z0, z1. repeat split; auto.
  - apply of_Z_le_reflect.
    + pose proof (In_total_magnitude zs z0 H0). lia.
    + pose proof (In_total_magnitude zs z H). lia.
    + rewrite E0. apply Hlow. now apply in_map.
  - apply of_Z_le_reflect.
    + pose proof (In_total_magnitude zs z H). lia.
    + pose proof (In_total_magnitude zs z1 H1). lia.
    + rewrite E1. apply Hhigh. now apply in_map.
Qed.

(** For integer values whose magnitudes add up to less than 2^53, the
    average is the numeral of a number of tenths between ten times the
    minimum and ten times the maximum. *)
Lemma integer_average (zs : list Z) :
  zs <> [] -> total_magnitude zs < 2 ^ 53 -> Z.of_nat (List.length zs) < 2 ^ 53 ->
  exists (z0 z1 : Z) (neg : bool) (t : Z),
    In z0 zs /\ In z1 zs /\
    Math_min (map of_Z zs) = of_Z z0 /\ Math_max (map of_Z zs) = of_Z z1 /\
    toFixed (mean (map of_Z zs)) 1 = (if neg then "-" else "") ++ tenths t /\
    0 <= t /\ 10 * z0 <= (if neg then - t else t) <= 10 * z1.
Proof.
  intros Hne Hmag Hlen.
  destruct (integer_extrema zs Hne Hmag) as (z0 & z1 & H0 & H1 & Emin & Emax & Hall).
  pose proof (In_total_magnitude zs z0 H0) as M0.
  pose proof (In_total_magnitude zs z1 H1) as M1.
  pose proof (sum_between zs z0 z1 Hall) as Hsum.
  pose proof (sum_magnitude zs) as HS.
  assert (Hn : 0 < Z.of_nat (List.length zs)) by (destruct zs; [congruence | simpl; lia]).
  unfold mean. rewrite (sum_of_Z zs Hmag). unfold length_Z. rewrite length_map.
  destruct (div_of_Z_between (fold_right Z.add 0 zs) (Z.of_nat (List.length zs)) z0 z1)
    as (Hf & Hlo & Hhi); try lia.
  destruct (toFixed1_between _ z0 z1 Hf ltac:(lia) ltac:(lia) Hlo Hhi)
    as (neg & t & Et & Ht & Hb).
  exists z0, z1, neg, t. repeat split; auto; lia.
Qed.

(** *** Reading back a numeral with one decimal *)

Lemma digit_value_digit (d : Z) : 0 <= d < 10 -> digit_value (digit d) = Some d.
Proof.
  intros H.
  assert (C : d = 0 \/ d = 1 \/ d = 2 \/ d = 3 \/ d = 4 \/ d = 5 \/ d = 6 \/
              d = 7 \/ d = 8 \/ d = 9) by lia.
  repeat (destruct C as [-> | C]; [reflexivity|]). subst. reflexivity.
Qed.

Lemma digit_not_sign (d : Z) :
  0 <= d < 10 ->
  digit d <> "-"%char /\ digit d <> "+"%char /\ digit d <> "I"%char /\ digit d <> "."%char.
Proof.
  intros H.
  assert (C : d = 0 \/ d = 1 \/ d = 2 \/ d = 3 \/ d = 4 \/ d = 5 \/ d = 6 \/
              d = 7 \/ d = 8 \/ d = 9) by lia.
  repeat (destruct C as [-> | C]; [repeat split; discriminate|]).
  subst. repeat split; discriminate.
Qed.

Lemma append_assoc (a b c : string) : (a ++ b) ++ c = a ++ (b ++ c).
Proof. induction a as [| x a IH]; simpl; [reflexivity | now rewrite IH]. Qed.

Lemma take_digits_decimal (n : Z) :
  0 <= n ->
  forall (acc count : Z) (rest : string),
  exists len : Z,
    0 < len /\
    take_digits (decimal n ++ rest) acc count
      = take_digits rest (acc * 10 ^ len + n) (count + len).
Proof.
  intros Hn. generalize Hn. pattern n. apply Z_lt_induction; [| assumption].
  clear n Hn. intros n IH Hn acc count rest.
  destruct (Z_lt_le_dec n 10) as [Hlt | Hge].
  - rewrite decimal_small by lia. exists 1. split; [lia|].
    cbn [append take_digits]. rewrite digit_value_digit by lia.
    f_equal; lia.
  - rewrite decimal_step by assumption. rewrite append_assoc.
    assert (Hq : 0 <= n / 10 < n)
      by (split; [apply Z.div_pos; lia | apply Z.div_lt; lia]).
    destruct (IH (n / 10) Hq (proj1 Hq) acc count
                (String (digit (n mod 10)) "" ++ rest)) as (len & Hlen & E).
    rewrite E. exists (len + 1). split; [lia|].
    cbn [append take_digits].
    rewrite digit_value_digit by (apply Z.mod_pos_bound; lia).
    f_equal; [| lia].
    rewrite Z.pow_add_r by lia. change (10 ^ 1) with 10.
    pose proof (Z.div_mod n 10 ltac:(lia)). lia.
Qed.

Lemma decimal_head (n : Z) :
  0 <= n -> exists d tail, 0 <= d < 10 /\ decimal n = String (digit d) tail.
Proof.
  intros Hn. generalize Hn. pattern n. apply Z_lt_induction; [| assumption].
  clear n Hn. intros n IH Hn.
  destruct (Z_lt_le_dec n 10) as [Hlt | Hge].
  - exists n, "". split; [lia|]. apply decimal_small. lia.
  - assert (Hq : 0 <= n / 10 < n)
      by (split; [apply Z.div_pos; lia | apply Z.div_lt; lia]).
    destruct (IH (n / 10) Hq (proj1 Hq)) as (d & tail & Hd & E).
    exists d, (tail ++ String (digit (n mod 10)) "").
    split; [assumption|]. rewrite decimal_step, E by assumption. reflexivity.
Qed.

(** The Number read from a numeral with one decimal: the Number nearest
    to its number of tenths divided by ten, a zero of the sign of the
    numeral when that number is zero. *)
Lemma ToNumber_tenths (neg : bool) (t : Z) :
  0 <= t ->
  ToNumber ((if neg then "-" else "") ++ tenths t) = scaled neg t (-1).
Proof.
  intros Ht. unfold tenths.
  assert (Hq : 0 <= t / 10) by (apply Z.div_pos; lia).
  destruct (decimal_head (t / 10) Hq) as (d & tail & Hd & Eh).
  destruct (digit_not_sign d Hd) as (N1 & N2 & N3 & N4).
  change ("." ++ String (digit (t mod 10)) "")
    with (String "." (String (digit (t mod 10)) "")).
  set (frac := String (digit (t mod 10)) "").
  set (body := decimal (t / 10) ++ String "." frac).
  assert (Hbody :
            (let '(ip, ni, s2) := take_digits body 0 0 in
             let '(dg, nf, s3) :=
               match s2 with
               | String "." rest => take_digits rest ip 0
               | _ => (ip, 0, s2)
               end in
             if ni + nf =? 0 then NaN
             else match take_exponent s3 with
                  | Some (e, EmptyString) => scaled neg dg (e - nf)
                  | _ => NaN
                  end) = scaled neg t (-1)).
  { unfold body.
    destruct (take_digits_decimal (t / 10) Hq 0 0 (String "." frac)) as (len & Hlen & E).
    rewrite E. cbn [take_digits].
    change (digit_value ".") with (@None Z). cbv iota.
    unfold frac. cbn [take_digits].
    rewrite digit_value_digit by (apply Z.mod_pos_bound; lia).
    cbn [take_digits].
    destruct (Z.eqb_spec (0 + len + (0 + 1)) 0) as [Hz | _]; [lia|].
    cbn [take_exponent].
    replace (10 * (0 * 10 ^ len + t / 10) + t mod 10) with t
      by (pose proof (Z.div_mod t 10 ltac:(lia)); lia).
    reflexivity. }
  assert (Hhead : body = String (digit d) (tail ++ String "." frac))
    by (unfold body; now rewrite Eh).
  assert (Hinf : String.eqb body "Infinity" = false).
  { rewrite Hhead. cbn [String.eqb].
    destruct (Ascii.eqb_spec (digit d) "I"); [contradiction | reflexivity]. }
  assert (Hs : take_sign body = (false, body)).
  { rewrite Hhead. unfold take_sign.
    destruct (digit d) as [b0 b1 b2 b3 b4 b5 b6 b7] eqn:Ed.
    destruct b0, b1, b2, b3, b4, b5, b6, b7; try reflexivity; congruence. }
  destruct neg.
  - change ("-" ++ body) with (String "-" body).
    unfold ToNumber. cbn [take_sign]. cbv beta iota zeta.
    rewrite Hinf. exact Hbody.
  - change ("" ++ body) with body.
    unfold ToNumber. rewrite Hs. rewrite Hhead at 1. cbv beta iota zeta.
    rewrite Hinf. exact Hbody.
Qed.

(** *** The order of Numbers and the order of their values *)

Lemma bounded_digits (m : positive) (e : Z) :
  bounded prec emax m e = true ->
  Zpos (digits2_pos m) <= 53 /\ -1074 <= e /\
  (-1074 < e -> Zpos (digits2_pos m) = 53).
Proof.
  unfold bounded, canonical_mantissa. intros H.
  apply andb_prop in H as [Hc _]. apply Z.eqb_eq in Hc. rewrite fexp_eq in Hc. lia.
Qed.

Lemma canonical_value_lt (mx my : positive) (ex ey : Z) :
  bounded prec emax mx ex = true -> bounded prec emax my ey = true ->
  ex < ey \/ (ex = ey /\ Zpos mx < Zpos my) ->
  (inject_Z (Zpos mx) * 2 ^ ex < inject_Z (Zpos my) * 2 ^ ey)%Q.
Proof.
  intros Hx Hy H.
  destruct (bounded_digits mx ex Hx) as (Dx & Ex & _).
  destruct (bounded_digits my ey Hy) as (Dy & Ey & Ny).
  pose proof (Qpow2_pos ex) as Hp.
  destruct H as [Hlt | [-> Hm]].
  - pose proof (digits2_pos_spec mx) as [_ Ux].
    pose proof (digits2_pos_spec my) as [Ly _].
    rewrite (Ny ltac:(lia)) in Ly. change (53 - 1) with 52 in Ly.
    assert (Ux' : Zpos mx < 2 ^ 53).
    { eapply Z.lt_le_trans; [exact Ux | apply Z.pow_le_mono_r; lia]. }
    assert (H2 : 2 <= 2 ^ (ey - ex)).
    { change 2 with (2 ^ 1) at 1. apply Z.pow_le_mono_r; lia. }
    assert (Hz : Zpos mx < Zpos my * 2 ^ (ey - ex)).
    { change (2 ^ 53) with (2 ^ 52 * 2) in Ux'. nia. }
    replace ey with ((ey - ex) + ex) at 1 by lia.
    rewrite Qpow2_add, (Qpow2_Z (ey - ex)) by lia.
    rewrite Qmult_assoc, <- inject_Z_mult.
    apply Qmult_lt_compat_r; [assumption|]. now rewrite <- Zlt_Qlt.
  - apply Qmult_lt_compat_r; [assumption|]. now rewrite <- Zlt_Qlt.
Qed.

(** On finite Numbers, [x < y] implies that the value of [x] is below the
    value of [y]. *)
Lemma lt_value (x y : number) :
  is_number x -> is_number y -> is_finite x = true -> is_finite y = true ->
  lt x y = true -> (R x < R y)%Q.
Proof.
  intros Vx Vy Fx Fy H.
  assert (Nx : is_nan x = false) by (destruct x; try discriminate; reflexivity).
  assert (Ny : is_nan y = false) by (destruct y; try discriminate; reflexivity).
  apply lt_rank in H; try assumption.
  destruct x as [sx | sx | | sx mx ex]; try discriminate;
  destruct y as [sy | sy | | sy my ey]; try discriminate;
  unfold is_number, valid_binary in Vx, Vy; cbn [rank rank_lt R] in *.
  - lia.
  - destruct sy; cbn [rank rank_lt] in H; [lia|].
    apply Qmult_lt_0_compat; [rewrite <- (Zlt_Qlt 0); lia | apply Qpow2_pos].
  - destruct sx; cbn [rank rank_lt] in H; [| lia].
    assert (0 < inject_Z (Zpos mx) * 2 ^ ex)%Q
      by (apply Qmult_lt_0_compat; [rewrite <- (Zlt_Qlt 0); lia | apply Qpow2_pos]).
    lra.
  - assert (Px : (0 < inject_Z (Zpos mx) * 2 ^ ex)%Q)
      by (apply Qmult_lt_0_compat; [rewrite <- (Zlt_Qlt 0); lia | apply Qpow2_pos]).
    assert (Py : (0 < inject_Z (Zpos my) * 2 ^ ey)%Q)
      by (apply Qmult_lt_0_compat; [rewrite <- (Zlt_Qlt 0); lia | apply Qpow2_pos]).
    destruct sx, sy; cbn [rank rank_lt] in H.
    + pose proof (canonical_value_lt my mx ey ex Vy Vx ltac:(lia)). lra.
    + lra.
    + lia.
    + apply (canonical_value_lt mx my ex ey Vx Vy). lia.
Qed.

Lemma le_of_value (x y : number) :
  is_number x -> is_number y -> is_finite x = true -> is_finite y = true ->
  (R x <= R y)%Q -> le x y = true.
Proof.
  intros Vx Vy Fx Fy H.
  apply le_not_lt.
  - destruct x; try discriminate; reflexivity.
  - destruct y; try discriminate; reflexivity.
  - destruct (lt y x) eqn:E; [| reflexivity].
    pose proof (lt_value y x Vy Vx Fy Fx E). lra.
Qed.

Lemma is_number_of_int (z : Z) : Z.abs z < 2 ^ 53 -> is_number (of_int z).
Proof.
  intros Hz. destruct z as [| n | n]; [reflexivity | |];
    apply int_float_bounded; simpl in Hz; lia.
Qed.

Lemma is_finite_of_int (z : Z) : is_finite (of_int z) = true.
Proof. destruct z; reflexivity. Qed.

(** The Number read from a numeral of [t] tenths, when [t / 10] lies
    between two integers, lies between them. *)
Lemma scaled_between (neg : bool) (t z0 z1 : Z) :
  0 <= t -> Z.abs z0 < 2 ^ 53 -> Z.abs z1 < 2 ^ 53 ->
  10 * z0 <= (if neg then - t else t) <= 10 * z1 ->
  is_number (scaled neg t (-1)) /\ is_finite (scaled neg t (-1)) = true /\
  (inject_Z z0 <= R (scaled neg t (-1)) /\ R (scaled neg t (-1)) <= inject_Z z1)%Q.
Proof.
  intros Ht H0 H1 Hb. unfold scaled.
  destruct t as [| p | p]; [| | lia].
  - split; [reflexivity|]. split; [reflexivity|]. cbn [R].
    destruct neg; split; rewrite <- (Zle_Qle _ 0) || rewrite <- (Zle_Qle 0); lia.
  - change (0 <=? -1) with false. cbv iota.
    change (Z.to_pos (10 ^ (- (-1)))) with 10%positive.
    assert (HP : Zpos p < 2 ^ 57).
    { change (2 ^ 53) with 9007199254740992 in H0, H1.
      change (2 ^ 57) with 144115188075855872. destruct neg; lia. }
    pose proof (digits2_pos_bound p 57 ltac:(lia) HP) as Hd.
    assert (Hd1 : 1 <= Zpos (digits2_pos p)) by lia.
    assert (Eq : (inject_Z (Zpos p) * 2 ^ 0 / (inject_Z 10 * 2 ^ 0)
                  == inject_Z (Zpos p) / inject_Z 10)%Q).
    { change (2 ^ 0)%Q with 1%Q. rewrite !Qmult_1_r. reflexivity. }
    assert (Hcore : forall (sg : bool) (a b : Z),
              0 <= a -> b < 2 ^ 53 -> a * 10 <= Zpos p <= b * 10 ->
              exists M E,
                of_ratio (if sg then Zneg p else Zpos p) 10 = S754_finite sg M E /\
                bounded prec emax M E = true /\
                (inject_Z a <= inject_Z (Zpos M) * 2 ^ E /\
                 inject_Z (Zpos M) * 2 ^ E <= inject_Z b)%Q).
    { intros sg a b Ha Hb' Hab.
      assert (Hsg : of_ratio (if sg then Zneg p else Zpos p) 10 =
                    let '(mz, ez, lz) := SFdiv_core_binary prec emax (Zpos p) 0 10 0 in
                    binary_round_aux prec emax sg mz ez lz)
        by (destruct sg; reflexivity).
      rewrite Hsg.
      apply (div_round_between sg p 10 0 0 a b).
      - change (Zpos (digits2_pos 10)) with 4. lia.
      - assumption.
      - assumption.
      - rewrite Eq. apply (proj2 (Qle_Z_div a (Zpos p) 10 ltac:(lia))). lia.
      - rewrite Eq. apply (proj2 (Qdiv_Z_le b (Zpos p) 10 ltac:(lia))). lia. }
    destruct neg; cbv beta iota zeta.
    + destruct (Hcore true (Z.max (- z1) 0) (- z0)) as (M & E & -> & Hbd & Hlo & Hhi);
        try lia.
      split; [exact Hbd|]. split; [reflexivity|]. cbn [R].
      rewrite inject_Z_opp in Hhi.
      assert (Hlo' : (inject_Z (- z1) <= inject_Z (Zpos M) * 2 ^ E)%Q).
      { eapply Qle_trans; [| exact Hlo]. rewrite <- Zle_Qle. lia. }
      rewrite inject_Z_opp in Hlo'. split; lra.
    + destruct (Hcore false (Z.max z0 0) z1) as (M & E & -> & Hbd & Hlo & Hhi);
        try lia.
      split; [exact Hbd|]. split; [reflexivity|]. cbn [R].
      split; [| exact Hhi].
      eapply Qle_trans; [| exact Hlo]. rewrite <- Zle_Qle. lia.
Qed.

(** For integer values whose magnitudes add up to less than 2^53, the
    average read back as a Number lies between the minimum and the
    maximum. *)
Lemma integer_average_between (zs : list Z) :
  zs <> [] -> total_magnitude zs < 2 ^ 53 -> Z.of_nat (List.length zs) < 2 ^ 53 ->
  le (Math_min (map of_Z zs)) (ToNumber (toFixed (mean (map of_Z zs)) 1)) = true /\
  le (ToNumber (toFixed (mean (map of_Z zs)) 1)) (Math_max (map of_Z zs)) = true.
Proof.
  intros Hne Hmag Hlen.
  destruct (integer_average zs Hne Hmag Hlen)
    as (z0 & z1 & neg & t & H0 & H1 & -> & -> & -> & Ht & Hb).
  pose proof (In_total_magnitude zs z0 H0) as M0.
  pose proof (In_total_magnitude zs z1 H1) as M1.
  rewrite (ToNumber_tenths neg t Ht).
  destruct (scaled_between neg t z0 z1 Ht ltac:(lia) ltac:(lia) Hb)
    as (Vr & Fr & Hlo & Hhi).
  rewrite !of_Z_int by lia.
  split; apply le_of_value; try assumption;
    try (apply is_number_of_int; lia); try apply is_finite_of_int;
    rewrite R_of_int by lia; assumption.
Qed.

(** ** The alert effect on a non-empty series *)



Lemma index_empty {A : Type} (i : Z) : index (@nil A) i = None.
Proof. unfold index. destruct (i <? 0); [reflexivity | now destruct (Z.to_nat i)]. Qed.

Lemma useEffect_alerts_empty (w : World) : useEffect_alerts [] w = Throw TypeError.
Proof. reflexivity. Qed.

Lemma nonempty_last {A : Type} (data : list A) :
  data <> [] -> exists s x, data = (s ++ [x])%list.
Proof.
  intros H. destruct (exists_last H) as (s & x & E). now exists s, x.
Qed.


(** C10. For every non-empty series the alert effect returns at most two
    alerts, each carrying one of the two fixed messages, and when both
    messages are present the battery message comes first. *)
Theorem alerts_shape (s : list Sample) (x : Sample) (w : World) :
  exists alerts w',
    useEffect_alerts (s ++ [x]) w = Normal (alerts, w') /\
    (List.length alerts <= 2)%nat /\
    Forall (fun a => message a = battery_message \/
                     message a = differential_message) alerts /\
    (In battery_message (map message alerts) ->
     In differential_message (map message alerts) ->
     map message alerts = [battery_message; differential_message]).
Proof.
  rewrite useEffect_alerts_last.
  destruct (battery_high x); destruct (differential_large x); cbv zeta;
    eexists; eexists; (split; [reflexivity|]); cbn [List.length map message];
    (split; [lia|]); (split; [repeat constructor; cbn [message]; auto|]);
    cbn [In]; intros H1 H2; try reflexivity;
    message_cases.
Qed.



(** C8, the claim as stated fails: the ids of the alerts are read from the
    clock, so two runs on the same series differ when the clock does. *)
Lemma alerts_depend_on_clock :
  exists a1 a2 w1 w2,
    useEffect_alerts [sample "18:00" 20 32]
                     {| readings := fun _ => 1000; taken := 0 |} = Normal (a1, w1) /\
    useEffect_alerts [sample "18:00" 20 32]
                     {| readings := fun _ => 2000; taken := 0 |} = Normal (a2, w2) /\
    a1 <> a2.
Proof.
  eexists; eexists; eexists; eexists.
  split; [reflexivity|]. split; [reflexivity|]. discriminate.
Qed.

(** C8, amended. The three pure helpers are functions of their arguments.
    Two runs of the alert effect on the same series either both throw or
    return alerts with the same messages in the same order, and the same
    alerts when the clock gives both runs the same readings. *)
Theorem determinism_up_to_clock (data : list Sample) (w1 w2 : World) :
  (forall l b l' b', l = l' -> b = b' ->
     calculateAmbientTemp l b = calculateAmbientTemp l' b') /\
  (forall data' key key', data = data' -> key = key' ->
     calculateStats data key = calculateStats data' key' /\
     getTrend data key = getTrend data' key') /\
  match useEffect_alerts data w1, useEffect_alerts data w2 with
  | Normal (a1, _), Normal (a2, _) =>
      map message a1 = map message a2 /\
      ((forall i, readings w1 (taken w1 + i) = readings w2 (taken w2 + i)) ->
       a1 = a2)
  | Throw e1, Throw e2 => e1 = e2
  | _, _ => False
  end.
Proof.
  split; [| split].
  - intros; subst; reflexivity.
  - intros; subst; split; reflexivity.
  - destruct data as [| d rest].
    + reflexivity.
    + destruct (nonempty_last (d :: rest)) as (s & x & ->); [discriminate|].
      rewrite !useEffect_alerts_last.
      destruct (battery_high x); destruct (differential_large x);
        cbv beta iota zeta; (split; [reflexivity|]); intros H;
        assert (E0 : readings w1 (taken w1) = readings w2 (taken w2))
          by (rewrite <- (Nat.add_0_r (taken w1)), <- (Nat.add_0_r (taken w2));
              apply H);
        assert (E1 : readings w1 (S (taken w1)) = readings w2 (S (taken w2)))
          by (rewrite <- (Nat.add_1_r (taken w1)), <- (Nat.add_1_r (taken w2));
              apply H);
        rewrite ?E0, ?E1; reflexivity.
Qed.

(** ** Rounding to one decimal *)

(** [x.toFixed(1)] of a finite Number below 10^21 in magnitude is the
    numeral of [n] tenths, [n] the integer nearest to ten times the
    magnitude (the larger one on a tie), after the sign. *)
Lemma toFixed1_rounds (x : number) :
  is_finite x = true -> (Qabs (R x) < inject_Z (10 ^ 21))%Q ->
  exists n : Z,
    toFixed x 1 = sign_of x ++ tenths n /\
    (inject_Z n - (1 # 2) <= Qabs (R x) * 10 /\
     Qabs (R x) * 10 < inject_Z n + (1 # 2))%Q.
Proof.
  intros Hf Hlt. exists (nearest_scaled (Qabs (R x)) 1). split.
  - now apply toFixed1_tenths.
  - apply nearest_scaled_1.
Qed.


(** *** Exact results on integers: the ambient estimate *)

Lemma digits2_pos_mul (a b : positive) :
  Zpos (digits2_pos a) + Zpos (digits2_pos b) - 1 <= Zpos (digits2_pos (a * b)).
Proof.
  pose proof (digits2_pos_spec a) as [La _].
  pose proof (digits2_pos_spec b) as [Lb _].
  pose proof (digits2_pos_spec (a * b)) as [_ Hab].
  set (da := Zpos (digits2_pos a)) in *. set (db := Zpos (digits2_pos b)) in *.
  set (dab := Zpos (digits2_pos (a * b))) in *.
  assert (Hda : 0 < da) by (unfold da; lia).
  assert (Hdb : 0 < db) by (unfold db; lia).
  assert (Hp : 2 ^ (da - 1 + (db - 1)) <= Zpos a * Zpos b).
  { rewrite Z.pow_add_r by lia. apply Z.mul_le_mono_nonneg; lia. }
  rewrite Pos2Z.inj_mul in Hab.
  destruct (Z_lt_le_dec (da - 1 + (db - 1)) dab) as [H | H]; [lia|].
  assert (2 ^ dab <= 2 ^ (da - 1 + (db - 1))) by (apply Z.pow_le_mono_r; lia).
  lia.
Qed.

(** Multiplying integer Numbers is exact as long as the product stays
    below 2^53. *)
Lemma mul_int_float (sa sb : bool) (na nb : positive) :
  Zpos (na * nb) < 2 ^ 53 ->
  mul (int_float sa na) (int_float sb nb) = int_float (xorb sa sb) (na * nb).
Proof.
  intros Hab.
  assert (Ha : Zpos na < 2 ^ 53) by (rewrite Pos2Z.inj_mul in Hab; nia).
  assert (Hb : Zpos nb < 2 ^ 53) by (rewrite Pos2Z.inj_mul in Hab; nia).
  pose proof (digits2_pos_bound na 53 ltac:(lia) Ha) as Hda.
  pose proof (digits2_pos_bound nb 53 ltac:(lia) Hb) as Hdb.
  pose proof (digits2_pos_bound (na * nb) 53 ltac:(lia) Hab) as Hdab.
  pose proof (digits2_pos_mul na nb) as Hd.
  pose proof (int_float_bounded (na * nb) Hab) as Hbd.
  unfold mul, int_float, SFmul.
  set (da := Zpos (digits2_pos na)) in *. set (db := Zpos (digits2_pos nb)) in *.
  set (dab := Zpos (digits2_pos (na * nb))) in *.
  set (m0 := Pos.shiftl (na * nb) (Z.to_N (53 - dab))) in *.
  set (j := Z.to_N (53 - da - db + dab)).
  replace (da - 53 + (db - 53)) with (dab - 53 - Z.of_N j) by lia.
  replace (Pos.shiftl na (Z.to_N (53 - da)) * Pos.shiftl nb (Z.to_N (53 - db)))%positive
    with (Pos.shiftl m0 j).
  - now apply binary_round_aux_exact.
  - apply Pos2Z.inj. unfold m0.
    rewrite Pos2Z.inj_mul, !Zpos_shiftl, Pos2Z.inj_mul, !Z2N.id by lia.
    unfold j. rewrite Z2N.id by lia.
    assert (E : 2 ^ (53 - dab) * 2 ^ (53 - da - db + dab) = 2 ^ (53 - da) * 2 ^ (53 - db)).
    { rewrite <- !Z.pow_add_r by lia. f_equal. lia. }
    rewrite <- Z.mul_assoc, E. ring.
Qed.

(** Doubling an integer Number gives the Number of the double. *)
Lemma mul_of_Z_2 (l : Z) :
  Z.abs l < 2 ^ 52 -> mul (of_Z l) (of_Z 2) = of_Z (l * 2).
Proof.
  intros Hl.
  assert (H2 : 2 ^ 53 = 2 * 2 ^ 52) by reflexivity.
  rewrite !of_Z_int by lia.
  destruct l as [| n | n]; [reflexivity | |];
    change (of_int 2) with (int_float false 2); cbn [of_int Z.mul];
    rewrite mul_int_float by (simpl in Hl; lia); reflexivity.
Qed.

(** The arithmetic behind the rounding of a quotient: a rounded mantissa
    that is the integer quotient or its successor stays between two
    integers below 2^53 that enclose the exact quotient. *)
Lemma rounded_quotient_between (p1 p2 M : positive) (e1 e2 E sh k a b : Z) :
  0 <= sh -> 0 <= k ->
  0 <= E - (e1 - e2 - sh + k) ->
  2 ^ 52 <= (Zpos p1 * 2 ^ sh) / (Zpos p2 * 2 ^ k) ->
  (Zpos M * 2 ^ (E - (e1 - e2 - sh + k)) = (Zpos p1 * 2 ^ sh) / (Zpos p2 * 2 ^ k) \/
   (Zpos M * 2 ^ (E - (e1 - e2 - sh + k)) = (Zpos p1 * 2 ^ sh) / (Zpos p2 * 2 ^ k) + 1 /\
    (Zpos p1 * 2 ^ sh) mod (Zpos p2 * 2 ^ k) <> 0)) ->
  0 <= a -> b < 2 ^ 53 ->
  (inject_Z a <= inject_Z (Zpos p1) * 2 ^ e1 / (inject_Z (Zpos p2) * 2 ^ e2))%Q ->
  (inject_Z (Zpos p1) * 2 ^ e1 / (inject_Z (Zpos p2) * 2 ^ e2) <= inject_Z b)%Q ->
  (inject_Z a <= inject_Z (Zpos M) * 2 ^ E /\
   inject_Z (Zpos M) * 2 ^ E <= inject_Z b)%Q.
Proof.
  intros Hsh Hk HE H52 HV Ha Hb Hlo Hhi.
  set (E0 := e1 - e2 - sh + k) in *.
  set (T := Zpos p1 * 2 ^ sh) in *. set (U := Zpos p2 * 2 ^ k) in *.
  assert (HU : 0 < U) by (unfold U; apply Z.mul_pos_pos; [lia | apply Z.pow_pos_nonneg; lia]).
  set (V := Zpos M * 2 ^ (E - E0)) in *.
  destruct (Z_le_gt_dec E0 0) as [H0 | H0].
  - set (W := 2 ^ (- E0)).
    assert (HW : 0 < W) by (apply Z.pow_pos_nonneg; lia).
    assert (EUW : Zpos p2 * 2 ^ (k - E0) = U * W).
    { unfold U, W. replace (k - E0) with (k + - E0) by lia.
      rewrite Z.pow_add_r by lia. lia. }
    rewrite (quotient_scaled (Zpos p1) (Zpos p2) e1 e2 sh (k - E0)) in Hlo, Hhi by lia.
    fold T in Hlo, Hhi. rewrite EUW in Hlo, Hhi.
    apply (proj1 (Qle_Z_div a T (U * W) ltac:(lia))) in Hlo.
    apply (proj1 (Qdiv_Z_le b T (U * W) ltac:(lia))) in Hhi.
    rewrite (value_as_quotient (Zpos M) V E E0) by (assumption || reflexivity).
    fold W.
    assert (HUW : 0 < U * W) by lia.
    assert (Hlow : a * W <= T / U) by (apply Z.div_le_lower_bound; lia).
    split.
    + apply (proj2 (Qle_Z_div a V W HW)). destruct HV as [-> | [-> _]]; lia.
    + apply (proj2 (Qdiv_Z_le b V W HW)). destruct HV as [-> | [-> Hrem]].
      * apply Z.div_le_upper_bound; lia.
      * assert (Hne : T <> b * W * U).
        { intros Heq. apply Hrem. rewrite Heq. apply Z.mod_mul. lia. }
        assert (T / U < b * W) by (apply Z.div_lt_upper_bound; lia).
        lia.
  - exfalso.
    rewrite (quotient_scaled (Zpos p1) (Zpos p2) e1 e2 (sh + E0) k) in Hhi by lia.
    fold U in Hhi.
    apply (proj1 (Qdiv_Z_le b (Zpos p1 * 2 ^ (sh + E0)) U HU)) in Hhi.
    rewrite Z.pow_add_r, Z.mul_assoc in Hhi by lia. fold T in Hhi.
    assert (H2 : 2 <= 2 ^ E0).
    { change 2 with (2 ^ 1) at 1. apply Z.pow_le_mono_r; lia. }
    assert (HTU : 2 ^ 52 * U <= T).
    { pose proof (Z.mul_div_le T U HU). nia. }
    change (2 ^ 53) with (2 ^ 52 * 2) in Hb. nia.
Qed.

(** Division followed by rounding keeps the result between any two
    multiples of [2^-j], of numerators below 2^53, that enclose the exact
    quotient. *)
Lemma div_round_between_dyadic
    (s : bool) (p1 p2 : positive) (e1 e2 : Z) (a b j : Z) :
  -1021 <= Zpos (digits2_pos p1) - Zpos (digits2_pos p2) + (e1 - e2) <= 969 ->
  0 <= a -> b < 2 ^ 53 ->
  (inject_Z a <= inject_Z (Zpos p1) * 2 ^ e1 / (inject_Z (Zpos p2) * 2 ^ e2) * 2 ^ j)%Q ->
  (inject_Z (Zpos p1) * 2 ^ e1 / (inject_Z (Zpos p2) * 2 ^ e2) * 2 ^ j <= inject_Z b)%Q ->
  exists (M : positive) (E : Z),
    (let '(mz, ez, lz) := SFdiv_core_binary prec emax (Zpos p1) e1 (Zpos p2) e2 in
     binary_round_aux prec emax s mz ez lz) = S754_finite s M E /\
    bounded prec emax M E = true /\
    (inject_Z a <= inject_Z (Zpos M) * 2 ^ E * 2 ^ j /\
     inject_Z (Zpos M) * 2 ^ E * 2 ^ j <= inject_Z b)%Q.
Proof.
  intros Hr Ha Hb Hlo Hhi.
  destruct (div_round_normal s p1 p2 e1 e2 Hr)
    as (M & E & sh & k & HM & Hbd & Hsh & Hk & HE & H52 & HV).
  exists M, E. split; [exact HM|]. split; [exact Hbd|].
  assert (Eq : (inject_Z (Zpos p1) * 2 ^ (e1 + j) / (inject_Z (Zpos p2) * 2 ^ e2)
                == inject_Z (Zpos p1) * 2 ^ e1 / (inject_Z (Zpos p2) * 2 ^ e2) * 2 ^ j)%Q).
  { rewrite Qpow2_add. pose proof (Qpow2_pos e2).
    assert (Hp2 : (0 < inject_Z (Zpos p2))%Q) by (rewrite <- (Zlt_Qlt 0); lia).
    field. split; intros Hz; rewrite Hz in *;
      match goal with H : (0 < 0)%Q |- _ => exact (Qlt_irrefl 0 H) end. }
  rewrite <- Eq in Hlo, Hhi.
  replace (e1 - e2 - sh + k) with (e1 + j - e2 - sh + k - j) in HE, HV by lia.
  replace (E - (e1 + j - e2 - sh + k - j)) with (E + j - (e1 + j - e2 - sh + k)) in HE, HV by lia.
  destruct (rounded_quotient_between p1 p2 M (e1 + j) e2 (E + j) sh k a b
              Hsh Hk HE H52 HV Ha Hb Hlo Hhi) as [A B].
  rewrite Qpow2_add, Qmult_assoc in A, B. split; assumption.
Qed.

(** A third of a positive integer below [3 * 2^46], as a Number: the
    rounded quotient lies between the two multiples of 1/64 that enclose
    the exact one. *)
Lemma div3_between (sg : bool) (pS : positive) :
  Zpos pS < 3 * 2 ^ 46 ->
  exists (M : positive) (E : Z),
    div (int_float sg pS) (int_float false 3) = S754_finite sg M E /\
    (inject_Z (64 * Zpos pS / 3) <= inject_Z (Zpos M) * 2 ^ E * 64 /\
     inject_Z (Zpos M) * 2 ^ E * 64 <= inject_Z (64 * Zpos pS / 3 + 1))%Q.
Proof.
  intros HS.
  assert (H46 : 2 ^ 46 = 70368744177664) by reflexivity.
  assert (H53 : 2 ^ 53 = 9007199254740992) by reflexivity.
  assert (HpS : Zpos pS < 2 ^ 53) by lia.
  pose proof (digits2_pos_bound pS 53 ltac:(lia) HpS) as HdS.
  assert (HdS1 : 1 <= Zpos (digits2_pos pS)) by lia.
  set (A := 64 * Zpos pS / 3).
  assert (HA : 3 * A <= 64 * Zpos pS < 3 * A + 3).
  { unfold A. pose proof (Z.mul_div_le (64 * Zpos pS) 3 ltac:(lia)).
    pose proof (Z.mul_succ_div_gt (64 * Zpos pS) 3 ltac:(lia)). lia. }
  unfold div, int_float, SFdiv.
  set (mS := Pos.shiftl pS (Z.to_N (53 - Zpos (digits2_pos pS)))).
  set (mn := Pos.shiftl 3 (Z.to_N (53 - Zpos (digits2_pos 3)))).
  set (eS := Zpos (digits2_pos pS) - 53). set (en := Zpos (digits2_pos 3) - 53).
  assert (Eq : (inject_Z (Zpos mS) * 2 ^ eS / (inject_Z (Zpos mn) * 2 ^ en)
                == inject_Z (Zpos pS) / inject_Z 3)%Q).
  { unfold mS, mn, eS, en. rewrite !int_float_value by lia. reflexivity. }
  assert (E3 : (inject_Z (Zpos pS) / inject_Z 3 * 3 == inject_Z (Zpos pS))%Q)
    by (field; discriminate).
  assert (QA : (3 * inject_Z A <= 64 * inject_Z (Zpos pS))%Q).
  { change 3%Q with (inject_Z 3). change 64%Q with (inject_Z 64).
    rewrite <- !inject_Z_mult, <- Zle_Qle. lia. }
  assert (QB : (64 * inject_Z (Zpos pS) <= 3 * inject_Z (A + 1))%Q).
  { change 3%Q with (inject_Z 3). change 64%Q with (inject_Z 64).
    rewrite <- !inject_Z_mult, <- Zle_Qle. lia. }
  destruct (div_round_between_dyadic (xorb sg false) mS mn eS en A (A + 1) 6)
    as (M & E & HM & _ & HV).
  - unfold mS, mn, eS, en. rewrite !digits2_pos_int_float by lia.
    change (Zpos (digits2_pos 3)) with 2. lia.
  - lia.
  - lia.
  - rewrite Eq. change (2 ^ 6)%Q with 64%Q. lra.
  - rewrite Eq. change (2 ^ 6)%Q with 64%Q. lra.
  - exists M, E. split; [rewrite HM; now destruct sg|].
    change (2 ^ 6)%Q with 64%Q in HV. exact HV.
Qed.

Lemma Qfloor_unique (y : Q) (n : Z) :
  (inject_Z n <= y)%Q -> (y < inject_Z (n + 1))%Q -> Qfloor y = n.
Proof. intros H1 H2. pose proof (Qfloor_between y n n H1 H2). lia. Qed.

(** The number of tenths nearest to a third of an integer. *)
Lemma nearest_scaled_third (S : Z) :
  nearest_scaled (Qabs (inject_Z S / 3)) 1 = (20 * Z.abs S + 3) / 6.
Proof.
  unfold nearest_scaled. change (inject_Z (10 ^ Z.of_nat 1)) with 10%Q.
  assert (Ea : (Qabs (inject_Z S / 3) == inject_Z (Z.abs S) / 3)%Q).
  { unfold Qdiv. rewrite Qabs_Qmult. reflexivity. }
  assert (E : (Qabs (inject_Z S / 3) * 10 + (1 # 2) == (20 * Z.abs S + 3) # 6)%Q).
  { rewrite Ea, (Qmake_Qdiv (20 * Z.abs S + 3) 6), inject_Z_plus, inject_Z_mult.
    change (inject_Z 20) with 20%Q. change (inject_Z 3) with 3%Q.
    change (inject_Z (Zpos 6)) with 6%Q. field. }
  rewrite E. reflexivity.
Qed.

(** A third of an integer of magnitude below [3 * 2^46], computed in
    double precision and printed with one decimal, is the exact third
    rounded to the nearest tenth. *)
Lemma toFixed1_third (S : Z) :
  Z.abs S < 3 * 2 ^ 46 ->
  toFixed (div (of_Z S) (of_Z 3)) 1 =
    (if S <? 0 then "-" else "") ++ tenths ((20 * Z.abs S + 3) / 6).
Proof.
  intros HS.
  assert (H46 : 2 ^ 46 = 70368744177664) by reflexivity.
  assert (H53 : 2 ^ 53 = 9007199254740992) by reflexivity.
  rewrite !of_Z_int by (simpl; lia).
  assert (Hpos : forall (sg : bool) (pS : positive),
            Zpos pS < 3 * 2 ^ 46 ->
            toFixed (div (int_float sg pS) (int_float false 3)) 1 =
              (if sg then "-" else "") ++ tenths ((20 * Zpos pS + 3) / 6)).
  { intros sg pS HpS.
    destruct (div3_between sg pS HpS) as (M & E & -> & Hlo & Hhi).
    set (A := 64 * Zpos pS / 3) in *. set (N := (20 * Zpos pS + 3) / 6).
    assert (HA : 3 * A <= 64 * Zpos pS < 3 * A + 3).
    { unfold A. pose proof (Z.mul_div_le (64 * Zpos pS) 3 ltac:(lia)).
      pose proof (Z.mul_succ_div_gt (64 * Zpos pS) 3 ltac:(lia)). lia. }
    assert (HN : 6 * N <= 20 * Zpos pS + 3 < 6 * N + 6).
    { unfold N. pose proof (Z.mul_div_le (20 * Zpos pS + 3) 6 ltac:(lia)).
      pose proof (Z.mul_succ_div_gt (20 * Zpos pS + 3) 6 ltac:(lia)). lia. }
    set (v := (inject_Z (Zpos M) * 2 ^ E)%Q) in *.
    assert (Q1 : (384 * inject_Z N - 192 <= 60 * inject_Z A)%Q).
    { assert (Hz : 384 * N <= 60 * A + 192) by lia.
      rewrite Zle_Qle, inject_Z_plus, !inject_Z_mult in Hz.
      change (inject_Z 384) with 384%Q in Hz. change (inject_Z 60) with 60%Q in Hz.
      change (inject_Z 192) with 192%Q in Hz. lra. }
    assert (Q2 : (60 * inject_Z (A + 1) < 384 * inject_Z N + 192)%Q).
    { assert (Hz : 60 * (A + 1) < 384 * N + 192) by lia.
      rewrite Zlt_Qlt, inject_Z_plus, !inject_Z_mult in Hz.
      change (inject_Z 384) with 384%Q in Hz. change (inject_Z 60) with 60%Q in Hz.
      change (inject_Z 192) with 192%Q in Hz. lra. }
    assert (HA0 : (0 <= inject_Z A)%Q) by (rewrite <- (Zle_Qle 0); lia).
    assert (Hv0 : (0 <= v)%Q) by lra.
    assert (Hvpos : (0 < v)%Q).
    { unfold v. apply Qmult_lt_0_compat; [rewrite <- (Zlt_Qlt 0); lia | apply Qpow2_pos]. }
    assert (HN1 : (inject_Z (N + 1) == inject_Z N + 1)%Q) by (rewrite inject_Z_plus; reflexivity).
    assert (Hfloor : nearest_scaled v 1 = N).
    { unfold nearest_scaled. change (inject_Z (10 ^ Z.of_nat 1)) with 10%Q.
      apply Qfloor_unique; [lra | rewrite HN1; lra]. }
    assert (HAb : (inject_Z (A + 1) < inject_Z (10 ^ 21 * 64))%Q).
    { rewrite <- Zlt_Qlt. assert (2 ^ 53 < 10 ^ 21 * 64) by reflexivity. lia. }
    rewrite inject_Z_mult in HAb. change (inject_Z 64) with 64%Q in HAb.
    rewrite toFixed1_tenths; [| reflexivity |].
    - unfold sign_of. destruct sg; cbn [R].
      + fold v.
        replace (Qle_bool 0 (- inject_Z (Zpos M) * 2 ^ E)) with false.
        2:{ symmetry. apply not_true_is_false. intros Hc. apply Qle_bool_iff in Hc.
            fold v in Hc. unfold v in *. lra. }
        assert (Eabs : (Qabs (- inject_Z (Zpos M) * 2 ^ E) == v)%Q).
        { setoid_replace (- inject_Z (Zpos M) * 2 ^ E)%Q with (- v)%Q by (unfold v; ring).
          rewrite Qabs_opp. now apply Qabs_pos. }
        f_equal. f_equal. rewrite <- Hfloor. unfold nearest_scaled.
        now rewrite Eabs.
      + fold v.
        replace (Qle_bool 0 v) with true by (symmetry; now apply Qle_bool_iff).
        f_equal. f_equal. rewrite <- Hfloor. unfold nearest_scaled.
        now rewrite (Qabs_pos v Hv0).
    - destruct sg; cbn [R]; fold v.
      + setoid_replace (- inject_Z (Zpos M) * 2 ^ E)%Q with (- v)%Q by (unfold v; ring).
        rewrite Qabs_opp, (Qabs_pos v Hv0). lra.
      + rewrite (Qabs_pos v Hv0). lra. }
  destruct S as [| pS | pS]; cbn [of_int Z.ltb Z.compare Z.abs].
  - reflexivity.
  - apply (Hpos false pS). simpl in HS. lia.
  - apply (Hpos true pS). simpl in HS. lia.
Qed.

(** The ambient estimate of integer readings of magnitude below 2^46 is
    the exact [(2 l + b) / 3] rounded to the nearest tenth. *)
Lemma ambient_exact (l b : Z) :
  Z.abs l < 2 ^ 46 -> Z.abs b < 2 ^ 46 ->
  calculateAmbientTemp (of_Z l) (of_Z b) =
    (if 2 * l + b <? 0 then "-" else "") ++
    tenths (nearest_scaled (Qabs ((2 * inject_Z l + inject_Z b) / 3)) 1).
Proof.
  intros Hl Hb.
  assert (H46 : 2 ^ 46 = 70368744177664) by reflexivity.
  assert (H52 : 2 ^ 52 = 4503599627370496) by reflexivity.
  assert (H53 : 2 ^ 53 = 9007199254740992) by reflexivity.
  unfold calculateAmbientTemp.
  rewrite mul_of_Z_2, add_of_Z by lia.
  rewrite toFixed1_third by lia.
  replace (l * 2 + b) with (2 * l + b) by lia.
  rewrite <- nearest_scaled_third. f_equal. f_equal.
  unfold nearest_scaled. apply Qfloor_comp.
  rewrite inject_Z_plus, inject_Z_mult. reflexivity.
Qed.

(** C2, amended. For all inputs, [calculateAmbientTemp l b] is
    [(l * 2 + b) / 3], each operation rounded to double precision,
    printed with one decimal: a string.  When the computed quotient is
    finite and below 10^21 in magnitude it is the numeral of the number of
    tenths nearest to that quotient.  When the inputs are integers of
    magnitude below 2^46 it is the numeral of the exact [(2 l + b) / 3]
    rounded to the nearest tenth; for 22 and 25 it is 23.0, the numeral of
    the Number 23. *)
Theorem ambient_rounded (l b : number) :
  calculateAmbientTemp l b = toFixed (div (add (mul l (of_Z 2)) b) (of_Z 3)) 1 /\
  (is_finite (div (add (mul l (of_Z 2)) b) (of_Z 3)) = true ->
   (Qabs (R (div (add (mul l (of_Z 2)) b) (of_Z 3))) < inject_Z (10 ^ 21))%Q ->
   exists n : Z,
     calculateAmbientTemp l b
       = sign_of (div (add (mul l (of_Z 2)) b) (of_Z 3)) ++ tenths n /\
     (inject_Z n - (1 # 2) <= Qabs (R (div (add (mul l (of_Z 2)) b) (of_Z 3))) * 10 /\
      Qabs (R (div (add (mul l (of_Z 2)) b) (of_Z 3))) * 10 < inject_Z n + (1 # 2))%Q) /\
  (forall zl zb : Z,
     l = of_Z zl -> b = of_Z zb -> Z.abs zl < 2 ^ 46 -> Z.abs zb < 2 ^ 46 ->
     calculateAmbientTemp l b =
       (if 2 * zl + zb <? 0 then "-" else "") ++
       tenths (nearest_scaled (Qabs ((2 * inject_Z zl + inject_Z zb) / 3)) 1)) /\
  calculateAmbientTemp (of_Z 22) (of_Z 25) = "23.0" /\
  ToNumber (calculateAmbientTemp (of_Z 22) (of_Z 25)) = of_Z 23.
Proof.
  split; [reflexivity|]. split; [| split; [| split; reflexivity]].
  - intros Hf Hlt. unfold calculateAmbientTemp. now apply toFixed1_rounds.
  - intros zl zb -> -> Hl Hb. now apply ambient_exact.
Qed.

Lemma ambient_rounded_witness :
  calculateAmbientTemp (of_Z 28) (of_Z 35) = "30.3".
Proof.
  exact (proj1 (proj2 (proj2 (ambient_rounded (of_Z 28) (of_Z 35))))
           28 35 eq_refl eq_refl eq_refl eq_refl).
Defined.

(** C2, the claim as stated fails on finite inputs.  For the Numbers 0.01
    and 0.73 the sum [l * 2 + b] rounds to 0.75 and the result is 0.3,
    while the exact [(2 l + b) / 3] is below 0.25 and rounds to 0.2; for
    1e308 twice the product [l * 2] overflows and the result is Infinity,
    while the exact [(2 l + b) / 3] is 1e308 itself. *)
Lemma ambient_differs_from_exact :
  let l := of_ratio 1 100 in
  let b := of_ratio 73 100 in
  let big := of_Z (10 ^ 308) in
  (is_number l /\ is_finite l = true) /\ (is_number b /\ is_finite b = true) /\
  calculateAmbientTemp l b = "0.3" /\
  nearest_scaled (Qabs ((2 * R l + R b) / 3)) 1 = 2 /\
  (is_number big /\ is_finite big = true) /\
  calculateAmbientTemp big big = "Infinity" /\
  ((2 * R big + R big) / 3 == R big)%Q.
Proof.
  cbv zeta. repeat split; vm_compute; reflexivity.
Qed.

Lemma getTrend_last2 (s : list Sample) (p q : Sample) (key : Key) :
  getTrend (s ++ [p; q]) key =
    Normal {| direction := if gt (get q key) (get p key) then "up" else "down";
              change := toFixed (Math_abs (sub (get q key) (get p key))) 1 |}.
Proof.
  unfold getTrend. destruct (index_last2 s p q) as [-> ->]. reflexivity.
Qed.


(** C4, the claim as stated fails: on the empty series [calculateStats]
    returns a value. *)
Lemma empty_stats_returned :
  exists st : Stats,
    (Normal (calculateStats [] LocalTemp) : completion Stats) = Normal st /\
    st = {| min := pInfinity; max := nInfinity; avg := "NaN" |}.
Proof. eexists. split; reflexivity. Qed.

(** C4, amended. On the empty series [calculateStats] returns the minimum
    [Infinity], the maximum [-Infinity] and the average ["NaN"], for
    either key, and the alert effect throws a TypeError. *)
Theorem empty_series (key : Key) (w : World) :
  calculateStats [] key = {| min := pInfinity; max := nInfinity; avg := "NaN" |} /\
  useEffect_alerts [] w = Throw TypeError.
Proof. split; reflexivity. Qed.

(** C5, the claim as stated fails: for the single value 0.375 the average
    is printed as 0.4, which is not the value. *)
Lemma singleton_avg_differs :
  let item := {| time := "12:00"; localTemp := of_ratio 3 8; batteryTemp := of_ratio 3 8 |} in
  let st := calculateStats [item] LocalTemp in
  min st = of_ratio 3 8 /\ max st = of_ratio 3 8 /\ avg st = "0.4" /\
  ToNumber (avg st) <> min st /\ Number.eqb (ToNumber (avg st)) (min st) = false.
Proof.
  cbv zeta. repeat split; try reflexivity.
  vm_compute. discriminate.
Qed.

Lemma singleton_avg (v : number) :
  is_number v -> toFixed (div (sum [v]) (of_Z (length_Z [v]))) 1 = toFixed v 1.
Proof.
  intros Hv. unfold sum. cbn [fold_left]. change (length_Z [v]) with 1.
  destruct v as [[|] | [|] | | sg m e]; try reflexivity.
  change (add (of_Z 0) (S754_finite sg m e)) with (S754_finite sg m e).
  now rewrite div_one.
Qed.

(** C5, amended. For a series of exactly one sample, whose value is a
    Number, [calculateStats] returns that value as minimum and maximum and
    its rendering with one decimal as average, which reads back as the
    value when the value is an integer below 2^53; [getTrend] throws a
    TypeError on a series of one sample and on the empty series. *)
Theorem singleton_series (item : Sample) (key : Key) :
  is_number (get item key) ->
  min (calculateStats [item] key) = get item key /\
  max (calculateStats [item] key) = get item key /\
  avg (calculateStats [item] key) = toFixed (get item key) 1 /\
  (forall z : Z, get item key = of_Z z -> Z.abs z < 2 ^ 53 ->
     Number.eqb (ToNumber (avg (calculateStats [item] key))) (get item key) = true) /\
  getTrend [item] key = Throw TypeError /\
  getTrend [] key = Throw TypeError.
Proof.
  intros Hv. unfold calculateStats. cbn [map min max avg].
  rewrite Math_min_singleton, Math_max_singleton.
  split; [reflexivity|]. split; [reflexivity|].
  split; [now apply singleton_avg|].
  split; [| split; reflexivity].
  intros z Ez Hz. fold (mean [get item key]). rewrite Ez.
  destruct (integer_average_between [z]) as [Hlo Hhi].
  - discriminate.
  - unfold total_magnitude. cbn [fold_right]. lia.
  - reflexivity.
  - cbn [map] in Hlo, Hhi.
    rewrite Math_min_singleton in Hlo. rewrite Math_max_singleton in Hhi.
    now apply le_antisym.
Qed.

Lemma singleton_series_witness :
  min (calculateStats [sample "00:00" 22 25] BatteryTemp) = of_Z 25 /\
  max (calculateStats [sample "00:00" 22 25] BatteryTemp) = of_Z 25 /\
  avg (calculateStats [sample "00:00" 22 25] BatteryTemp) = "25.0" /\
  Number.eqb (ToNumber (avg (calculateStats [sample "00:00" 22 25] BatteryTemp)))
             (of_Z 25) = true /\
  getTrend [sample "00:00" 22 25] BatteryTemp = Throw TypeError /\
  getTrend [] BatteryTemp = Throw TypeError.
Proof.
  destruct (singleton_series (sample "00:00" 22 25) BatteryTemp)
    as (H1 & H2 & H3 & H4 & H5 & H6); [reflexivity|].
  split; [exact H1|]. split; [exact H2|]. split; [exact H3|].
  split; [apply (H4 25); reflexivity|]. split; assumption.
Defined.

(** C6, the claim as stated fails: for the single value 0.375 the average
    0.4 is above the maximum. *)
Lemma avg_above_max :
  let item := {| time := "12:00"; localTemp := of_ratio 3 8; batteryTemp := of_ratio 3 8 |} in
  let st := calculateStats [item] BatteryTemp in
  max st = of_ratio 3 8 /\ avg st = "0.4" /\
  le (ToNumber (avg st)) (max st) = false.
Proof. cbv zeta. repeat split; reflexivity. Qed.

Lemma values_of_nonempty (data : list Sample) (key : Key) :
  data <> [] -> values_of data key <> [].
Proof. destruct data; [congruence | discriminate]. Qed.

(** C6, amended. For a non-empty series without NaN, the minimum and the
    maximum are values of the series, kept as they are, every value lies
    between them, and the average is the mean (the left-to-right sum
    divided by the length, in double precision) printed with one decimal:
    the numeral of the number of tenths nearest to the mean, when the mean
    is finite and below 10^21.  When the values are integers whose
    magnitudes add up to less than 2^53, the average lies between the
    minimum and the maximum. *)
Theorem stats_bounds (data : list Sample) (key : Key) :
  data <> [] -> no_nan (values_of data key) ->
  In (min (calculateStats data key)) (values_of data key) /\
  In (max (calculateStats data key)) (values_of data key) /\
  (forall v, In v (values_of data key) ->
     le (min (calculateStats data key)) v = true /\
     le v (max (calculateStats data key)) = true) /\
  le (min (calculateStats data key)) (max (calculateStats data key)) = true /\
  avg (calculateStats data key) = toFixed (mean (values_of data key)) 1 /\
  (is_finite (mean (values_of data key)) = true ->
   (Qabs (R (mean (values_of data key))) < inject_Z (10 ^ 21))%Q ->
   exists n : Z,
     avg (calculateStats data key) = sign_of (mean (values_of data key)) ++ tenths n /\
     (inject_Z n - (1 # 2) <= Qabs (R (mean (values_of data key))) * 10 /\
      Qabs (R (mean (values_of data key))) * 10 < inject_Z n + (1 # 2))%Q) /\
  (forall zs : list Z,
     values_of data key = map of_Z zs ->
     total_magnitude zs < 2 ^ 53 -> length_Z data < 2 ^ 53 ->
     le (min (calculateStats data key)) (ToNumber (avg (calculateStats data key))) = true /\
     le (ToNumber (avg (calculateStats data key))) (max (calculateStats data key)) = true).
Proof.
  intros Hne Hv. unfold calculateStats. cbn [min max avg].
  fold (values_of data key). fold (mean (values_of data key)).
  pose proof (values_of_nonempty data key Hne) as Hne'.
  destruct (Math_min_spec _ Hne' Hv) as [Hmin Hlow].
  destruct (Math_max_spec _ Hne' Hv) as [Hmax Hhigh].
  split; [exact Hmin|]. split; [exact Hmax|].
  split; [intros v Hin; split; [now apply Hlow | now apply Hhigh]|].
  split; [now apply Hlow|]. split; [reflexivity|]. split.
  - intros Hf Hlt. now apply toFixed1_rounds.
  - intros zs Hzs Hmag Hlen. rewrite Hzs. apply integer_average_between.
    + intros ->. rewrite Hzs in Hne'. now apply Hne'.
    + assumption.
    + unfold length_Z in Hlen. rewrite <- (length_map of_Z zs), <- Hzs.
      unfold values_of. now rewrite length_map.
Qed.

Lemma stats_bounds_witness :
  In (min (calculateStats initialData LocalTemp)) (values_of initialData LocalTemp) /\
  In (max (calculateStats initialData LocalTemp)) (values_of initialData LocalTemp) /\
  (forall v, In v (values_of initialData LocalTemp) ->
     le (min (calculateStats initialData LocalTemp)) v = true /\
     le v (max (calculateStats initialData LocalTemp)) = true) /\
  le (min (calculateStats initialData LocalTemp))
     (max (calculateStats initialData LocalTemp)) = true /\
  avg (calculateStats initialData LocalTemp) = "23.5" /\
  le (min (calculateStats initialData LocalTemp))
     (ToNumber (avg (calculateStats initialData LocalTemp))) = true /\
  le (ToNumber (avg (calculateStats initialData LocalTemp)))
     (max (calculateStats initialData LocalTemp)) = true.
Proof.
  destruct (stats_bounds initialData LocalTemp) as (H1 & H2 & H3 & H4 & H5 & _ & H7).
  - discriminate.
  - repeat constructor.
  - destruct (H7 [22; 21; 20; 23; 26; 28; 25; 23]) as [H8 H9];
      [reflexivity | reflexivity | reflexivity |].
    repeat split; try assumption; apply H3; assumption.
Defined.

(** C7, the claim as stated fails: the sum is accumulated from left to
    right in double precision, so the average of 17.0, 32.8, 17.7, 16.7
    is printed as 21.1 and that of 17.7, 16.7, 17.0, 32.8 as 21.0. *)
Lemma avg_depends_on_order :
  let reading t n := {| time := t; localTemp := tenth_literal n;
                        batteryTemp := tenth_literal n |} in
  let data := [reading "00:00" 170; reading "03:00" 328;
               reading "06:00" 177; reading "09:00" 167] in
  let data' := [reading "06:00" 177; reading "09:00" 167;
                reading "00:00" 170; reading "03:00" 328] in
  Permutation data data' /\
  avg (calculateStats data LocalTemp) = "21.1" /\
  avg (calculateStats data' LocalTemp) = "21.0" /\
  calculateStats data LocalTemp <> calculateStats data' LocalTemp.
Proof.
  cbv zeta. split; [| split; [| split]].
  - apply (Permutation_app_comm [_; _] [_; _]).
  - vm_compute. reflexivity.
  - vm_compute. reflexivity.
  - intros H. apply (f_equal avg) in H. vm_compute in H. discriminate.
Qed.

Lemma values_of_Permutation (data data' : list Sample) (key : Key) :
  Permutation data data' -> Permutation (values_of data key) (values_of data' key).
Proof. intros H. now apply Permutation_map. Qed.

(** C7, amended. Reordering a series changes neither the minimum nor the
    maximum.  It does not change the average either when the values are
    integers whose magnitudes add up to less than 2^53, for then the sum
    is exact. *)
Theorem stats_reordering (data data' : list Sample) (key : Key) :
  Permutation data data' ->
  min (calculateStats data key) = min (calculateStats data' key) /\
  max (calculateStats data key) = max (calculateStats data' key) /\
  (forall zs : list Z,
     values_of data key = map of_Z zs -> total_magnitude zs < 2 ^ 53 ->
     calculateStats data key = calculateStats data' key).
Proof.
  intros Hp. pose proof (values_of_Permutation data data' key Hp) as Hv.
  unfold calculateStats. cbn [min max]. fold (values_of data key) (values_of data' key).
  pose proof (Math_min_Permutation _ _ Hv) as Emin.
  pose proof (Math_max_Permutation _ _ Hv) as Emax.
  split; [assumption | split; [assumption|]].
  intros zs Hzs Hmag. rewrite Emin, Emax. f_equal.
  rewrite Hzs in Hv. apply Permutation_sym in Hv.
  destruct (Permutation_map_inv _ _ Hv) as (zs' & Hzs' & Hperm).
  rewrite Hzs, Hzs'.
  rewrite (sum_of_Z zs) by assumption.
  rewrite (sum_of_Z zs') by (rewrite <- (total_magnitude_Permutation _ _ Hperm); assumption).
  rewrite <- (fold_add_Permutation _ _ Hperm).
  unfold length_Z. rewrite !length_map.
  now rewrite (Permutation_length Hperm).
Qed.

Lemma stats_reordering_witness :
  calculateStats [sample "15:00" 28 35; sample "18:00" 25 30] BatteryTemp =
  calculateStats [sample "18:00" 25 30; sample "15:00" 28 35] BatteryTemp.
Proof.
  destruct (stats_reordering [sample "15:00" 28 35; sample "18:00" 25 30]
              [sample "18:00" 25 30; sample "15:00" 28 35] BatteryTemp
              (perm_swap _ _ _)) as (_ & _ & H).
  apply (H [35; 30]).
  - reflexivity.
  - reflexivity.
Defined.

(** * Further properties of the component

    Edge behaviour of the helpers on NaN, how the statistics move when a
    sample is appended, exact results on integer readings, and how the
    rendered view relates to the helpers and to the alert effect. *)

Lemma abs_binary_round_aux (s s' : bool) (m e : Z) (l : location) :
  abs (binary_round_aux prec emax s m e l) = abs (binary_round_aux prec emax s' m e l).
Proof.
  unfold binary_round_aux.
  destruct (shr_fexp prec emax m e l) as [mrs' e'].
  destruct (shr_fexp prec emax _ e' loc_Exact) as [mrs'' e''].
  destruct (shr_m mrs''); try reflexivity.
  destruct (e'' <=? emax - prec); reflexivity.
Qed.

Lemma abs_binary_normalize_opp (m e : Z) :
  abs (binary_normalize prec emax (- m) e false) = abs (binary_normalize prec emax m e false).
Proof.
  unfold binary_normalize, binary_round.
  destruct m as [| p | p]; cbn [Z.opp]; try reflexivity;
    destruct (shl_align p e _) as [mz ez];
    apply abs_binary_round_aux.
Qed.

(** The magnitude of a difference does not depend on the order of the
    operands. *)
Lemma abs_sub_sym (x y : number) : abs (sub x y) = abs (sub y x).
Proof.
  unfold sub, SFsub.
  destruct x as [sx | sx | | sx mx ex], y as [sy | sy | | sy my ey];
    try reflexivity;
    try (destruct sx, sy; reflexivity).
  rewrite (Z.min_comm ey ex).
  rewrite <- abs_binary_normalize_opp. f_equal. f_equal. lia.
Qed.

Lemma lt_asym (x y : number) : lt x y = true -> lt y x = false.
Proof.
  intros H.
  assert (Nx : is_nan x = false) by (destruct x, y; try discriminate; reflexivity).
  assert (Ny : is_nan y = false) by (destruct x, y; try discriminate; reflexivity).
  apply lt_false_rank; auto. apply lt_rank in H; auto.
  intros H'. eapply rank_lt_asym; eassumption.
Qed.

Lemma add_nan_l (x : number) : add NaN x = NaN.
Proof. reflexivity. Qed.

Lemma add_nan_r (x : number) : add x NaN = NaN.
Proof. destruct x; reflexivity. Qed.

Lemma fold_add_nan (values : list number) :
  fold_left (fun a b => add a b) values NaN = NaN.
Proof. induction values as [| v rest IH]; [reflexivity | exact IH]. Qed.

Lemma sum_nan (values : list number) :
  Exists (fun v => is_nan v = true) values ->
  forall a, fold_left (fun a b => add a b) values a = NaN.
Proof.
  induction 1 as [v rest Hv | v rest _ IH]; intros a; cbn [fold_left].
  - destruct v; try discriminate. rewrite add_nan_r. apply fold_add_nan.
  - apply IH.
Qed.

Lemma Exists_nan_opp (values : list number) :
  Exists (fun v => is_nan v = true) values ->
  Exists (fun v => is_nan v = true) (map opp values).
Proof.
  induction 1 as [v rest Hv | v rest _ IH]; cbn [map].
  - left. now rewrite is_nan_opp.
  - now right.
Qed.

Lemma Math_max_nan (values : list number) :
  Exists (fun v => is_nan v = true) values -> Math_max values = NaN.
Proof.
  intros H. rewrite Math_max_Math_min. unfold Math_min.
  now rewrite (min_loop_nan _ _ (Exists_nan_opp _ H)).
Qed.

(** X1. As soon as one value of the series is NaN, [calculateStats]
    returns NaN as minimum and as maximum and "NaN" as average. *)
Theorem stats_nan (data : list Sample) (key : Key) :
  Exists (fun item => is_nan (get item key) = true) data ->
  calculateStats data key = {| min := NaN; max := NaN; avg := "NaN" |}.
Proof.
  intros H.
  assert (Hv : Exists (fun v => is_nan v = true) (map (fun item => get item key) data)).
  { apply Exists_exists in H as (item & Hin & Hn). apply Exists_exists.
    exists (get item key). split; [|assumption].
    now apply (in_map (fun item => get item key)). }
  unfold calculateStats. f_equal.
  - now apply min_loop_nan.
  - now apply Math_max_nan.
  - unfold sum. now rewrite (sum_nan _ Hv).
Qed.

Lemma stats_nan_witness :
  calculateStats [sample "00:00" 22 25;
                  {| time := "03:00"; localTemp := NaN; batteryTemp := of_Z 24 |};
                  sample "06:00" 20 23] LocalTemp
  = {| min := NaN; max := NaN; avg := "NaN" |}.
Proof.
  apply stats_nan. right. left. reflexivity.
Defined.

Lemma min_loop_app (l1 l2 : list number) :
  no_nan l1 -> forall lowest,
  min_loop lowest (l1 ++ l2) = min_loop (min_loop lowest l1) l2.
Proof.
  induction 1 as [| v rest Hv _ IH]; intros lowest; [reflexivity|].
  cbn [app]. rewrite !min_loop_cons, Hv. apply IH.
Qed.

Lemma no_nan_app (l1 l2 : list number) :
  no_nan (l1 ++ l2) <-> no_nan l1 /\ no_nan l2.
Proof. apply Forall_app. Qed.

Lemma Math_min_snoc (values : list number) (x : number) :
  no_nan (values ++ [x]) ->
  Math_min (values ++ [x]) = min_step (Math_min values) x /\
  is_nan (Math_min values) = false /\ is_nan x = false.
Proof.
  intros H. apply no_nan_app in H as [H1 H2].
  unfold Math_min. rewrite min_loop_app by assumption.
  rewrite min_loop_cons. inversion H2 as [| ? ? Hx _]; subst. rewrite Hx.
  repeat split; try assumption.
  now destruct (min_loop_least values pInfinity eq_refl H1).
Qed.

Lemma Math_min_append (values : list number) (x : number) :
  no_nan (values ++ [x]) ->
  le (Math_min (values ++ [x])) (Math_min values) = true /\
  le (Math_min (values ++ [x])) x = true /\
  (Math_min (values ++ [x]) = Math_min values \/ Math_min (values ++ [x]) = x).
Proof.
  intros H. destruct (Math_min_snoc values x H) as (-> & Hm & Hx).
  destruct (min_step_lower _ _ Hm Hx) as [L1 L2].
  pose proof (min_step_not_nan _ _ Hm Hx) as Hs.
  split; [now apply le_not_lt|]. split; [now apply le_not_lt|].
  apply min_step_cases.
Qed.

Lemma opp_inj (x y : number) : opp x = opp y -> x = y.
Proof. intros H. rewrite <- (opp_involutive x), <- (opp_involutive y). now f_equal. Qed.

Lemma Math_max_append (values : list number) (x : number) :
  no_nan (values ++ [x]) ->
  le (Math_max values) (Math_max (values ++ [x])) = true /\
  le x (Math_max (values ++ [x])) = true /\
  (Math_max (values ++ [x]) = Math_max values \/ Math_max (values ++ [x]) = x).
Proof.
  intros H. rewrite !Math_max_Math_min, map_app. cbn [map].
  assert (H' : no_nan (map opp values ++ [opp x])).
  { change [opp x] with (map opp [x]). rewrite <- map_app. now apply no_nan_opp. }
  destruct (Math_min_append _ _ H') as (L1 & L2 & E).
  rewrite le_opp. split; [assumption|]. split.
  - rewrite <- (opp_involutive x) at 1. now rewrite le_opp.
  - destruct E as [-> | ->]; [now left | right; apply opp_involutive].
Qed.

(** X2. Appending a sample to a series without NaN can only lower the
    minimum and raise the maximum: the new minimum is the old one or the
    new value, whichever is not above the other, and likewise for the
    maximum. *)
Theorem stats_append (data : list Sample) (x : Sample) (key : Key) :
  no_nan (values_of (data ++ [x]) key) ->
  let old := calculateStats data key in
  let new := calculateStats (data ++ [x]) key in
  le (min new) (min old) = true /\ le (min new) (get x key) = true /\
  (min new = min old \/ min new = get x key) /\
  le (max old) (max new) = true /\ le (get x key) (max new) = true /\
  (max new = max old \/ max new = get x key).
Proof.
  unfold values_of. rewrite map_app. cbn [map]. intros H. cbv zeta.
  unfold calculateStats. cbn [min max]. rewrite map_app. cbn [map].
  destruct (Math_min_append _ _ H) as (A1 & A2 & A3).
  destruct (Math_max_append _ _ H) as (B1 & B2 & B3).
  repeat split; assumption.
Qed.

Lemma stats_append_witness :
  let old := calculateStats initialData BatteryTemp in
  let new := calculateStats (initialData ++ [sample "24:00" 19 36]) BatteryTemp in
  le (min new) (min old) = true /\ le (min new) (of_Z 36) = true /\
  (min new = min old \/ min new = of_Z 36) /\
  le (max old) (max new) = true /\ le (of_Z 36) (max new) = true /\
  (max new = max old \/ max new = of_Z 36).
Proof.
  apply (stats_append initialData (sample "24:00" 19 36) BatteryTemp).
  repeat constructor.
Defined.
(** X3. The change that [getTrend] reports does not depend on the order of
    the last two samples, and the two orders are never both reported as
    a rise. *)
Theorem trend_reversal (s : list Sample) (p q : Sample) (key : Key) :
  exists t t' : Trend,
    getTrend (s ++ [p; q]) key = Normal t /\
    getTrend (s ++ [q; p]) key = Normal t' /\
    change t = change t' /\
    ~ (direction t = "up" /\ direction t' = "up").
Proof.
  rewrite !getTrend_last2. eexists. eexists.
  split; [reflexivity|]. split; [reflexivity|]. cbn [change direction].
  split.
  - unfold Math_abs. now rewrite abs_sub_sym.
  - intros [H1 H2].
    destruct (gt (get q key) (get p key)) eqn:E; [|discriminate H1].
    change (gt (get p key) (get q key)) with (lt (get q key) (get p key)) in H2.
    rewrite (lt_asym (get p key) (get q key) E) in H2. discriminate H2.
Qed.

Lemma sub_nan (x y : number) :
  is_nan x = true \/ is_nan y = true -> sub x y = NaN.
Proof.
  intros [H | H]; [destruct x; try discriminate; reflexivity|].
  destruct y; try discriminate. destruct x; reflexivity.
Qed.

Lemma lt_nan (x y : number) :
  is_nan x = true \/ is_nan y = true -> lt x y = false.
Proof.
  intros [H | H]; [destruct x; try discriminate; reflexivity|].
  destruct y; try discriminate. destruct x; reflexivity.
Qed.

(** X4. When one of the last two values is NaN, [getTrend] reports a fall
    of "NaN". *)
Theorem trend_nan (s : list Sample) (p q : Sample) (key : Key) :
  is_nan (get p key) = true \/ is_nan (get q key) = true ->
  getTrend (s ++ [p; q]) key = Normal {| direction := "down"; change := "NaN" |}.
Proof.
  intros H. rewrite getTrend_last2. unfold gt, Math_abs.
  rewrite lt_nan by assumption.
  rewrite sub_nan by (destruct H; [right | left]; assumption).
  reflexivity.
Qed.

Lemma trend_nan_witness :
  getTrend ([sample "00:00" 22 25] ++
            [sample "03:00" 21 24;
             {| time := "06:00"; localTemp := of_Z 20; batteryTemp := NaN |}])
           BatteryTemp
  = Normal {| direction := "down"; change := "NaN" |}.
Proof.
  apply trend_nan. right. reflexivity.
Defined.

(** X5. A run of the alert effect reads the clock once for each alert it
    returns, and returns at most two alerts; it leaves the readings to
    come as they were. *)
Theorem effect_clock_reads (data : list Sample) (w w' : World) (newAlerts : list Alert) :
  useEffect_alerts data w = Normal (newAlerts, w') ->
  readings w' = readings w /\
  taken w' = (taken w + List.length newAlerts)%nat /\
  (List.length newAlerts <= 2)%nat.
Proof.
  destruct data as [| d data'] eqn:E.
  - rewrite useEffect_alerts_empty. discriminate.
  - assert (Hne : data <> []) by (subst; discriminate).
    destruct (nonempty_last data Hne) as (s & x & Es). rewrite <- E, Es.
    rewrite useEffect_alerts_last. cbv zeta.
    destruct (battery_high x), (differential_large x);
      intros H; injection H as <- <-; cbn [readings taken List.length];
      repeat split; lia.
Qed.

Lemma effect_clock_reads_witness :
  exists newAlerts w',
    useEffect_alerts [sample "18:00" 20 32]
      {| readings := fun _ => 1700000000000; taken := 5 |} = Normal (newAlerts, w') /\
    taken w' = 7%nat /\ List.length newAlerts = 2%nat.
Proof.
  eexists. eexists. split; [reflexivity|].
  destruct (effect_clock_reads [sample "18:00" 20 32]
              {| readings := fun _ => 1700000000000; taken := 5 |} _ _ eq_refl)
    as (_ & H & _).
  split; [exact H | reflexivity].
Defined.
Lemma latest_last (s : list Sample) (x : Sample) (k : Key) :
  latest (s ++ [x]) k = Normal (get x k).
Proof. unfold latest. now rewrite index_last. Qed.

Lemma systemStatus_last (s : list Sample) (x : Sample) :
  systemStatus (s ++ [x]) =
    Normal {| batteryStatusClass :=
                "px-2 py-1 rounded-full text-xs " ++
                (if battery_high x
                 then "bg-red-100 text-red-800" else "bg-green-100 text-green-800");
              batteryStatusText := if battery_high x then "Warning" else "Normal";
              differentialClass :=
                "px-2 py-1 rounded-full text-xs " ++
                (if differential_large x
                 then "bg-yellow-100 text-yellow-800" else "bg-green-100 text-green-800");
              differentialText :=
                toFixed (Math_abs (sub (batteryTemp x) (localTemp x))) 1 |}.
Proof. unfold systemStatus. rewrite !latest_last. reflexivity. Qed.

Lemma two_last {A : Type} (data : list A) :
  (2 <= List.length data)%nat -> exists s p q, data = (s ++ [p; q])%list.
Proof.
  intros H.
  destruct (nonempty_last data) as (s1 & q & E1); [destruct data; [simpl in H; lia | discriminate]|].
  subst data. rewrite length_app in H. simpl in H.
  destruct (nonempty_last s1) as (s & p & E2); [destruct s1; [simpl in H; lia | discriminate]|].
  subst s1. exists s, p, q. now rewrite <- app_assoc.
Qed.

Lemma App_last2 (s : list Sample) (p q : Sample) (tr : string) (al : list Alert) :
  let data := (s ++ [p; q])%list in
  App {| temperatureData := data; timeRange := tr; alerts := al |} =
  Normal
    {| button24hClass :=
         "px-3 py-1 rounded-md " ++
         (if String.eqb tr "24h" then "bg-blue-500 text-white" else "bg-gray-100");
       button7dClass :=
         "px-3 py-1 rounded-md " ++
         (if String.eqb tr "7d" then "bg-blue-500 text-white" else "bg-gray-100");
       alertsShown :=
         if length_Z al >? 0
         then Some (map (fun alert => {| key := id alert; text := message alert |}) al)
         else None;
       chartData := data;
       localCard :=
         StatCard.render
           {| StatCard.title := "Local Temperature";
              StatCard.value := avg (calculateStats data LocalTemp);
              StatCard.icon := Thermometer;
              StatCard.trend :=
                Some {| direction := if gt (localTemp q) (localTemp p) then "up" else "down";
                        change := toFixed (Math_abs (sub (localTemp q) (localTemp p))) 1 |};
              StatCard.color := "text-blue-500" |};
       batteryCard :=
         StatCard.render
           {| StatCard.title := "Battery Temperature";
              StatCard.value := avg (calculateStats data BatteryTemp);
              StatCard.icon := Battery;
              StatCard.trend :=
                Some {| direction := if gt (batteryTemp q) (batteryTemp p) then "up" else "down";
                        change := toFixed (Math_abs (sub (batteryTemp q) (batteryTemp p))) 1 |};
              StatCard.color := "text-red-500" |};
       ambientCard :=
         StatCard.render
           {| StatCard.title := "Ambient Temperature";
              StatCard.value := calculateAmbientTemp (localTemp q) (batteryTemp q);
              StatCard.icon := Wind;
              StatCard.trend := None;
              StatCard.color := "text-emerald-500" |};
       localStats := calculateStats data LocalTemp;
       batteryStats := calculateStats data BatteryTemp;
       status :=
         {| batteryStatusClass :=
              "px-2 py-1 rounded-full text-xs " ++
              (if battery_high q
               then "bg-red-100 text-red-800" else "bg-green-100 text-green-800");
            batteryStatusText := if battery_high q then "Warning" else "Normal";
            differentialClass :=
              "px-2 py-1 rounded-full text-xs " ++
              (if differential_large q
               then "bg-yellow-100 text-yellow-800" else "bg-green-100 text-green-800");
            differentialText :=
              toFixed (Math_abs (sub (batteryTemp q) (localTemp q))) 1 |} |}.
Proof.
  cbv zeta. unfold App. cbn [temperatureData timeRange alerts].
  rewrite !getTrend_last2. cbn [bind_completion].
  replace (s ++ [p; q])%list with ((s ++ [p]) ++ [q])%list by now rewrite <- app_assoc.
  rewrite !latest_last, systemStatus_last. cbn [bind_completion get].
  reflexivity.
Qed.

Lemma App_short (st : AppState) :
  (List.length (temperatureData st) < 2)%nat -> App st = Throw TypeError.
Proof.
  destruct st as [data tr al]. cbn [temperatureData]. intros H.
  destruct data as [| x [| y rest]]; [reflexivity | reflexivity | simpl in H; lia].
Qed.

(** X6. [App] renders exactly when the series has at least two samples:
    with fewer it throws the TypeError of reading a property of
    undefined, and otherwise it returns a view that charts the whole
    series. *)
Theorem App_renders (st : AppState) :
  ((List.length (temperatureData st) < 2)%nat -> App st = Throw TypeError) /\
  ((2 <= List.length (temperatureData st))%nat ->
   exists v, App st = Normal v /\ chartData v = temperatureData st).
Proof.
  split; [apply App_short|].
  destruct st as [data tr al]. cbn [temperatureData]. intros H.
  destruct (two_last data H) as (s & p & q & ->).
  eexists. split; [apply App_last2 | reflexivity].
Qed.

(** X7. Once the effect has run on a series that renders, the banner and
    the System Status card agree: the banner shows the battery alert
    exactly when the status reads Warning, it shows the differential
    alert exactly when the differential badge is yellow, and there is no
    banner exactly when the status reads Normal and the badge is green. *)
Theorem banner_agrees_with_status
    (s : list Sample) (p q : Sample) (tr : string) (old : list Alert) (w : World) :
  exists st' w' v,
    runEffect {| temperatureData := s ++ [p; q]; timeRange := tr; alerts := old |} w
      = Normal (st', w') /\
    App st' = Normal v /\
    (batteryStatusText (status v) = "Warning" <->
     exists shown, alertsShown v = Some shown /\ In battery_message (map text shown)) /\
    (differentialClass (status v) = "px-2 py-1 rounded-full text-xs bg-yellow-100 text-yellow-800" <->
     exists shown, alertsShown v = Some shown /\ In differential_message (map text shown)) /\
    (alertsShown v = None <->
     batteryStatusText (status v) = "Normal" /\
     differentialClass (status v) = "px-2 py-1 rounded-full text-xs bg-green-100 text-green-800").
Proof.
  unfold runEffect, bind, ret. cbn [temperatureData timeRange].
  replace (s ++ [p; q])%list with ((s ++ [p]) ++ [q])%list by now rewrite <- app_assoc.
  rewrite useEffect_alerts_last. cbv zeta.
  replace ((s ++ [p]) ++ [q])%list with (s ++ [p; q])%list by now rewrite <- app_assoc.
  destruct (battery_high q) eqn:Eb, (differential_large q) eqn:Ed;
    eexists; eexists; eexists;
    (split; [reflexivity|]);
    (split; [apply App_last2|]);
    cbn [status alertsShown batteryStatusText differentialClass];
    rewrite Eb, Ed; cbn;
    (split; [|split]); split;
    try (intros (shown & [= <-] & Hin); cbn in Hin);
    try (intros [H1 H2]);
    try intros H;
    try discriminate; try reflexivity;
    try (eexists; split; [reflexivity|]; cbn; tauto);
    try (split; reflexivity);
    try (exfalso; message_cases).
Qed.
(** X8. The tooltip callback returns null when the tooltip is not
    active or the payload is missing or empty, throws a TypeError
    exactly when it is active with a payload of a single entry, and
    otherwise shows the first two values and the ambient estimate
    computed from them. *)
Theorem tooltip_content (p : Tooltip.Props) :
  (Tooltip.content p = Normal None <->
   Tooltip.active p = false \/ Tooltip.payload p = None \/ Tooltip.payload p = Some []) /\
  (Tooltip.content p = Throw TypeError <->
   Tooltip.active p = true /\ exists e, Tooltip.payload p = Some [e]) /\
  (forall e0 e1 rest,
     Tooltip.active p = true -> Tooltip.payload p = Some (e0 :: e1 :: rest) ->
     Tooltip.content p =
       Normal (Some {| Tooltip.labelShown := Tooltip.label p;
                       Tooltip.localShown := Tooltip.value e0;
                       Tooltip.batteryShown := Tooltip.value e1;
                       Tooltip.ambientShown :=
                         calculateAmbientTemp (Tooltip.value e0) (Tooltip.value e1) |})).
Proof.
  destruct p as [[|] [[| e0 [| e1 rest]] |] lbl];
    cbn [Tooltip.active Tooltip.payload Tooltip.label];
    repeat split; intros;
    repeat match goal with
    | H : _ /\ _ |- _ => destruct H
    | H : _ \/ _ |- _ => destruct H
    | H : exists _, _ |- _ => destruct H
    end;
    try discriminate; try reflexivity; eauto;
    match goal with
    | H : Some _ = Some _ |- _ => injection H as <- <- <-; reflexivity
    end.
Qed.


(** X10. On the cards of a series that renders, the arrow of a
    temperature points up, in red, exactly when the last value is greater
    than the one before, and down, in green, otherwise; the ambient card
    has no trend and shows the estimate for the last sample. *)
Theorem card_trends (s : list Sample) (p q : Sample) (tr : string) (al : list Alert) :
  exists v,
    App {| temperatureData := s ++ [p; q]; timeRange := tr; alerts := al |} = Normal v /\
    StatCard.trendView (localCard v) =
      Some (if gt (localTemp q) (localTemp p)
            then {| StatCard.trendClass := "flex items-center text-sm text-red-500";
                    StatCard.arrow := ArrowUp;
                    StatCard.trendChange :=
                      toFixed (Math_abs (sub (localTemp q) (localTemp p))) 1 |}
            else {| StatCard.trendClass := "flex items-center text-sm text-green-500";
                    StatCard.arrow := ArrowDown;
                    StatCard.trendChange :=
                      toFixed (Math_abs (sub (localTemp q) (localTemp p))) 1 |}) /\
    StatCard.trendView (batteryCard v) =
      Some (if gt (batteryTemp q) (batteryTemp p)
            then {| StatCard.trendClass := "flex items-center text-sm text-red-500";
                    StatCard.arrow := ArrowUp;
                    StatCard.trendChange :=
                      toFixed (Math_abs (sub (batteryTemp q) (batteryTemp p))) 1 |}
            else {| StatCard.trendClass := "flex items-center text-sm text-green-500";
                    StatCard.arrow := ArrowDown;
                    StatCard.trendChange :=
                      toFixed (Math_abs (sub (batteryTemp q) (batteryTemp p))) 1 |}) /\
    StatCard.trendView (ambientCard v) = None /\
    StatCard.valueText (ambientCard v) = calculateAmbientTemp (localTemp q) (batteryTemp q).
Proof.
  eexists. split; [apply App_last2|].
  cbn [localCard batteryCard ambientCard].
  unfold StatCard.render.
  cbn [StatCard.trendView StatCard.valueText StatCard.trend StatCard.value direction change].
  destruct (gt (localTemp q) (localTemp p)), (gt (batteryTemp q) (batteryTemp p));
    repeat split; reflexivity.
Qed.

(** X11. Exchanging the two readings of the latest sample changes neither
    whether the effect raises the differential alert nor the differential
    that the System Status card shows. *)
Theorem differential_symmetric (s : list Sample) (x : Sample) (w : World) :
  let x' := {| time := time x; localTemp := batteryTemp x; batteryTemp := localTemp x |} in
  exists a a' w1 w1' v v',
    useEffect_alerts (s ++ [x]) w = Normal (a, w1) /\
    useEffect_alerts (s ++ [x']) w = Normal (a', w1') /\
    (In differential_message (map message a) <->
     In differential_message (map message a')) /\
    systemStatus (s ++ [x]) = Normal v /\
    systemStatus (s ++ [x']) = Normal v' /\
    differentialClass v = differentialClass v' /\
    differentialText v = differentialText v'.
Proof.
  cbv zeta. rewrite !useEffect_alerts_last, !systemStatus_last. cbv zeta.
  set (x' := {| time := time x; localTemp := batteryTemp x; batteryTemp := localTemp x |}).
  assert (Ed : differential_large x' = differential_large x).
  { unfold differential_large, Math_abs, x'. cbn [batteryTemp localTemp].
    now rewrite abs_sub_sym. }
  assert (Et : Math_abs (sub (batteryTemp x') (localTemp x'))
               = Math_abs (sub (batteryTemp x) (localTemp x))).
  { unfold Math_abs, x'. cbn [batteryTemp localTemp]. apply abs_sub_sym. }
  rewrite Ed, Et.
  destruct (battery_high x), (battery_high x'), (differential_large x);
    do 6 eexists;
    (split; [reflexivity|]); (split; [reflexivity|]);
    (split; [|repeat split; reflexivity]);
    cbn; split; intros H; try tauto; message_cases.
Qed.
Lemma ambient_integers (l b : Z) :
  Z.abs l < 2 ^ 51 -> Z.abs b < 2 ^ 51 ->
  exists (neg : bool) (t : Z),
    calculateAmbientTemp (of_Z l) (of_Z b) = (if neg then "-" else "") ++ tenths t /\
    0 <= t /\ 10 * Z.min l b <= (if neg then - t else t) <= 10 * Z.max l b.
Proof.
  intros Hl Hb.
  assert (H51 : 2 ^ 51 = 2251799813685248) by reflexivity.
  assert (H52 : 2 ^ 52 = 4503599627370496) by reflexivity.
  assert (H53 : 2 ^ 53 = 9007199254740992) by reflexivity.
  unfold calculateAmbientTemp.
  rewrite mul_of_Z_2 by lia.
  rewrite add_of_Z by lia.
  destruct (div_of_Z_between (l * 2 + b) 3 (Z.min l b) (Z.max l b))
    as (Hf & Hlo & Hhi); try lia.
  now apply toFixed1_between; try lia.
Qed.

(** X12. For integer readings of magnitude below 2^51, the ambient
    estimate is a numeral with one decimal that reads back as a Number
    between the smaller and the greater of the two readings; for equal
    readings it reads back as the reading. *)
Theorem ambient_between (l b : Z) :
  Z.abs l < 2 ^ 51 -> Z.abs b < 2 ^ 51 ->
  let ambient := ToNumber (calculateAmbientTemp (of_Z l) (of_Z b)) in
  le (of_Z (Z.min l b)) ambient = true /\ le ambient (of_Z (Z.max l b)) = true /\
  (l = b -> Number.eqb ambient (of_Z l) = true).
Proof.
  intros Hl Hb. cbv zeta.
  assert (H51 : 2 ^ 51 = 2251799813685248) by reflexivity.
  assert (H53 : 2 ^ 53 = 9007199254740992) by reflexivity.
  destruct (ambient_integers l b Hl Hb) as (neg & t & -> & Ht & Hbd).
  rewrite (ToNumber_tenths neg t Ht).
  destruct (scaled_between neg t (Z.min l b) (Z.max l b) Ht ltac:(lia) ltac:(lia) Hbd)
    as (Vr & Fr & Hlo & Hhi).
  assert (L1 : le (of_Z (Z.min l b)) (scaled neg t (-1)) = true).
  { rewrite of_Z_int by lia. apply le_of_value; try assumption;
      [apply is_number_of_int; lia | apply is_finite_of_int |].
    rewrite R_of_int by lia. assumption. }
  assert (L2 : le (scaled neg t (-1)) (of_Z (Z.max l b)) = true).
  { rewrite of_Z_int by lia. apply le_of_value; try assumption;
      [apply is_number_of_int; lia | apply is_finite_of_int |].
    rewrite R_of_int by lia. assumption. }
  split; [exact L1|]. split; [exact L2|].
  intros ->. rewrite Z.min_id in L1. rewrite Z.max_id in L2.
  now apply le_antisym.
Qed.

Lemma ambient_between_witness :
  let ambient := ToNumber (calculateAmbientTemp (of_Z 23) (of_Z 27)) in
  le (of_Z 23) ambient = true /\ le ambient (of_Z 27) = true.
Proof.
  destruct (ambient_between 23 27) as (H1 & H2 & _); [reflexivity | reflexivity |].
  split; [exact H1 | exact H2].
Defined.
Lemma sub_add_opp (x y : number) : sub x y = add x (opp y).
Proof.
  unfold sub, add, opp, SFsub, SFadd, SFopp.
  destruct x as [[|] | [|] | | sx mx ex], y as [[|] | [|] | | sy my ey];
    try reflexivity.
  f_equal. destruct sy; cbn [negb cond_Zopp]; lia.
Qed.

Lemma opp_of_int (z : Z) : z <> 0 -> opp (of_int z) = of_int (- z).
Proof. destruct z; [congruence | reflexivity | reflexivity]. Qed.

(** Subtracting integer Numbers is exact as long as the difference stays
    below 2^53. *)
Lemma sub_of_Z (a b : Z) :
  Z.abs a < 2 ^ 53 -> Z.abs b < 2 ^ 53 -> Z.abs (a - b) < 2 ^ 53 ->
  sub (of_Z a) (of_Z b) = of_Z (a - b).
Proof.
  intros Ha Hb Hab. rewrite sub_add_opp.
  destruct (Z.eq_dec b 0) as [-> | Hne].
  - rewrite Z.sub_0_r, (of_Z_int a Ha). destruct a; reflexivity.
  - rewrite (of_Z_int b Hb), opp_of_int by assumption.
    rewrite <- of_Z_int by lia. rewrite add_of_Z by lia.
    reflexivity.
Qed.

Lemma abs_of_Z (z : Z) : Z.abs z < 2 ^ 53 -> abs (of_Z z) = of_Z (Z.abs z).
Proof.
  intros Hz. rewrite !of_Z_int by lia. destruct z; reflexivity.
Qed.

Lemma gt_of_Z (a b : Z) :
  Z.abs a < 2 ^ 53 -> Z.abs b < 2 ^ 53 -> gt (of_Z a) (of_Z b) = (b <? a).
Proof.
  intros Ha Hb. unfold gt. change (SFltb (of_Z b) (of_Z a)) with (lt (of_Z b) (of_Z a)).
  rewrite !of_Z_int by assumption.
  destruct (Z.ltb_spec b a) as [H | H].
  - apply lt_rank; try apply of_int_not_nan. now apply of_int_rank_lt.
  - apply lt_false_rank; try apply of_int_not_nan.
    destruct (Z.eq_dec a b) as [-> | Hne]; [apply rank_lt_irrefl|].
    apply rank_lt_asym. apply of_int_rank_lt; lia.
Qed.

Lemma nearest_scaled_int (r : Q) (n : Z) :
  (r == inject_Z n)%Q -> nearest_scaled r 1 = 10 * n.
Proof.
  intros E. destruct (nearest_scaled_1 r) as [H1 H2].
  set (N := nearest_scaled r 1) in *. rewrite E in H1, H2.
  assert (A : (inject_Z (2 * N) <= inject_Z (20 * n + 1))%Q).
  { rewrite inject_Z_plus, !inject_Z_mult.
    change (inject_Z 2) with 2%Q. change (inject_Z 20) with 20%Q.
    change (inject_Z 1) with 1%Q. lra. }
  assert (B : (inject_Z (20 * n) < inject_Z (2 * N + 1))%Q).
  { rewrite inject_Z_plus, !inject_Z_mult.
    change (inject_Z 2) with 2%Q. change (inject_Z 20) with 20%Q.
    change (inject_Z 1) with 1%Q. lra. }
  rewrite <- Zle_Qle in A. rewrite <- Zlt_Qlt in B. lia.
Qed.

(** A non-negative integer Number is printed by [toFixed(1)] as its
    decimal numeral followed by ".0". *)
Lemma toFixed1_of_Z (n : Z) :
  0 <= n < 2 ^ 53 -> toFixed (of_Z n) 1 = decimal n ++ ".0".
Proof.
  intros Hn.
  assert (H53 : 2 ^ 53 = 9007199254740992) by reflexivity.
  assert (HR : (R (of_Z n) == inject_Z n)%Q) by (apply R_of_Z; lia).
  assert (Habs : (Qabs (R (of_Z n)) == inject_Z n)%Q).
  { rewrite HR. apply Qabs_pos. change 0%Q with (inject_Z 0). rewrite <- Zle_Qle. lia. }
  rewrite toFixed1_tenths.
  - unfold sign_of.
    replace (Qle_bool 0 (R (of_Z n))) with true.
    2:{ symmetry. apply Qle_bool_iff. rewrite HR.
        change 0%Q with (inject_Z 0). rewrite <- Zle_Qle. lia. }
    rewrite (nearest_scaled_int _ n Habs). unfold tenths.
    replace (10 * n / 10) with n by (rewrite Z.mul_comm, Z.div_mul; lia).
    replace (10 * n mod 10) with 0 by (rewrite Z.mul_comm, Z.mod_mul; lia).
    reflexivity.
  - rewrite of_Z_int by lia. apply is_finite_of_int.
  - rewrite Habs. rewrite <- Zlt_Qlt.
    assert (2 ^ 53 < 10 ^ 21) by reflexivity. lia.
Qed.

(** X13. For integer values of magnitude below 2^52, [getTrend] reports a
    rise exactly when the last value is the greater one, and the change
    is the decimal numeral of the absolute difference followed by ".0". *)
Theorem trend_integers (s : list Sample) (p q : Sample) (k : Key) (a b : Z) :
  get p k = of_Z a -> get q k = of_Z b ->
  Z.abs a < 2 ^ 52 -> Z.abs b < 2 ^ 52 ->
  getTrend (s ++ [p; q]) k =
    Normal {| direction := if a <? b then "up" else "down";
              change := decimal (Z.abs (b - a)) ++ ".0" |}.
Proof.
  intros Ep Eq Ha Hb.
  assert (H52 : 2 ^ 52 = 4503599627370496) by reflexivity.
  assert (H53 : 2 ^ 53 = 9007199254740992) by reflexivity.
  rewrite getTrend_last2, Ep, Eq. unfold Math_abs.
  rewrite gt_of_Z, sub_of_Z, abs_of_Z, toFixed1_of_Z by lia.
  reflexivity.
Qed.

Lemma trend_integers_witness :
  getTrend (initialData ++ [sample "24:00" 19 36; sample "27:00" 31 24]) LocalTemp
  = Normal {| direction := "up"; change := "12.0" |}.
Proof.
  apply (trend_integers initialData (sample "24:00" 19 36) (sample "27:00" 31 24)
           LocalTemp 19 31); reflexivity.
Defined.

(** X14. For an integer latest sample (magnitudes below 2^52) the effect
    raises the battery alert exactly when the battery reading is above
    30, and the differential alert exactly when the two readings are more
    than 10 apart; the System Status card shows that distance with one
    decimal. *)
Theorem alerts_integers (s : list Sample) (t : string) (l b : Z) (w : World) :
  Z.abs l < 2 ^ 52 -> Z.abs b < 2 ^ 52 ->
  exists newAlerts w' v,
    useEffect_alerts (s ++ [sample t l b]) w = Normal (newAlerts, w') /\
    map message newAlerts =
      ((if 30 <? b then [battery_message] else []) ++
       (if 10 <? Z.abs (b - l) then [differential_message] else []))%list /\
    systemStatus (s ++ [sample t l b]) = Normal v /\
    batteryStatusText v = (if 30 <? b then "Warning" else "Normal") /\
    differentialText v = decimal (Z.abs (b - l)) ++ ".0".
Proof.
  intros Hl Hb.
  assert (H52 : 2 ^ 52 = 4503599627370496) by reflexivity.
  assert (H53 : 2 ^ 53 = 9007199254740992) by reflexivity.
  assert (Eb : battery_high (sample t l b) = (30 <? b)).
  { unfold battery_high, sample. cbn [batteryTemp]. apply gt_of_Z; lia. }
  assert (Ed : differential_large (sample t l b) = (10 <? Z.abs (b - l))).
  { unfold differential_large, sample, Math_abs. cbn [batteryTemp localTemp].
    rewrite sub_of_Z, abs_of_Z by lia. apply gt_of_Z; lia. }
  rewrite useEffect_alerts_last, systemStatus_last, Eb, Ed. cbv zeta.
  change (batteryTemp (sample t l b)) with (of_Z b).
  change (localTemp (sample t l b)) with (of_Z l). unfold Math_abs.
  rewrite sub_of_Z, abs_of_Z, toFixed1_of_Z by lia.
  destruct (30 <? b), (10 <? Z.abs (b - l));
    do 3 eexists; repeat split; reflexivity.
Qed.

Lemma alerts_integers_witness :
  exists newAlerts w' v,
    useEffect_alerts ([sample "15:00" 28 35] ++ [sample "18:00" 20 32])
      {| readings := fun _ => 1700000000000; taken := 0 |} = Normal (newAlerts, w') /\
    map message newAlerts = [battery_message; differential_message] /\
    systemStatus ([sample "15:00" 28 35] ++ [sample "18:00" 20 32]) = Normal v /\
    batteryStatusText v = "Warning" /\
    differentialText v = "12.0".
Proof.
  apply (alerts_integers [sample "15:00" 28 35] "18:00" 20 32); reflexivity.
Defined.
